(** * awless template language: the generated PEG parser, the dry-run
    drivers and the revert command.

    The development follows the Go sources: the packrat-less PEG parser
    generated from [template/ast] (rules, token tree, [Execute],
    [parseError]), the generated EC2 dry-run drivers and
    [commands/revert.go]. *)

From Stdlib Require Import NArith String Ascii DecimalString Lia.
From stdpp Require Import base list sorting gmap strings.
Import ListNotations.

Local Open Scope nat_scope.

(** ** Runes and the parser buffer *)

(** Go's [rune] is a code point; [endSymbol] lies just above
    [unicode.MaxRune], so no rune decoded from a Go string equals it. *)
Definition rune := N.
Definition endSymbol : rune := 1114112%N.

Definition ch (a : ascii) : rune := N_of_ascii a.

(** [[]rune(s)] for an ASCII string [s]. *)
Definition runes (s : string) : list rune :=
  map N_of_ascii (list_ascii_of_string s).

(** [p.reset]: the buffer is the input, with [endSymbol] appended unless
    the input already ends with it. *)
Definition mkBuffer (input : list rune) : list rune :=
  match last input with
  | Some c => if N.eqb c endSymbol then input else input ++ [endSymbol]
  | None => input ++ [endSymbol]
  end.

(** ** Rule names and tokens *)

Inductive pegRule : Set :=
  | ruleUnknown | ruleScript | ruleStatement | ruleAction | ruleEntity
  | ruleDeclaration | ruleExpr | ruleParams | ruleParam | ruleIdentifier
  | ruleValue | ruleStringValue | ruleCSVValue | ruleCidrValue | ruleIpValue
  | ruleIntValue | ruleIntRangeValue | ruleRefValue | ruleAliasValue
  | ruleHoleValue | ruleComment | ruleSpacing | ruleWhiteSpacing
  | ruleMustWhiteSpacing | ruleEqual | ruleSpace | ruleWhitespace
  | ruleEndOfLine | ruleEndOfFile | rulePegText
  | ruleAction0 | ruleAction1 | ruleAction2 | ruleAction3 | ruleAction4
  | ruleAction5 | ruleAction6 | ruleAction7 | ruleAction8 | ruleAction9
  | ruleAction10 | ruleAction11 | ruleAction12 | ruleAction13 | ruleAction14.

#[global] Instance pegRule_eq_dec : EqDecision pegRule.
Proof. solve_decision. Defined.

Definition rul3s (r : pegRule) : string :=
  match r with
  | ruleUnknown => "Unknown" | ruleScript => "Script"
  | ruleStatement => "Statement" | ruleAction => "Action"
  | ruleEntity => "Entity" | ruleDeclaration => "Declaration"
  | ruleExpr => "Expr" | ruleParams => "Params" | ruleParam => "Param"
  | ruleIdentifier => "Identifier" | ruleValue => "Value"
  | ruleStringValue => "StringValue" | ruleCSVValue => "CSVValue"
  | ruleCidrValue => "CidrValue" | ruleIpValue => "IpValue"
  | ruleIntValue => "IntValue" | ruleIntRangeValue => "IntRangeValue"
  | ruleRefValue => "RefValue" | ruleAliasValue => "AliasValue"
  | ruleHoleValue => "HoleValue" | ruleComment => "Comment"
  | ruleSpacing => "Spacing" | ruleWhiteSpacing => "WhiteSpacing"
  | ruleMustWhiteSpacing => "MustWhiteSpacing" | ruleEqual => "Equal"
  | ruleSpace => "Space" | ruleWhitespace => "Whitespace"
  | ruleEndOfLine => "EndOfLine" | ruleEndOfFile => "EndOfFile"
  | rulePegText => "PegText"
  | ruleAction0 => "Action0" | ruleAction1 => "Action1"
  | ruleAction2 => "Action2" | ruleAction3 => "Action3"
  | ruleAction4 => "Action4" | ruleAction5 => "Action5"
  | ruleAction6 => "Action6" | ruleAction7 => "Action7"
  | ruleAction8 => "Action8" | ruleAction9 => "Action9"
  | ruleAction10 => "Action10" | ruleAction11 => "Action11"
  | ruleAction12 => "Action12" | ruleAction13 => "Action13"
  | ruleAction14 => "Action14"
  end.

Record token32 : Set := Token32 {
  tok_rule : pegRule;
  tok_begin : nat;
  tok_end : nat
}.

#[global] Instance token32_eq_dec : EqDecision token32.
Proof. solve_decision. Defined.

(** ** Parser state

    The closure variables of [Peg.Init]: [position], the token tree up to
    [tokenIndex] (entries beyond it are dead: they are overwritten by the
    next [add] and cut by [Trim]), and [max], the token that reached the
    farthest position so far.  [max] is never restored on backtracking.
    Positions are [uint32] in the source and the tree grows on demand;
    here they are [nat] and a list, which agree for buffers of fewer
    than 2^32 runes. *)
Record pstate : Set := PState {
  position : nat;
  tokens : list token32;
  max : token32
}.

Definition initState : pstate :=
  PState 0 [] (Token32 ruleUnknown 0 0).

Definition parser := pstate -> bool * pstate.

(** [position, tokenIndex = positionN, tokenIndexN]. *)
Definition restore (saved s : pstate) : pstate :=
  PState (position saved) (tokens saved) (max s).

Definition advance (s : pstate) : pstate :=
  PState (S (position s)) (tokens s) (max s).

(** The body of the [add] closure. *)
Definition addToken (r : pegRule) (begin : nat) (s : pstate) : pstate :=
  PState (position s)
         (tokens s ++ [Token32 r begin (position s)])
         (if negb (begin =? position s) && (tok_end (max s) <? position s)
          then Token32 r begin (position s) else max s).

Module Peg.
Section Rules.

Variable buffer : list rune.

(** [buffer[position]].  The position never passes the index of the
    closing [endSymbol] ([PegFacts.sound], [GrammarFacts.good_Script]),
    where Go would panic; so the default of [nth] is not reached. *)
Definition peek (s : pstate) : rune := nth (position s) buffer endSymbol.

Definition add (r : pegRule) (begin : nat) : parser :=
  fun s => (true, addToken r begin s).

(** [add(rule, position)]: an action token, empty span. *)
Definition addHere (r : pegRule) : parser :=
  fun s => add r (position s) s.

Definition matchDot : parser :=
  fun s => if N.eqb (peek s) endSymbol then (false, s) else (true, advance s).

(** [if buffer[position] != rune(c) { goto fail }; position++] *)
Definition matchChar (c : ascii) : parser :=
  fun s => if N.eqb (peek s) (ch c) then (true, advance s) else (false, s).

(** [if c := buffer[position]; c < lo || c > hi { goto fail }; position++] *)
Definition matchRange (lo hi : ascii) : parser :=
  fun s => let c := peek s in
           if N.ltb c (ch lo) || N.ltb (ch hi) c then (false, s)
           else (true, advance s).

(** Sequencing: a failure jumps out to the enclosing label, which does
    the restoring. *)
Definition seq (p q : parser) : parser :=
  fun s => let '(b, s1) := p s in if b then q s1 else (false, s1).

(** Ordered choice: [p; goto done; lfail: restore; q]. *)
Definition alt (p q : parser) : parser :=
  fun s => let '(b, s1) := p s in
           if b then (true, s1) else q (restore s s1).

(** A rule function: on failure [lN: position, tokenIndex = ...; return false]. *)
Definition rule (p : parser) : parser :=
  fun s => let '(b, s1) := p s in
           if b then (true, s1) else (false, restore s s1).

(** [{ positionN := position; body; add(r, positionN) }] *)
Definition tok (r : pegRule) (p : parser) : parser :=
  fun s => seq p (add r (position s)) s.

(** Optional group. *)
Definition opt (p : parser) : parser :=
  fun s => let '(b, s1) := p s in
           if b then (true, s1) else (true, restore s s1).

(** Negative lookahead [!p]. *)
Definition notp (p : parser) : parser :=
  fun s => let '(b, s1) := p s in
           if b then (false, s1) else (true, restore s s1).

(** The loop [lN: save; body; goto lN; lM: restore].  Every loop body of
    this grammar consumes a rune when it succeeds, so the loop runs at
    most once per remaining rune; [loops_exact] shows that the bound is
    never what ends it. *)
Fixpoint star_loop (fuel : nat) (p : parser) (s : pstate) : bool * pstate :=
  match fuel with
  | 0 => (true, s)
  | S fuel' =>
      let '(b, s1) := p s in
      if b then star_loop fuel' p s1 else (true, restore s s1)
  end.

Definition star (p : parser) : parser :=
  fun s => star_loop (S (length buffer - position s)) p s.

(** [switch buffer[position] { case c1, c2: p ... default: d }] *)
Definition switch (cases : list (list ascii * parser)) (default : parser)
  : parser :=
  fun s =>
    match find (fun c => existsb (fun a => N.eqb (peek s) (ch a)) (fst c))
               cases with
    | Some c => snd c s
    | None => default s
    end.

Fixpoint lit (l : list ascii) : parser :=
  match l with
  | [] => fun s => (true, s)
  | [c] => matchChar c
  | c :: l' => seq (matchChar c) (lit l')
  end.

Definition word (w : string) : parser := lit (list_ascii_of_string w).

Declare Scope peg_scope.
Delimit Scope peg_scope with peg.
Bind Scope peg_scope with parser.
Notation "p ;> q" := (seq p q) (at level 63, right associativity) : peg_scope.
Notation "p </> q" := (alt p q) (at level 64, right associativity) : peg_scope.
Local Open Scope peg_scope.
Local Open Scope char_scope.

(** *** Leaf rules *)

(* 25 Whitespace <- <(' ' / '\t')> *)
Definition Whitespace : parser :=
  rule (tok ruleWhitespace (matchChar " " </> matchChar "009")).

(* 26 EndOfLine <- <(('\r' '\n') / '\n' / '\r')> *)
Definition EndOfLine : parser :=
  rule (tok ruleEndOfLine
          ((matchChar "013" ;> matchChar "010")
           </> matchChar "010" </> matchChar "013")).

(* 20 Spacing <- <Space*>, 24 Space <- <(Whitespace / EndOfLine)> *)
Definition Spacing : parser :=
  tok ruleSpacing (star (tok ruleSpace (Whitespace </> EndOfLine))).

(* 21 WhiteSpacing <- <Whitespace*> *)
Definition WhiteSpacing : parser :=
  tok ruleWhiteSpacing (star Whitespace).

(* 22 MustWhiteSpacing <- <Whitespace+> *)
Definition MustWhiteSpacing : parser :=
  rule (tok ruleMustWhiteSpacing (Whitespace ;> star Whitespace)).

(* 23 Equal <- <(Spacing '=' Spacing)> *)
Definition Equal : parser :=
  rule (tok ruleEqual (Spacing ;> matchChar "=" ;> Spacing)).

Definition digitCases : list ascii :=
  ["0"; "1"; "2"; "3"; "4"; "5"; "6"; "7"; "8"; "9"].
Definition upperCases : list ascii :=
  ["A"; "B"; "C"; "D"; "E"; "F"; "G"; "H"; "I"; "J"; "K"; "L"; "M";
   "N"; "O"; "P"; "Q"; "R"; "S"; "T"; "U"; "V"; "W"; "X"; "Y"; "Z"].

Definition identifierChar : parser :=
  switch [ (["."], matchChar ".");
           (["_"], matchChar "_");
           (["-"], matchChar "-");
           (digitCases, matchRange "0" "9");
           (upperCases, matchRange "A" "Z") ]
         (matchRange "a" "z").

(* 8 Identifier <- [a-zA-Z0-9-_.]+ *)
Definition Identifier : parser :=
  rule (tok ruleIdentifier (identifierChar ;> star identifierChar)).

Definition stringValueChar : parser :=
  switch [ (["/"], matchChar "/");
           ([":"], matchChar ":");
           (["_"], matchChar "_");
           (["."], matchChar ".");
           (["-"], matchChar "-");
           (digitCases, matchRange "0" "9");
           (upperCases, matchRange "A" "Z") ]
         (matchRange "a" "z").

(* 10 StringValue <- [a-zA-Z0-9-._:/]+ *)
Definition StringValue : parser :=
  rule (tok ruleStringValue (stringValueChar ;> star stringValueChar)).

(* [0-9]+ *)
Definition digits : parser :=
  matchRange "0" "9" ;> star (matchRange "0" "9").

(** *** Values *)

(* 12 CidrValue <- <([0-9]+ . [0-9]+ . [0-9]+ . [0-9]+ '/' [0-9]+)> *)
Definition CidrValue : parser :=
  tok ruleCidrValue
    (digits ;> matchDot ;> digits ;> matchDot ;> digits ;> matchDot ;>
     digits ;> matchChar "/" ;> digits).

(* 13 IpValue <- <([0-9]+ . [0-9]+ . [0-9]+ . [0-9]+)> *)
Definition IpValue : parser :=
  tok ruleIpValue
    (digits ;> matchDot ;> digits ;> matchDot ;> digits ;> matchDot ;>
     digits).

(* 11 CSVValue <- <((StringValue WhiteSpacing ',' WhiteSpacing)+ StringValue)> *)
Definition csvItem : parser :=
  StringValue ;> WhiteSpacing ;> matchChar "," ;> WhiteSpacing.

Definition CSVValue : parser :=
  tok ruleCSVValue (csvItem ;> star csvItem ;> StringValue).

(* 15 IntRangeValue <- <([0-9]+ '-' [0-9]+)> *)
Definition IntRangeValue : parser :=
  tok ruleIntRangeValue (digits ;> matchChar "-" ;> digits).

(* 14 IntValue <- <[0-9]+> *)
Definition IntValue : parser := tok ruleIntValue digits.

(* 16 RefValue <- <('$' <Identifier>)> *)
Definition RefValue : parser :=
  tok ruleRefValue (matchChar "$" ;> tok rulePegText Identifier).

(* 17 AliasValue <- <<('@' StringValue)>> *)
Definition AliasValue : parser :=
  tok ruleAliasValue (tok rulePegText (matchChar "@" ;> StringValue)).

(* 18 HoleValue <- <('{' WhiteSpacing <Identifier> WhiteSpacing '}')> *)
Definition HoleValue : parser :=
  tok ruleHoleValue
    (matchChar "{" ;> WhiteSpacing ;> tok rulePegText Identifier ;>
     WhiteSpacing ;> matchChar "}").

(** The six alternatives of [Value], in the order of the generated code
    (labels l82, l96, l108, l114, l122 of the first inlined copy). *)
Definition valueCidr : parser := tok rulePegText CidrValue ;> addHere ruleAction8.
Definition valueIp : parser := tok rulePegText IpValue ;> addHere ruleAction9.
Definition valueCSV : parser := tok rulePegText CSVValue ;> addHere ruleAction10.
Definition valueIntRange : parser :=
  tok rulePegText IntRangeValue ;> addHere ruleAction11.
Definition valueInt : parser := tok rulePegText IntValue ;> addHere ruleAction12.
Definition valueSigil : parser :=
  switch [ (["$"], RefValue ;> addHere ruleAction7);
           (["@"], AliasValue ;> addHere ruleAction6);
           (["{"], HoleValue ;> addHere ruleAction5) ]
         (tok rulePegText StringValue ;> addHere ruleAction13).

(* 9 Value *)
Definition Value : parser :=
  tok ruleValue
    (valueCidr </> valueIp </> valueCSV </> valueIntRange </> valueInt
     </> valueSigil).

(** *** Statements *)

(* 7 Param <- <(<Identifier> Action4 Equal Value WhiteSpacing)> *)
Definition Param : parser :=
  tok ruleParam
    (tok rulePegText Identifier ;> addHere ruleAction4 ;> Equal ;> Value ;>
     WhiteSpacing).

(* 6 Params <- <Param+> *)
Definition Params : parser := tok ruleParams (Param ;> star Param).

(* 2 Action: three ordered literals, then a switch on the first rune *)
Definition actionWord : parser :=
  word "create" </> word "delete" </> word "start"
  </> switch [ (["d"], word "detach");
               (["c"], word "check");
               (["a"], word "attach");
               (["u"], word "update");
               (["s"], word "stop") ]
             (word "none").

Definition Action : parser := tok ruleAction actionWord.

(* 3 Entity: nine ordered literals, then a switch on the first rune *)
Definition entityWord : parser :=
  word "vpc" </> word "subnet" </> word "instance" </> word "tag"
  </> word "role" </> word "securitygroup" </> word "routetable"
  </> word "storageobject" </> word "loadbalancer"
  </> switch [ (["l"], word "listener");
               (["q"], word "queue");
               (["t"], word "topic");
               (["s"], word "subscription");
               (["b"], word "bucket");
               (["r"], word "route");
               (["i"], word "internetgateway");
               (["k"], word "keypair");
               (["p"], word "policy");
               (["g"], word "group");
               (["u"], word "user");
               (["v"], word "volume") ]
             (word "none").

Definition Entity : parser := tok ruleEntity entityWord.

(* 5 Expr <- <(<Action> Action1 MustWhiteSpacing <Entity> Action2
               (MustWhiteSpacing Params)? Action3)> *)
Definition Expr : parser :=
  rule (tok ruleExpr
          (tok rulePegText Action ;> addHere ruleAction1 ;>
           MustWhiteSpacing ;>
           tok rulePegText Entity ;> addHere ruleAction2 ;>
           opt (MustWhiteSpacing ;> Params) ;>
           addHere ruleAction3)).

(* 4 Declaration <- <(<Identifier> Action0 Equal Expr)> *)
Definition Declaration : parser :=
  tok ruleDeclaration
    (tok rulePegText Identifier ;> addHere ruleAction0 ;> Equal ;> Expr).

(* ( !EndOfLine . )* , the rest of the line *)
Definition restOfLine : parser := star (notp EndOfLine ;> matchDot).

(* 19 Comment <- '#' RestOfLine / '/' '/' RestOfLine Action14 *)
Definition Comment : parser :=
  tok ruleComment
    ((matchChar "#" ;> restOfLine)
     </> (matchChar "/" ;> matchChar "/" ;> restOfLine ;>
         addHere ruleAction14)).

(* 1 Statement <- Spacing (Expr / Declaration / Comment) Spacing EndOfLine* *)
Definition Statement : parser :=
  tok ruleStatement
    (Spacing ;> (Expr </> Declaration </> Comment) ;> Spacing ;>
     star EndOfLine).

(* 27 EndOfFile <- <!.> *)
Definition EndOfFile : parser := tok ruleEndOfFile (notp matchDot).

(* 0 Script <- <(Spacing Statement+ EndOfFile)> *)
Definition Script : parser :=
  rule (tok ruleScript (Spacing ;> Statement ;> star Statement ;> EndOfFile)).

End Rules.
End Peg.

(** ** [Peg.Parse] *)

Record parseError : Set := ParseError {
  err_buffer : list rune;
  err_max : token32
}.

(** [p.Parse()] after [p.Init()]: the trimmed token tree, or the
    [parseError] carrying [max]. *)
Definition Parse (input : list rune) : list token32 + parseError :=
  let buffer := mkBuffer input in
  let '(matches, s) := Peg.Script buffer initState in
  if matches then inl (tokens s) else inr (ParseError buffer (max s)).

(** ** [Peg.Execute]: the builder callbacks, in call order *)

Inductive call : Set :=
  | addDeclarationIdentifier (text : list rune)
  | addAction (text : list rune)
  | addEntity (text : list rune)
  | LineDone
  | addParamKey (text : list rune)
  | addParamHoleValue (text : list rune)
  | addParamValue (text : list rune)
  | addParamRefValue (text : list rune)
  | addParamCidrValue (text : list rune)
  | addParamIpValue (text : list rune)
  | addCsvValue (text : list rune)
  | addParamIntValue (text : list rune).

(** [_buffer[begin:end]] *)
Definition slice (buffer : list rune) (b e : nat) : list rune :=
  take (e - b) (drop b buffer).

Definition executeStep (buffer : list rune)
    (st : list rune * list call) (t : token32) : list rune * list call :=
  let '(text, calls) := st in
  match tok_rule t with
  | rulePegText => (slice buffer (tok_begin t) (tok_end t), calls)
  | ruleAction0 => (text, calls ++ [addDeclarationIdentifier text])
  | ruleAction1 => (text, calls ++ [addAction text])
  | ruleAction2 => (text, calls ++ [addEntity text])
  | ruleAction3 => (text, calls ++ [LineDone])
  | ruleAction4 => (text, calls ++ [addParamKey text])
  | ruleAction5 => (text, calls ++ [addParamHoleValue text])
  | ruleAction6 => (text, calls ++ [addParamValue text])
  | ruleAction7 => (text, calls ++ [addParamRefValue text])
  | ruleAction8 => (text, calls ++ [addParamCidrValue text])
  | ruleAction9 => (text, calls ++ [addParamIpValue text])
  | ruleAction10 => (text, calls ++ [addCsvValue text])
  | ruleAction11 => (text, calls ++ [addParamValue text])
  | ruleAction12 => (text, calls ++ [addParamIntValue text])
  | ruleAction13 => (text, calls ++ [addParamValue text])
  | ruleAction14 => (text, calls ++ [LineDone])
  | _ => (text, calls)
  end.

Definition Execute (buffer : list rune) (toks : list token32) : list call :=
  snd (fold_left (executeStep buffer) toks ([], [])).

(** Parse, then Execute on success: what the template builder is told. *)
Definition parseCalls (input : string) : option (list call) :=
  match Parse (runes input) with
  | inl toks => Some (Execute (mkBuffer (runes input)) toks)
  | inr _ => None
  end.

(** ** [parseError.Error] and [translatePositions] *)

Record textPosition : Set := TextPosition { line : nat; symbol : nat }.

(** [for j++; j < length; j++ { if i != positions[j] { continue search } }]:
    the positions equal to [i] are passed over. *)
Fixpoint skipEqual (i : nat) (positions : list nat) : list nat :=
  match positions with
  | p :: later => if i =? p then skipEqual i later else positions
  | [] => []
  end.

(** The [search] loop over the buffer; [positions] is [positions[j:]].
    [None] stands for the index-out-of-range panic of [positions[j]] that
    an empty [positions] causes on a non-empty buffer. *)
Fixpoint searchLoop (buffer : list rune) (i : nat) (positions : list nat)
    (line symbol : nat) (translations : gmap nat textPosition)
    : option (gmap nat textPosition) :=
  match buffer with
  | [] => Some translations
  | c :: rest =>
      let '(line, symbol) :=
        if N.eqb c (ch "010") then (line + 1, 0) else (line, symbol + 1) in
      match positions with
      | [] => None
      | pj :: later =>
          if i =? pj then
            let translations := <[pj := TextPosition line symbol]> translations in
            match skipEqual i later with
            | [] => Some translations
            | remaining =>
                searchLoop rest (S i) remaining line symbol translations
            end
          else searchLoop rest (S i) positions line symbol translations
      end
  end.

Definition translatePositions (buffer : list rune) (positions : list nat)
  : option (gmap nat textPosition) :=
  searchLoop buffer 0 (merge_sort Nat.le positions) 1 0 ∅.

(** [translations[k]]: a missing key reads as the zero value. *)
Definition lookupPosition (m : gmap nat textPosition) (k : nat) : textPosition :=
  default (TextPosition 0 0) (m !! k).

(** [%v] of an [int]. *)
Definition showInt (n : nat) : string := NilEmpty.string_of_uint (Nat.to_uint n).

Section ErrorMessage.

(** [strconv.Quote(string(runes))], from Go's standard library. *)
Variable quote : list rune -> string.

Definition errorFormat (pretty : bool) (ruleName : string)
    (b e : textPosition) (quoted : string) : string :=
  ("parse error near "
   +:+ (if pretty then String "027" "[34m" +:+ ruleName +:+ String "027" "[m"
        else ruleName)
   +:+ " (line " +:+ showInt (line b) +:+ " symbol " +:+ showInt (symbol b)
   +:+ " - line " +:+ showInt (line e) +:+ " symbol " +:+ showInt (symbol e)
   +:+ "):" +:+ String "010" quoted +:+ String "010" "")%string.

(** [(e *parseError) Error()]; [pretty] is [e.p.Pretty]. *)
Definition Error (pretty : bool) (e : parseError) : option string :=
  let t := err_max e in
  translations ← translatePositions (err_buffer e) [tok_begin t; tok_end t];
  Some (String "010"
          (errorFormat pretty (rul3s (tok_rule t))
             (lookupPosition translations (tok_begin t))
             (lookupPosition translations (tok_end t))
             (quote (slice (err_buffer e) (tok_begin t) (tok_end t))))).

End ErrorMessage.

(** ** Generated dry-run drivers (package aws) *)

Module Driver.

Definition dryRunOperation : string := "DryRunOperation".
Definition notFound : string := "NotFound".

(** [strings.HasSuffix]:
    [len(s) >= len(suffix) && s[len(s)-len(suffix):] == suffix]. *)
Definition HasSuffix (s suffix : string) : bool :=
  let ls := list_ascii_of_string s in
  let lsuf := list_ascii_of_string suffix in
  (length lsuf <=? length ls)
  && bool_decide (drop (length ls - length lsuf) ls = lsuf).

(** A non-nil Go [error]: either a value that implements [awserr.Error]
    (it has a [Code]) or any other error. *)
Inductive goError : Set :=
  | AwsErr (code message : string)
  | PlainErr (message : string).

(** The field kinds that [setFieldWithType] is called with. *)
Inductive fieldType : Set :=
  | awsstr | awsint | awsint64 | awsbool | awsboolattribute
  | awsstringattribute | awsint64slice | awsstringslice | awsslicestruct
  | awsstringpointermap.

(** The fields of [ec2.CreateVpcInput] and [ec2.DeleteVpcInput] that the
    dry-run drivers set. *)
Record CreateVpcInput : Set := {
  DryRun : option bool;
  CidrBlock : option string
}.

Record DeleteVpcInput : Set := {
  DeleteDryRun : option bool;
  VpcId : option string
}.

Inductive logLine : Set :=
  | Verbose (msg : string)
  | Errorf (format : string) (err : option goError).

Section Ec2Driver.

(** Parameter values, [interface{}] in the source. *)
Variable paramValue : Type.

(** [setFieldWithType(v, input, fieldName, fieldType)]: defined in the
    driver package outside the generated file; it fills the field of
    the input in place and may fail. *)
Variable setFieldWithType :
  forall I : Type, option paramValue -> I -> string -> fieldType ->
                   I * option goError.

(** [d.CreateVpc(input)] and [d.DeleteVpc(input)], the SDK calls; only
    their error is used. *)
Variable CreateVpc : CreateVpcInput -> option goError.
Variable DeleteVpc : DeleteVpcInput -> option goError.

Variable fakeDryRunId : string -> string.

(** The tail every generated dry-run function ends with, after the
    platform call returned [err]: the type assertion to [awserr.Error],
    the switch on the code, and the two log lines.  The result is the
    returned [(interface{}, error)] pair and the lines logged. *)
Definition dryRunOutcome (entity okLine errFormat : string)
    (err : option goError)
  : (option string * option goError) * list logLine :=
  let failed := ((None, err), [Errorf errFormat err]) in
  match err with
  | Some (AwsErr code _) =>
      if String.eqb code dryRunOperation || HasSuffix code notFound
      then ((Some (fakeDryRunId entity), None), [Verbose okLine])
      else failed
  | _ => failed
  end.

(** [(d *Ec2Driver) Create_Vpc_DryRun(params)] *)
Definition Create_Vpc_DryRun (params : gmap string paramValue)
  : (option string * option goError) * list logLine :=
  let input := {| DryRun := None; CidrBlock := None |} in
  let input := {| DryRun := Some true; CidrBlock := CidrBlock input |} in
  let '(input, err) :=
    setFieldWithType _ (params !! "cidr") input "CidrBlock" awsstr in
  match err with
  | Some _ => ((None, err), [])
  | None =>
      dryRunOutcome "vpc" "full dry run: create vpc ok"
        "dry run: create vpc error: %s" (CreateVpc input)
  end.

(** [(d *Ec2Driver) Delete_Vpc_DryRun(params)] *)
Definition Delete_Vpc_DryRun (params : gmap string paramValue)
  : (option string * option goError) * list logLine :=
  let input := {| DeleteDryRun := None; VpcId := None |} in
  let input := {| DeleteDryRun := Some true; VpcId := VpcId input |} in
  let '(input, err) :=
    setFieldWithType _ (params !! "id") input "VpcId" awsstr in
  match err with
  | Some _ => ((None, err), [])
  | None =>
      dryRunOutcome "vpc" "full dry run: delete vpc ok"
        "dry run: delete vpc error: %s" (DeleteVpc input)
  end.

End Ec2Driver.
End Driver.

(** ** The revert command (commands/revert.go) *)

Module RevertCmd.

(** What the command does to the outside world, in order. *)
Inductive event (exec tpl : Type) : Type :=
  | EvDatabaseCurrent
  | EvGetTemplateExecution (revertId : string)
  | EvDbClose
  | EvRevert (e : exec)
  | EvPrintf (out : string)
  | EvRunTemplate (t : tpl).
Arguments EvDatabaseCurrent {exec tpl}.
Arguments EvGetTemplateExecution {exec tpl}.
Arguments EvDbClose {exec tpl}.
Arguments EvRevert {exec tpl}.
Arguments EvPrintf {exec tpl}.
Arguments EvRunTemplate {exec tpl}.

(** How a run of [RunE] ends: it returns an error value (possibly nil),
    or the process exits from inside [exitOn]. *)
Inductive outcome (A : Type) : Type :=
  | Returned (a : A)
  | Exited (err : string).
Arguments Returned {A}.
Arguments Exited {A}.

Section Command.

Variables exec tpl : Type.

(** The collaborators of the command; each returns its value together
    with a Go [error] ([None] is nil). *)
Variable databaseCurrent : option string.
Variable GetTemplateExecution : string -> exec * option string.
Variable Revert : exec -> tpl * option string.
Variable render : tpl -> string.
Variable runTemplate : tpl -> option string.

(** Computations that log events and may exit the process. *)
Definition cmd (A : Type) : Type :=
  list (event exec tpl) -> outcome A * list (event exec tpl).

Definition ret {A} (a : A) : cmd A := fun tr => (Returned a, tr).

Definition bind {A B} (m : cmd A) (k : A -> cmd B) : cmd B :=
  fun tr =>
    match m tr with
    | (Returned a, tr') => k a tr'
    | (Exited e, tr') => (Exited e, tr')
    end.

Definition emit (e : event exec tpl) : cmd unit :=
  fun tr => (Returned tt, tr ++ [e]).

(** Modelled from the spec: [exitOn] is defined elsewhere in package
    commands; the spec gives a non-zero process exit on any internal
    failure, so a non-nil error ends the process and nil goes on. *)
Definition exitOn (err : option string) : cmd unit :=
  fun tr =>
    match err with
    | Some e => (Exited e, tr)
    | None => (Returned tt, tr)
    end.

Notation "x <- m ;;; k" := (bind m (fun x => k))
  (at level 100, m at next level, right associativity).
Notation "m ;;; k" := (bind m (fun _ => k))
  (at level 100, right associativity).

(** [revertCmd.RunE]; the returned value is the [error] result.
    [template.NewEnv()] and the two assignments to the environment
    touch nothing outside the command and are left out. *)
Definition RunE (args : list string) : cmd (option string) :=
  match args with
  | [] =>
      ret (Some "REVERTID required (see `awless log` to list revert ids)"%string)
  | revertId :: _ =>
      emit EvDatabaseCurrent ;;;
      exitOn databaseCurrent ;;;
      emit (EvGetTemplateExecution revertId) ;;;
      let '(tplExec, err) := GetTemplateExecution revertId in
      emit EvDbClose ;;;
      exitOn err ;;;
      emit (EvRevert tplExec) ;;;
      let '(reverted, err) := Revert tplExec in
      exitOn err ;;;
      emit (EvPrintf (render reverted +:+ String "010" "")) ;;;
      emit (EvRunTemplate reverted) ;;;
      exitOn (runTemplate reverted) ;;;
      ret None
  end.

Definition run (args : list string)
  : outcome (option string) * list (event exec tpl) :=
  RunE args [].

End Command.
End RevertCmd.

(** ** The revert generator *)

Module RevertGen.

Inductive action : Set :=
  | none | create | delete | start | stop | update | attach | check | detach.

Record statement : Set := Statement {
  st_action : action;
  st_entity : string;
  st_params : list (string * string)
}.

Record entry : Set := Entry {
  en_statement : statement;
  en_resolved : list (string * string);
  en_result : option string;
  en_ok : bool
}.

(** Modelled from the spec: the fixed inverse table of section 4.5,
    step 3 (the code of [Revert] is in package template, not in the
    sources at hand).  [delete], [update], [check] and [none] have no
    inverse. *)
Definition inverseAction (a : action) : option action :=
  match a with
  | create => Some delete
  | start => Some stop
  | stop => Some start
  | attach => Some detach
  | detach => Some attach
  | delete | update | check | none => None
  end.

(** Modelled from the spec: step 4, the inverse statement is built from
    the captured values; its identifying parameter [id] is the result of
    the original statement when there is one. *)
Definition inverseStatement (e : entry) : option statement :=
  a ← inverseAction (st_action (en_statement e));
  Some (Statement a (st_entity (en_statement e))
          (match en_result e with
           | Some r => [("id"%string, r)]
           | None => en_resolved e
           end)).

(** Modelled from the spec: [TemplateExecution.Revert], steps 1, 2, 3
    and 5 in this order: keep the successful entries, reverse them, map
    each to its inverse and drop those without one. *)
Definition Revert (record : list entry) : list statement :=
  let successful := filter (fun e => en_ok e = true) record in
  let reversed := reverse successful in
  omap inverseStatement reversed.

End RevertGen.

(** * Properties of the parser *)

(** ** Combinator facts *)

Module PegFacts.
Import Peg.

(** Positions only move forward on success. *)
Definition mono (p : parser) : Prop :=
  forall s s', p s = (true, s') -> position s <= position s'.

(** A success consumes at least one rune. *)
Definition progressive (p : parser) : Prop :=
  forall s s', p s = (true, s') -> position s < position s'.

(** A success only appends tokens, and the appended run satisfies [Q]. *)
Definition emits (Q : list token32 -> Prop) (p : parser) : Prop :=
  forall s s', p s = (true, s') ->
    exists l, tokens s' = tokens s ++ l /\ Q l.

(** Two states that differ at most in [max]. *)
Definition agree (s t : pstate) : Prop :=
  position s = position t /\ tokens s = tokens t.

(** [max] has no influence on what is matched. *)
Definition respects (p : parser) : Prop :=
  forall s t, agree s t ->
    fst (p s) = fst (p t) /\ agree (snd (p s)) (snd (p t)).

Class AppClosed (Q : list token32 -> Prop) : Prop := {
  closed_nil : Q [];
  closed_app : forall l1 l2, Q l1 -> Q l2 -> Q (l1 ++ l2)
}.

#[global] Instance AppClosed_True : AppClosed (fun _ => True).
Proof. split; auto. Qed.

Create HintDb peg discriminated.

Ltac run p s :=
  let b := fresh "b" in
  let s1 := fresh "s" in
  let E := fresh "E" in
  destruct (p s) as [b s1] eqn:E; destruct b.

Section Inversion.

Lemma seq_true p q s s' :
  seq p q s = (true, s') -> exists s1, p s = (true, s1) /\ q s1 = (true, s').
Proof. unfold seq; run p s; intros H; [eauto | inv H]. Qed.

Lemma seq_false_first p q s s' :
  seq p q s = (false, s') ->
  p s = (false, s') \/ exists s1, p s = (true, s1) /\ q s1 = (false, s').
Proof. unfold seq; run p s; intros H; [eauto | inv H; auto]. Qed.

Lemma seq_step p q s s1 : p s = (true, s1) -> seq p q s = q s1.
Proof. unfold seq; by intros ->. Qed.

Lemma alt_true p q s s' :
  alt p q s = (true, s') ->
  p s = (true, s') \/
  exists s1, p s = (false, s1) /\ q (restore s s1) = (true, s').
Proof. unfold alt; run p s; intros H; [inv H; auto | eauto]. Qed.

Lemma rule_true p s s' : rule p s = (true, s') -> p s = (true, s').
Proof. unfold rule; run p s; intros H; inv H; auto. Qed.

Lemma rule_false p s s' :
  rule p s = (false, s') -> exists s1, p s = (false, s1) /\ s' = restore s s1.
Proof. unfold rule; run p s; intros H; inv H; eauto. Qed.

Lemma tok_true r p s s' :
  tok r p s = (true, s') ->
  exists s1, p s = (true, s1) /\ s' = addToken r (position s) s1.
Proof.
  unfold tok; intros H; apply seq_true in H as (s1 & H1 & H2).
  unfold add in H2; inv H2; eauto.
Qed.

Lemma opt_true p s s' :
  opt p s = (true, s') ->
  p s = (true, s') \/ exists s1, p s = (false, s1) /\ s' = restore s s1.
Proof. unfold opt; run p s; intros H; inv H; eauto. Qed.

Lemma notp_true p s s' :
  notp p s = (true, s') -> exists s1, p s = (false, s1) /\ s' = restore s s1.
Proof. unfold notp; run p s; intros H; inv H; eauto. Qed.

Lemma star_loop_true fuel p s : fst (star_loop fuel p s) = true.
Proof.
  revert s; induction fuel as [|fuel IH]; intros s; simpl; [done|].
  run p s; [apply IH | done].
Qed.

Lemma switch_cases buffer cases default s :
  switch buffer cases default s = default s \/
  exists c, c ∈ cases /\ switch buffer cases default s = snd c s.
Proof.
  unfold switch.
  destruct (find _ cases) as [c|] eqn:E; [right | by left].
  apply find_some in E as [Hin _]. exists c; split; [|done].
  by apply list_elem_of_In.
Qed.

End Inversion.

(** *** Monotonicity *)

Section Mono.
Variable buffer : list rune.

Lemma mono_add r b : mono (add r b).
Proof. intros s s' H; inv H; simpl; lia. Qed.

Lemma mono_addHere r : mono (addHere r).
Proof. intros s s' H; inv H; simpl; lia. Qed.

Lemma progressive_matchDot : progressive (matchDot buffer).
Proof.
  intros s s'; unfold matchDot.
  destruct (N.eqb _ _); intros H; inv H; simpl; lia.
Qed.

Lemma progressive_matchChar c : progressive (matchChar buffer c).
Proof.
  intros s s'; unfold matchChar.
  destruct (N.eqb _ _); intros H; inv H; simpl; lia.
Qed.

Lemma progressive_matchRange lo hi : progressive (matchRange buffer lo hi).
Proof.
  intros s s'; unfold matchRange; cbv zeta.
  destruct (_ || _); intros H; inv H; simpl; lia.
Qed.

Lemma progressive_mono p : progressive p -> mono p.
Proof. intros Hp s s' H; apply Hp in H; lia. Qed.

Lemma mono_seq p q : mono p -> mono q -> mono (seq p q).
Proof.
  intros Hp Hq s s' H; apply seq_true in H as (s1 & H1 & H2).
  apply Hp in H1; apply Hq in H2; lia.
Qed.

Lemma progressive_seq_l p q : progressive p -> mono q -> progressive (seq p q).
Proof.
  intros Hp Hq s s' H; apply seq_true in H as (s1 & H1 & H2).
  apply Hp in H1; apply Hq in H2; lia.
Qed.

Lemma progressive_seq_r p q : mono p -> progressive q -> progressive (seq p q).
Proof.
  intros Hp Hq s s' H; apply seq_true in H as (s1 & H1 & H2).
  apply Hp in H1; apply Hq in H2; lia.
Qed.

Lemma mono_alt p q : mono p -> mono q -> mono (alt p q).
Proof.
  intros Hp Hq s s' H; apply alt_true in H as [H | (s1 & _ & H)].
  - by apply Hp.
  - apply Hq in H; simpl in H; lia.
Qed.

Lemma progressive_alt p q :
  progressive p -> progressive q -> progressive (alt p q).
Proof.
  intros Hp Hq s s' H; apply alt_true in H as [H | (s1 & _ & H)].
  - by apply Hp.
  - apply Hq in H; simpl in H; lia.
Qed.

Lemma mono_rule p : mono p -> mono (rule p).
Proof. intros Hp s s' H; apply rule_true in H; by apply Hp. Qed.

Lemma progressive_rule p : progressive p -> progressive (rule p).
Proof. intros Hp s s' H; apply rule_true in H; by apply Hp. Qed.

Lemma mono_tok r p : mono p -> mono (tok r p).
Proof.
  intros Hp s s' H; apply tok_true in H as (s1 & H1 & ->).
  apply Hp in H1; simpl; lia.
Qed.

Lemma progressive_tok r p : progressive p -> progressive (tok r p).
Proof.
  intros Hp s s' H; apply tok_true in H as (s1 & H1 & ->).
  apply Hp in H1; simpl; lia.
Qed.

Lemma mono_opt p : mono p -> mono (opt p).
Proof.
  intros Hp s s' H; apply opt_true in H as [H | (s1 & _ & ->)].
  - by apply Hp.
  - simpl; lia.
Qed.

Lemma mono_notp p : mono (notp p).
Proof. intros s s' H; apply notp_true in H as (s1 & _ & ->); simpl; lia. Qed.

Lemma mono_star_loop p fuel : mono p -> mono (star_loop fuel p).
Proof.
  intros Hp; induction fuel as [|fuel IH]; intros s s'; simpl.
  - intros H; inv H; lia.
  - run p s; intros H.
    + apply Hp in E; apply IH in H; lia.
    + inv H; simpl; lia.
Qed.

Lemma mono_star p : mono p -> mono (star buffer p).
Proof. intros Hp s s' H; by apply mono_star_loop in H. Qed.

Lemma mono_switch cases default :
  Forall (fun c => mono (snd c)) cases -> mono default ->
  mono (switch buffer cases default).
Proof.
  intros Hc Hd s s' H.
  destruct (switch_cases buffer cases default s) as [E | (c & Hin & E)];
    rewrite E in H; [by apply Hd|].
  rewrite Forall_forall in Hc; by apply (Hc c Hin).
Qed.

Lemma progressive_switch cases default :
  Forall (fun c => progressive (snd c)) cases -> progressive default ->
  progressive (switch buffer cases default).
Proof.
  intros Hc Hd s s' H.
  destruct (switch_cases buffer cases default s) as [E | (c & Hin & E)];
    rewrite E in H; [by apply Hd|].
  rewrite Forall_forall in Hc; by apply (Hc c Hin).
Qed.

Lemma progressive_lit c l : progressive (lit buffer (c :: l)).
Proof.
  revert c; induction l as [|d l IH]; intros c.
  - apply progressive_matchChar.
  - change (lit buffer (c :: d :: l))
      with (seq (matchChar buffer c) (lit buffer (d :: l))).
    apply progressive_seq_l; [apply progressive_matchChar|].
    apply progressive_mono, IH.
Qed.

End Mono.

#[export] Hint Resolve mono_add mono_addHere progressive_matchDot
  progressive_matchChar progressive_matchRange mono_seq mono_alt
  progressive_alt mono_rule progressive_rule mono_tok progressive_tok
  mono_opt mono_notp mono_star mono_switch progressive_switch
  progressive_lit : peg.
#[export] Hint Resolve progressive_mono | 10 : peg.
#[export] Hint Constructors Forall : peg.

(** *** Bounds: the position and [max] stay inside the buffer *)

Lemma ch_lt a : (ch a < 256)%N.
Proof. unfold ch; apply N_ascii_bounded. Qed.

Lemma ch_not_end a : ch a <> endSymbol.
Proof. pose proof (ch_lt a); unfold endSymbol; lia. Qed.

Section Sound.
Variable buffer : list rune.

(** [n] is the index of an end symbol: of the closing one for a buffer
    built by [mkBuffer], or the length of any buffer (where [peek]
    answers [endSymbol] as well). *)
Variable n : nat.
Hypothesis n_end : nth n buffer endSymbol = endSymbol.

(** [max] is the zero token until a non-empty token is added, and a
    non-empty span inside the buffer from then on. *)
Definition Inv (s : pstate) : Prop :=
  position s <= n /\
  tok_end (max s) <= n /\
  (max s = Token32 ruleUnknown 0 0 \/ tok_begin (max s) < tok_end (max s)).

Definition sound (p : parser) : Prop :=
  forall s b s', p s = (b, s') -> Inv s -> Inv s'.

Lemma Inv_restore s s1 : Inv s -> Inv s1 -> Inv (restore s s1).
Proof. unfold Inv; simpl; intuition. Qed.

Lemma Inv_advance s : Inv s -> peek buffer s <> endSymbol -> Inv (advance s).
Proof.
  unfold Inv, peek; simpl; intros (Hp & Hm) Hne; split; [|done].
  destruct (decide (position s = n)) as [E|]; [|lia].
  rewrite E in Hne; contradiction.
Qed.

Lemma Inv_addToken r b s : b <= position s -> Inv s -> Inv (addToken r b s).
Proof.
  unfold Inv; simpl; intros Hb (Hp & Hm); split; [done|].
  destruct (negb (b =? position s)) eqn:E; simpl; [|done].
  destruct (tok_end (max s) <? position s); simpl; [|done].
  apply negb_true_iff, Nat.eqb_neq in E. split; [done | right; lia].
Qed.

Lemma sound_addHere r : sound (addHere r).
Proof. intros s b s' H Hs; inv H; by apply Inv_addToken. Qed.

Lemma sound_matchDot : sound (matchDot buffer).
Proof.
  intros s b s'; unfold matchDot.
  destruct (N.eqb_spec (peek buffer s) endSymbol); intros H Hs; inv H;
    [done | by apply Inv_advance].
Qed.

Lemma sound_matchChar c : sound (matchChar buffer c).
Proof.
  intros s b s'; unfold matchChar.
  destruct (N.eqb_spec (peek buffer s) (ch c)) as [E|]; intros H Hs; inv H;
    [|done].
  apply Inv_advance; [done|]. rewrite E; apply ch_not_end.
Qed.

Lemma sound_matchRange lo hi : sound (matchRange buffer lo hi).
Proof.
  intros s b s'; unfold matchRange; cbv zeta.
  destruct (_ || _) eqn:E; intros H Hs; inv H; [done|].
  apply Inv_advance; [done|].
  apply orb_false_iff in E as [_ E]; apply N.ltb_ge in E.
  pose proof (ch_lt hi); unfold endSymbol; lia.
Qed.

Lemma sound_seq p q : sound p -> sound q -> sound (seq p q).
Proof.
  intros Hp Hq s b s'; unfold seq; run p s; intros H Hs.
  - eapply Hq; [done|]. by eapply Hp.
  - inv H; by eapply Hp.
Qed.

Lemma sound_alt p q : sound p -> sound q -> sound (alt p q).
Proof.
  intros Hp Hq s b s'; unfold alt; run p s; intros H Hs.
  - inv H; by eapply Hp.
  - eapply Hq; [done|]. apply Inv_restore; [done | by eapply Hp].
Qed.

Lemma sound_rule p : sound p -> sound (rule p).
Proof.
  intros Hp s b s'; unfold rule; run p s; intros H Hs; inv H.
  - by eapply Hp.
  - apply Inv_restore; [done | by eapply Hp].
Qed.

Lemma sound_tok r p : mono p -> sound p -> sound (tok r p).
Proof.
  intros Hm Hp s b s'; unfold tok, seq, add; run p s; intros H Hs; inv H.
  - apply Inv_addToken; [by apply Hm | by eapply Hp].
  - by eapply Hp.
Qed.

Lemma sound_opt p : sound p -> sound (opt p).
Proof.
  intros Hp s b s'; unfold opt; run p s; intros H Hs; inv H.
  - by eapply Hp.
  - apply Inv_restore; [done | by eapply Hp].
Qed.

Lemma sound_notp p : sound p -> sound (notp p).
Proof.
  intros Hp s b s'; unfold notp; run p s; intros H Hs; inv H.
  - by eapply Hp.
  - apply Inv_restore; [done | by eapply Hp].
Qed.

Lemma sound_star_loop p fuel : sound p -> sound (star_loop fuel p).
Proof.
  intros Hp; induction fuel as [|fuel IH]; intros s b s'; simpl.
  - intros H Hs; by inv H.
  - run p s; intros H Hs.
    + eapply IH; [done|]. by eapply Hp.
    + inv H. apply Inv_restore; [done | by eapply Hp].
Qed.

Lemma sound_star p : sound p -> sound (star buffer p).
Proof. intros Hp s b s' H; by apply sound_star_loop in H. Qed.

Lemma sound_switch cases default :
  Forall (fun c => sound (snd c)) cases -> sound default ->
  sound (switch buffer cases default).
Proof.
  intros Hc Hd s b s' H.
  destruct (switch_cases buffer cases default s) as [E | (c & Hin & E)];
    rewrite E in H; [by eapply Hd|].
  rewrite Forall_forall in Hc; by eapply (Hc c Hin).
Qed.

Lemma sound_lit l : sound (lit buffer l).
Proof.
  induction l as [|c l IH]; [by intros s b s' H Hs; inv H|].
  destruct l as [|d l]; [apply sound_matchChar|].
  change (lit buffer (c :: d :: l))
    with (seq (matchChar buffer c) (lit buffer (d :: l))).
  apply sound_seq; [apply sound_matchChar | apply IH].
Qed.

(** The loop equation: with a body that consumes input, the iteration
    bound of [star] is never reached, and the loop ends exactly when
    its body fails. *)
Hypothesis n_len : n <= length buffer.

Lemma star_loop_fuel p f1 f2 s :
  progressive p -> sound p -> Inv s ->
  n - position s < f1 -> n - position s < f2 ->
  star_loop f1 p s = star_loop f2 p s.
Proof.
  intros Hprog Hp; revert f2 s.
  induction f1 as [|f1 IH]; intros f2 s Hs H1 H2; [lia|].
  destruct f2 as [|f2]; [lia|]. simpl.
  run p s; [|done].
  pose proof (Hprog _ _ E) as Hlt.
  pose proof (Hp _ _ _ E Hs) as Hs1.
  destruct Hs1 as (Hb & ?).
  apply IH; [done | lia | lia].
Qed.

Lemma star_unfold p s :
  progressive p -> sound p -> Inv s ->
  star buffer p s =
    (let '(b, s1) := p s in
     if b then star buffer p s1 else (true, restore s s1)).
Proof.
  intros Hprog Hp Hs. unfold star at 1. simpl.
  run p s; [|done].
  pose proof (Hprog _ _ E) as Hlt.
  pose proof (Hp _ _ _ E Hs) as Hs1.
  unfold star. destruct Hs as (Hle & _). pose proof Hs1 as (Hb & _).
  apply star_loop_fuel; [done | done | done | lia | lia].
Qed.

End Sound.

#[export] Hint Resolve sound_addHere sound_matchDot sound_matchChar
  sound_matchRange sound_seq sound_alt sound_rule sound_tok sound_opt
  sound_notp sound_star sound_switch sound_lit : peg.

(** *** Tokens are only appended *)

Section Emits.
Variable buffer : list rune.
Variable Q : list token32 -> Prop.
Context `{!AppClosed Q}.

(** Tokens of rule [r] may be appended on their own. *)
Definition single (r : pegRule) : Prop := forall b e, Q [Token32 r b e].

Lemma emits_same p :
  (forall s s', p s = (true, s') -> tokens s' = tokens s) -> emits Q p.
Proof.
  intros H s s' E; exists []; rewrite app_nil_r.
  split; [by apply H | apply closed_nil].
Qed.

Lemma emits_add r b : single r -> emits Q (add r b).
Proof. intros Hr s s' H; inv H; simpl; eauto. Qed.

Lemma emits_addHere r : single r -> emits Q (addHere r).
Proof. intros Hr s s' H; inv H; simpl; eauto. Qed.

Lemma emits_matchDot : emits Q (matchDot buffer).
Proof.
  apply emits_same; intros s s'; unfold matchDot.
  destruct (N.eqb _ _); intros H; by inv H.
Qed.

Lemma emits_matchChar c : emits Q (matchChar buffer c).
Proof.
  apply emits_same; intros s s'; unfold matchChar.
  destruct (N.eqb _ _); intros H; by inv H.
Qed.

Lemma emits_matchRange lo hi : emits Q (matchRange buffer lo hi).
Proof.
  apply emits_same; intros s s'; unfold matchRange; cbv zeta.
  destruct (_ || _); intros H; by inv H.
Qed.

Lemma emits_seq p q : emits Q p -> emits Q q -> emits Q (seq p q).
Proof.
  intros Hp Hq s s' H; apply seq_true in H as (s1 & H1 & H2).
  apply Hp in H1 as (l1 & E1 & Q1); apply Hq in H2 as (l2 & E2 & Q2).
  exists (l1 ++ l2); split; [|by apply closed_app].
  by rewrite E2, E1, app_assoc.
Qed.

Lemma emits_alt p q : emits Q p -> emits Q q -> emits Q (alt p q).
Proof.
  intros Hp Hq s s' H; apply alt_true in H as [H | (s1 & _ & H)].
  - by apply Hp.
  - by apply Hq in H.
Qed.

Lemma emits_rule p : emits Q p -> emits Q (rule p).
Proof. intros Hp s s' H; apply rule_true in H; by apply Hp. Qed.

Lemma emits_tok r p : single r -> emits Q p -> emits Q (tok r p).
Proof.
  intros Hr Hp s s' H; apply tok_true in H as (s1 & H1 & ->).
  apply Hp in H1 as (l & E & Ql).
  exists (l ++ [Token32 r (position s) (position s1)]); simpl.
  split; [by rewrite E, app_assoc | by apply closed_app].
Qed.

Lemma emits_opt p : emits Q p -> emits Q (opt p).
Proof.
  intros Hp s s' H; apply opt_true in H as [H | (s1 & _ & ->)].
  - by apply Hp.
  - exists []; simpl; rewrite app_nil_r; split; [done | apply closed_nil].
Qed.

Lemma emits_notp p : emits Q (notp p).
Proof.
  intros s s' H; apply notp_true in H as (s1 & _ & ->).
  exists []; simpl; rewrite app_nil_r; split; [done | apply closed_nil].
Qed.

Lemma emits_star_loop p fuel : emits Q p -> emits Q (star_loop fuel p).
Proof.
  intros Hp; induction fuel as [|fuel IH]; intros s s'; simpl.
  - intros H; inv H. exists []; rewrite app_nil_r; split;
      [done | apply closed_nil].
  - run p s; intros H.
    + apply Hp in E as (l1 & E1 & Q1); apply IH in H as (l2 & E2 & Q2).
      exists (l1 ++ l2); split; [|by apply closed_app].
      by rewrite E2, E1, app_assoc.
    + inv H. exists []; simpl; rewrite app_nil_r; split;
        [done | apply closed_nil].
Qed.

Lemma emits_star p : emits Q p -> emits Q (star buffer p).
Proof. intros Hp s s' H; by apply emits_star_loop in H. Qed.

Lemma emits_switch cases default :
  Forall (fun c => emits Q (snd c)) cases -> emits Q default ->
  emits Q (switch buffer cases default).
Proof.
  intros Hc Hd s s' H.
  destruct (switch_cases buffer cases default s) as [E | (c & Hin & E)];
    rewrite E in H; [by apply Hd|].
  rewrite Forall_forall in Hc; by apply (Hc c Hin).
Qed.

Lemma emits_lit l : emits Q (lit buffer l).
Proof.
  induction l as [|c l IH].
  - apply emits_same; intros s s' H; by inv H.
  - destruct l as [|d l]; [apply emits_matchChar|].
    change (lit buffer (c :: d :: l))
      with (seq (matchChar buffer c) (lit buffer (d :: l))).
    apply emits_seq; [apply emits_matchChar | apply IH].
Qed.

(** Regrouping a sequence, to treat [p ;> q] as one unit. *)
Lemma emits_seq_assoc p q r : emits Q (seq (seq p q) r) -> emits Q (seq p (seq q r)).
Proof.
  intros H s s' E; apply H; revert E; unfold seq.
  run p s; [|done]. by destruct (q s0) as [[] ?].
Qed.

End Emits.

#[export] Hint Resolve emits_addHere emits_matchDot emits_matchChar
  emits_matchRange emits_seq emits_alt emits_rule emits_tok emits_opt
  emits_notp emits_star emits_switch emits_lit : peg.

(** *** [max] does not steer the parser *)

Section Respects.
Variable buffer : list rune.

Lemma agree_refl s : agree s s.
Proof. by split. Qed.

Lemma agree_restore s t s1 t1 : agree s t -> agree (restore s s1) (restore t t1).
Proof. by intros [? ?]. Qed.

Lemma agree_peek s t : agree s t -> peek buffer s = peek buffer t.
Proof. intros [E _]; unfold peek; by rewrite E. Qed.

Lemma agree_advance s t : agree s t -> agree (advance s) (advance t).
Proof. intros [E1 E2]; split; simpl; congruence. Qed.

Lemma agree_addToken r b s t : agree s t -> agree (addToken r b s) (addToken r b t).
Proof. intros [E1 E2]; split; simpl; congruence. Qed.

Lemma respects_add r b : respects (add r b).
Proof. intros s t H; split; [done | by apply agree_addToken]. Qed.

Lemma respects_addHere r : respects (addHere r).
Proof.
  intros s t H; split; [done|]. unfold addHere, add; simpl.
  destruct H as [E ?]; rewrite E. apply agree_addToken; by split.
Qed.

Lemma respects_matchDot : respects (matchDot buffer).
Proof.
  intros s t H; unfold matchDot; rewrite (agree_peek s t H).
  destruct (N.eqb _ _); split; simpl; auto using agree_advance.
Qed.

Lemma respects_matchChar c : respects (matchChar buffer c).
Proof.
  intros s t H; unfold matchChar; rewrite (agree_peek s t H).
  destruct (N.eqb _ _); split; simpl; auto using agree_advance.
Qed.

Lemma respects_matchRange lo hi : respects (matchRange buffer lo hi).
Proof.
  intros s t H; unfold matchRange; cbv zeta; rewrite (agree_peek s t H).
  destruct (_ || _); split; simpl; auto using agree_advance.
Qed.

Lemma respects_seq p q : respects p -> respects q -> respects (seq p q).
Proof.
  intros Hp Hq s t H; unfold seq. destruct (Hp s t H) as [Hb Ha].
  destruct (p s) as [b s1], (p t) as [b' t1]; simpl in *; subst b'.
  destruct b; [by apply Hq | done].
Qed.

Lemma respects_alt p q : respects p -> respects q -> respects (alt p q).
Proof.
  intros Hp Hq s t H; unfold alt. destruct (Hp s t H) as [Hb Ha].
  destruct (p s) as [b s1], (p t) as [b' t1]; simpl in *; subst b'.
  destruct b; [done|]. by apply Hq, agree_restore.
Qed.

Lemma respects_rule p : respects p -> respects (rule p).
Proof.
  intros Hp s t H; unfold rule. destruct (Hp s t H) as [Hb Ha].
  destruct (p s) as [b s1], (p t) as [b' t1]; simpl in *; subst b'.
  destruct b; [done|]. split; [done | by apply agree_restore].
Qed.

Lemma respects_tok r p : respects p -> respects (tok r p).
Proof.
  intros Hp s t H; unfold tok. destruct H as [E ?]; rewrite E.
  apply respects_seq; [done | apply respects_add | by split].
Qed.

Lemma respects_opt p : respects p -> respects (opt p).
Proof.
  intros Hp s t H; unfold opt. destruct (Hp s t H) as [Hb Ha].
  destruct (p s) as [b s1], (p t) as [b' t1]; simpl in *; subst b'.
  destruct b; [done|]. split; [done | by apply agree_restore].
Qed.

Lemma respects_notp p : respects p -> respects (notp p).
Proof.
  intros Hp s t H; unfold notp. destruct (Hp s t H) as [Hb Ha].
  destruct (p s) as [b s1], (p t) as [b' t1]; simpl in *; subst b'.
  destruct b; [done|]. split; [done | by apply agree_restore].
Qed.

Lemma respects_star_loop p fuel : respects p -> respects (star_loop fuel p).
Proof.
  intros Hp; induction fuel as [|fuel IH]; intros s t H; simpl; [done|].
  destruct (Hp s t H) as [Hb Ha].
  destruct (p s) as [b s1], (p t) as [b' t1]; simpl in *; subst b'.
  destruct b; [by apply IH|]. split; [done | by apply agree_restore].
Qed.

Lemma respects_star p : respects p -> respects (star buffer p).
Proof.
  intros Hp s t H; unfold star. destruct H as [E ?]; rewrite E.
  apply respects_star_loop; [done | by split].
Qed.

Lemma respects_switch cases default :
  Forall (fun c => respects (snd c)) cases -> respects default ->
  respects (switch buffer cases default).
Proof.
  intros Hc Hd s t H; unfold switch; rewrite (agree_peek s t H).
  destruct (find _ cases) as [c|] eqn:E; [|by apply Hd].
  apply find_some in E as [Hin _]. apply list_elem_of_In in Hin.
  rewrite Forall_forall in Hc; by apply (Hc c Hin).
Qed.

Lemma respects_lit l : respects (lit buffer l).
Proof.
  induction l as [|c l IH]; [by intros s t H|].
  destruct l as [|d l]; [apply respects_matchChar|].
  change (lit buffer (c :: d :: l))
    with (seq (matchChar buffer c) (lit buffer (d :: l))).
  apply respects_seq; [apply respects_matchChar | apply IH].
Qed.

End Respects.

#[export] Hint Resolve respects_add respects_addHere respects_matchDot
  respects_matchChar respects_matchRange respects_seq respects_alt
  respects_rule respects_tok respects_opt respects_notp respects_star
  respects_switch respects_lit : peg.

End PegFacts.

(** ** Facts about the rules of the grammar *)

Module GrammarFacts.
Import Peg PegFacts.

#[export] Hint Unfold word : peg.

Section Good.
Variable buffer : list rune.
Variable n : nat.
Hypothesis n_end : nth n buffer endSymbol = endSymbol.

(** The three facts every rule of the grammar enjoys. *)
Record good (p : parser) : Prop := Good {
  good_mono : mono p;
  good_sound : sound n p;
  good_respects : respects p
}.

Local Hint Resolve good_mono good_sound good_respects : peg.

Lemma good_addHere r : good (addHere r).
Proof. split; eauto with peg. Qed.
Lemma good_matchDot : good (matchDot buffer).
Proof. split; eauto with peg. Qed.
Lemma good_matchChar c : good (matchChar buffer c).
Proof. split; eauto with peg. Qed.
Lemma good_matchRange lo hi : good (matchRange buffer lo hi).
Proof. split; eauto with peg. Qed.
Lemma good_seq p q : good p -> good q -> good (seq p q).
Proof. split; eauto with peg. Qed.
Lemma good_alt p q : good p -> good q -> good (alt p q).
Proof. split; eauto with peg. Qed.
Lemma good_rule p : good p -> good (rule p).
Proof. split; eauto with peg. Qed.
Lemma good_tok r p : good p -> good (tok r p).
Proof. split; eauto with peg. Qed.
Lemma good_opt p : good p -> good (opt p).
Proof. split; eauto with peg. Qed.
Lemma good_notp p : good p -> good (notp p).
Proof. split; eauto with peg. Qed.
Lemma good_star p : good p -> good (star buffer p).
Proof. split; eauto with peg. Qed.
Lemma good_lit c l : good (lit buffer (c :: l)).
Proof. split; eauto with peg. Qed.
Lemma good_word w c w' : w = String c w' -> good (word buffer w).
Proof. intros ->; apply good_lit. Qed.
Lemma good_switch cases default :
  Forall (fun c => good (snd c)) cases -> good default ->
  good (switch buffer cases default).
Proof.
  intros Hc Hd; split.
  - apply mono_switch; [|eauto with peg].
    eapply Forall_impl; [exact Hc | eauto with peg].
  - apply sound_switch; [|eauto with peg].
    eapply Forall_impl; [exact Hc | eauto with peg].
  - apply respects_switch; [|eauto with peg].
    eapply Forall_impl; [exact Hc | eauto with peg].
Qed.

Create HintDb good discriminated.
Local Hint Resolve good_addHere good_matchDot good_matchChar
  good_matchRange good_seq good_alt good_rule good_tok good_opt good_notp
  good_star good_switch : good.
Local Hint Extern 1 (good (word _ _)) => (eapply good_word; reflexivity) : good.
Local Hint Extern 1 (good (snd _)) => progress simpl : good.
Local Hint Constructors Forall : good.

Ltac goodness := auto 60 with good.

Lemma good_Whitespace : good (Whitespace buffer).
Proof. unfold Whitespace; goodness. Qed.
Lemma good_EndOfLine : good (EndOfLine buffer).
Proof. unfold EndOfLine; goodness. Qed.
Local Hint Resolve good_Whitespace good_EndOfLine : good.

Lemma good_Spacing : good (Spacing buffer).
Proof. unfold Spacing; goodness. Qed.
Lemma good_WhiteSpacing : good (WhiteSpacing buffer).
Proof. unfold WhiteSpacing; goodness. Qed.
Lemma good_MustWhiteSpacing : good (MustWhiteSpacing buffer).
Proof. unfold MustWhiteSpacing; goodness. Qed.
Local Hint Resolve good_Spacing good_WhiteSpacing good_MustWhiteSpacing : good.

Lemma good_Equal : good (Equal buffer).
Proof. unfold Equal; goodness. Qed.
Lemma good_identifierChar : good (identifierChar buffer).
Proof. unfold identifierChar; goodness. Qed.
Lemma good_stringValueChar : good (stringValueChar buffer).
Proof. unfold stringValueChar; goodness. Qed.
Local Hint Resolve good_identifierChar good_stringValueChar : good.
Lemma good_Identifier : good (Identifier buffer).
Proof. unfold Identifier; goodness. Qed.
Lemma good_StringValue : good (StringValue buffer).
Proof. unfold StringValue; goodness. Qed.
Lemma good_digits : good (digits buffer).
Proof. unfold digits; goodness. Qed.
Local Hint Resolve good_Equal good_Identifier good_StringValue good_digits : good.

Lemma good_csvItem : good (csvItem buffer).
Proof. unfold csvItem; goodness. Qed.
Lemma good_restOfLine : good (restOfLine buffer).
Proof. unfold restOfLine; goodness. Qed.
Local Hint Resolve good_csvItem good_restOfLine : good.

Lemma good_valueCidr : good (valueCidr buffer).
Proof. unfold valueCidr, CidrValue; goodness. Qed.
Lemma good_valueIp : good (valueIp buffer).
Proof. unfold valueIp, IpValue; goodness. Qed.
Lemma good_valueCSV : good (valueCSV buffer).
Proof. unfold valueCSV, CSVValue; goodness. Qed.
Lemma good_valueIntRange : good (valueIntRange buffer).
Proof. unfold valueIntRange, IntRangeValue; goodness. Qed.
Lemma good_valueInt : good (valueInt buffer).
Proof. unfold valueInt, IntValue; goodness. Qed.
Lemma good_valueSigil : good (valueSigil buffer).
Proof. unfold valueSigil, RefValue, AliasValue, HoleValue; goodness. Qed.
Local Hint Resolve good_valueCidr good_valueIp good_valueCSV
  good_valueIntRange good_valueInt good_valueSigil : good.

Lemma good_Value : good (Value buffer).
Proof. unfold Value; goodness. Qed.
Local Hint Resolve good_Value : good.

Lemma good_Param : good (Param buffer).
Proof. unfold Param; goodness. Qed.
Local Hint Resolve good_Param : good.
Lemma good_Params : good (Params buffer).
Proof. unfold Params; goodness. Qed.
Local Hint Resolve good_Params : good.

Lemma good_actionWord : good (actionWord buffer).
Proof. unfold actionWord; goodness. Qed.
Lemma good_entityWord : good (entityWord buffer).
Proof. unfold entityWord; goodness. Qed.
Local Hint Resolve good_actionWord good_entityWord : good.
Lemma good_Action : good (Action buffer).
Proof. unfold Action; goodness. Qed.
Lemma good_Entity : good (Entity buffer).
Proof. unfold Entity; goodness. Qed.
Local Hint Resolve good_Action good_Entity : good.

Lemma good_Expr : good (Expr buffer).
Proof. unfold Expr; goodness. Qed.
Local Hint Resolve good_Expr : good.

Lemma good_Declaration : good (Declaration buffer).
Proof. unfold Declaration; goodness. Qed.
Lemma good_Comment : good (Comment buffer).
Proof. unfold Comment; goodness. Qed.
Local Hint Resolve good_Declaration good_Comment : good.

Lemma good_Statement : good (Statement buffer).
Proof. unfold Statement; goodness. Qed.
Local Hint Resolve good_Statement : good.

Lemma good_Script : good (Script buffer).
Proof. unfold Script, EndOfFile; goodness. Qed.

(** *** Every loop body of the grammar consumes input *)

Ltac monotone := eapply good_mono; goodness.

Ltac consuming :=
  lazymatch goal with
  | |- progressive (rule _) => apply progressive_rule; consuming
  | |- progressive (tok _ _) => apply progressive_tok; consuming
  | |- progressive (alt _ _) => apply progressive_alt; consuming
  | |- progressive (seq _ _) =>
      first [ solve [apply progressive_seq_l; [consuming | monotone]]
            | solve [apply progressive_seq_r; [monotone | consuming]] ]
  | |- progressive (switch _ _ _) =>
      apply progressive_switch;
      [repeat (apply Forall_cons_2; [simpl; consuming|]); apply Forall_nil_2
      | consuming]
  | |- progressive (word _ _) => apply progressive_lit
  | |- _ =>
      first [ apply progressive_matchChar | apply progressive_matchDot
            | apply progressive_matchRange | assumption ]
  end.

Lemma progressive_Whitespace : progressive (Whitespace buffer).
Proof. unfold Whitespace; consuming. Qed.

Lemma progressive_EndOfLine : progressive (EndOfLine buffer).
Proof. unfold EndOfLine; consuming. Qed.

Lemma progressive_Space :
  progressive (tok ruleSpace (alt (Whitespace buffer) (EndOfLine buffer))).
Proof.
  pose proof progressive_Whitespace. pose proof progressive_EndOfLine.
  consuming.
Qed.

Lemma progressive_identifierChar : progressive (identifierChar buffer).
Proof. unfold identifierChar; consuming. Qed.

Lemma progressive_stringValueChar : progressive (stringValueChar buffer).
Proof. unfold stringValueChar; consuming. Qed.

Lemma progressive_Identifier : progressive (Identifier buffer).
Proof.
  pose proof progressive_identifierChar. unfold Identifier; consuming.
Qed.

Lemma progressive_StringValue : progressive (StringValue buffer).
Proof.
  pose proof progressive_stringValueChar. unfold StringValue; consuming.
Qed.

Lemma progressive_csvItem : progressive (csvItem buffer).
Proof. pose proof progressive_StringValue. unfold csvItem; consuming. Qed.

Lemma progressive_Param : progressive (Param buffer).
Proof. pose proof progressive_Identifier. unfold Param; consuming. Qed.

Lemma progressive_restOfLine_body :
  progressive (seq (notp (EndOfLine buffer)) (matchDot buffer)).
Proof. consuming. Qed.

Lemma progressive_Expr : progressive (Expr buffer).
Proof. unfold Expr, Action, actionWord; consuming. Qed.

Lemma progressive_Statement : progressive (Statement buffer).
Proof.
  pose proof progressive_Expr. pose proof progressive_Identifier.
  unfold Statement, Declaration, Comment; consuming.
Qed.

(** The bodies of all the loops of the grammar. *)
Definition loopBodies : list parser :=
  [tok ruleSpace (alt (Whitespace buffer) (EndOfLine buffer));
   Whitespace buffer; identifierChar buffer; stringValueChar buffer;
   matchRange buffer "0" "9"; csvItem buffer; Param buffer;
   seq (notp (EndOfLine buffer)) (matchDot buffer); EndOfLine buffer;
   Statement buffer].

Lemma loopBodies_progressive : Forall progressive loopBodies.
Proof.
  unfold loopBodies.
  repeat (apply Forall_cons_2 || apply Forall_nil_2);
    auto using progressive_Space, progressive_Whitespace,
      progressive_identifierChar, progressive_stringValueChar,
      progressive_matchRange, progressive_csvItem, progressive_Param,
      progressive_restOfLine_body, progressive_EndOfLine,
      progressive_Statement.
Qed.

Lemma loopBodies_good : Forall good loopBodies.
Proof.
  unfold loopBodies.
  repeat (apply Forall_cons_2 || apply Forall_nil_2); goodness.
Qed.

End Good.
(** *** The literals of [Action] and [Entity] *)

Definition actionWords : list string :=
  ["create"; "delete"; "start"; "detach"; "check"; "attach"; "update";
   "stop"; "none"]%string.

Definition entityWords : list string :=
  ["vpc"; "subnet"; "instance"; "tag"; "role"; "securitygroup";
   "routetable"; "storageobject"; "loadbalancer"; "listener"; "queue";
   "topic"; "subscription"; "bucket"; "route"; "internetgateway";
   "keypair"; "policy"; "group"; "user"; "volume"; "none"]%string.

Section Picks.
Variable buffer : list rune.

(** [p] matches exactly one of the words [ws] and adds no token. *)
Definition picks (ws : list string) (p : parser) : Prop :=
  forall s s', p s = (true, s') ->
    tokens s' = tokens s /\
    exists w, In w ws /\
      slice buffer (position s) (position s') = runes w.

Lemma peek_lookup s c :
  peek buffer s = c -> c <> endSymbol -> buffer !! position s = Some c.
Proof.
  unfold peek; rewrite nth_lookup.
  destruct (buffer !! position s); simpl; congruence.
Qed.

Lemma matchChar_true c s s' :
  matchChar buffer c s = (true, s') ->
  s' = advance s /\ buffer !! position s = Some (ch c).
Proof.
  unfold matchChar.
  destruct (N.eqb_spec (peek buffer s) (ch c)) as [E|]; intros H; inv H.
  split; [done|]. apply peek_lookup; [done | apply ch_not_end].
Qed.

Lemma slice_len b k : slice buffer b (b + k) = take k (drop b buffer).
Proof. unfold slice; f_equal; lia. Qed.

Lemma lit_true l s s' :
  lit buffer l s = (true, s') ->
  tokens s' = tokens s /\ position s' = position s + length l /\
  take (length l) (drop (position s) buffer) = map ch l.
Proof.
  revert s; induction l as [|c l IH]; intros s.
  - intros H; inv H. by rewrite Nat.add_0_r.
  - destruct l as [|d l].
    + intros H; apply matchChar_true in H as [-> H]; simpl.
      split; [done|]. split; [lia|].
      by rewrite (drop_S _ _ _ H).
    + change (lit buffer (c :: d :: l))
        with (seq (matchChar buffer c) (lit buffer (d :: l))).
      intros H; apply seq_true in H as (s1 & H1 & H2).
      apply matchChar_true in H1 as [-> H1].
      apply IH in H2 as (Ht & Hp & Hs); simpl in Ht, Hp, Hs.
      split; [done|]. split; [simpl; lia|].
      rewrite (drop_S _ _ _ H1).
      simpl; by rewrite Hs.
Qed.

Lemma picks_word ws w : In w ws -> picks ws (word buffer w).
Proof.
  intros Hin s s' H; apply lit_true in H as (Ht & Hp & Hs).
  split; [done|]. exists w; split; [done|].
  by rewrite Hp, slice_len.
Qed.

Lemma picks_alt ws p q : picks ws p -> picks ws q -> picks ws (alt p q).
Proof.
  intros Hp Hq s s' H; apply alt_true in H as [H | (s1 & _ & H)].
  - by apply Hp.
  - by apply Hq in H.
Qed.

Lemma picks_switch ws cases default :
  Forall (fun c => picks ws (snd c)) cases -> picks ws default ->
  picks ws (switch buffer cases default).
Proof.
  intros Hc Hd s s' H.
  destruct (switch_cases buffer cases default s) as [E | (c & Hin & E)];
    rewrite E in H; [by apply Hd|].
  rewrite Forall_forall in Hc; by apply (Hc c Hin).
Qed.

Ltac picking :=
  repeat first
    [ apply picks_alt
    | apply picks_switch
    | apply Forall_cons_2
    | apply Forall_nil_2
    | apply picks_word; unfold actionWords, entityWords; simpl; tauto
    | progress simpl ].

Lemma picks_Action : picks actionWords (actionWord buffer).
Proof. unfold actionWord; picking. Qed.

Lemma picks_Entity : picks entityWords (entityWord buffer).
Proof. unfold entityWord; picking. Qed.

End Picks.

(** *** Only listed actions and entities reach the builder *)

Section Clean.
Variable buffer : list rune.

Definition okCall (c : call) : Prop :=
  match c with
  | addAction text => In text (map runes actionWords)
  | addEntity text => In text (map runes entityWords)
  | _ => True
  end.

(** Running [Execute] over the tokens [l], from any text register, only
    adds acceptable calls. *)
Definition clean (l : list token32) : Prop :=
  forall text calls, Forall okCall calls ->
    Forall okCall (snd (fold_left (executeStep buffer) l (text, calls))).

Lemma AppClosed_clean : AppClosed clean.
Proof.
  split; [by intros text calls H|].
  intros l1 l2 H1 H2 text calls H. rewrite fold_left_app.
  specialize (H1 text calls H).
  destruct (fold_left (executeStep buffer) l1 (text, calls)) as [text1 calls1].
  by apply H2.
Qed.

Lemma single_clean r :
  r <> ruleAction1 -> r <> ruleAction2 -> single clean r.
Proof.
  intros H1 H2 b e text calls H.
  destruct r; try done; simpl; try done;
    apply Forall_app; split; try done; by repeat constructor.
Qed.

(** [<Action> Action1] and [<Entity> Action2] as units: the text handed
    to the builder is the word just matched. *)
Lemma clean_Action_block :
  emits clean (seq (tok rulePegText (Action buffer)) (addHere ruleAction1)).
Proof.
  intros s s' H. apply seq_true in H as (s2 & H & Ha); inv Ha.
  apply tok_true in H as (s1 & H & ->).
  unfold Action in H. apply tok_true in H as (s0 & H & ->).
  apply picks_Action in H as (Ht & w & Hw & Hs).
  eexists; split; [simpl; rewrite Ht, <- !app_assoc; reflexivity|].
  intros text calls Hc; simpl.
  apply Forall_app; split; [done|].
  apply Forall_cons_2; [|apply Forall_nil_2].
  unfold okCall; rewrite Hs. by apply in_map.
Qed.

Lemma clean_Entity_block :
  emits clean (seq (tok rulePegText (Entity buffer)) (addHere ruleAction2)).
Proof.
  intros s s' H. apply seq_true in H as (s2 & H & Ha); inv Ha.
  apply tok_true in H as (s1 & H & ->).
  unfold Entity in H. apply tok_true in H as (s0 & H & ->).
  apply picks_Entity in H as (Ht & w & Hw & Hs).
  eexists; split; [simpl; rewrite Ht, <- !app_assoc; reflexivity|].
  intros text calls Hc; simpl.
  apply Forall_app; split; [done|].
  apply Forall_cons_2; [|apply Forall_nil_2].
  unfold okCall; rewrite Hs. by apply in_map.
Qed.

#[export] Existing Instance AppClosed_clean.
Local Hint Resolve AppClosed_clean : peg.
Local Hint Extern 1 (single clean _) =>
  (apply single_clean; discriminate) : peg.
Local Hint Extern 1 (emits _ (snd _)) => progress simpl : peg.
Local Hint Extern 1 (emits _ (word _ _)) => unfold word : peg.

Ltac cleaning := auto 80 with peg.

Lemma clean_Spacing : emits clean (Spacing buffer).
Proof. unfold Spacing, Whitespace, EndOfLine; cleaning. Qed.
Lemma clean_WhiteSpacing : emits clean (WhiteSpacing buffer).
Proof. unfold WhiteSpacing, Whitespace; cleaning. Qed.
Lemma clean_MustWhiteSpacing : emits clean (MustWhiteSpacing buffer).
Proof. unfold MustWhiteSpacing, Whitespace; cleaning. Qed.
Lemma clean_EndOfLine : emits clean (EndOfLine buffer).
Proof. unfold EndOfLine; cleaning. Qed.
Local Hint Resolve clean_Spacing clean_WhiteSpacing clean_MustWhiteSpacing
  clean_EndOfLine : peg.

Lemma clean_Equal : emits clean (Equal buffer).
Proof. unfold Equal; cleaning. Qed.
Lemma clean_Identifier : emits clean (Identifier buffer).
Proof. unfold Identifier, identifierChar; cleaning. Qed.
Lemma clean_StringValue : emits clean (StringValue buffer).
Proof. unfold StringValue, stringValueChar; cleaning. Qed.
Lemma clean_digits : emits clean (digits buffer).
Proof. unfold digits; cleaning. Qed.
Local Hint Resolve clean_Equal clean_Identifier clean_StringValue
  clean_digits : peg.

Lemma clean_Value : emits clean (Value buffer).
Proof.
  unfold Value, valueCidr, valueIp, valueCSV, valueIntRange, valueInt,
    valueSigil, CidrValue, IpValue, CSVValue, csvItem, IntRangeValue,
    IntValue, RefValue, AliasValue, HoleValue.
  cleaning.
Qed.
Local Hint Resolve clean_Value : peg.

Lemma clean_Params : emits clean (Params buffer).
Proof. unfold Params, Param; cleaning. Qed.
Local Hint Resolve clean_Params : peg.

Lemma clean_Expr : emits clean (Expr buffer).
Proof.
  unfold Expr. apply emits_rule, emits_tok; [apply _ | cleaning |].
  apply emits_seq_assoc, emits_seq; [apply _ | apply clean_Action_block |].
  apply emits_seq; [apply _ | cleaning |].
  apply emits_seq_assoc, emits_seq; [apply _ | apply clean_Entity_block |].
  cleaning.
Qed.
Local Hint Resolve clean_Expr : peg.

Lemma clean_Statement : emits clean (Statement buffer).
Proof. unfold Statement, Declaration, Comment, restOfLine; cleaning. Qed.
Local Hint Resolve clean_Statement : peg.

Lemma clean_Script : emits clean (Script buffer).
Proof. unfold Script, EndOfFile; cleaning. Qed.

End Clean.

End GrammarFacts.

(** ** Line and symbol of a buffer position *)

Module Positions.

Definition newline : rune := ch "010".

(** The line of the last of the runes [pre]: one more than the newlines
    among them (a newline already belongs to the line it opens). *)
Definition lineOf (pre : list rune) : nat :=
  S (length (filter (fun c => c = newline) pre)).

(** How many runes follow the last newline, read from the reversed run. *)
Fixpoint sinceNewline (rpre : list rune) : nat :=
  match rpre with
  | [] => 0
  | c :: r => if N.eqb c newline then 0 else S (sinceNewline r)
  end.

Definition symbolOf (pre : list rune) : nat := sinceNewline (reverse pre).

(** Line and symbol of the rune at index [k] of the buffer. *)
Definition positionOf (buffer : list rune) (k : nat) : textPosition :=
  TextPosition (lineOf (take (S k) buffer)) (symbolOf (take (S k) buffer)).

Lemma lineOf_snoc pre c :
  lineOf (pre ++ [c]) = if N.eqb c newline then lineOf pre + 1 else lineOf pre.
Proof.
  unfold lineOf; rewrite filter_app, length_app.
  destruct (N.eqb_spec c newline) as [->|Hne].
  - rewrite filter_cons_True by done. simpl; lia.
  - rewrite filter_cons_False by done. simpl; lia.
Qed.

Lemma symbolOf_snoc pre c :
  symbolOf (pre ++ [c]) = if N.eqb c newline then 0 else symbolOf pre + 1.
Proof.
  unfold symbolOf; rewrite reverse_app; simpl.
  destruct (N.eqb c newline); lia.
Qed.

Lemma positionOf_here pre c rest :
  positionOf (pre ++ c :: rest) (length pre)
  = TextPosition (lineOf (pre ++ [c])) (symbolOf (pre ++ [c])).
Proof.
  unfold positionOf.
  replace (take (S (length pre)) (pre ++ c :: rest)) with (pre ++ [c]); [done|].
  rewrite (take_app_ge pre) by lia.
  replace (S (length pre) - length pre) with 1 by lia. done.
Qed.

Lemma scan_step pre c :
  (if N.eqb c (ch "010")
   then (lineOf pre + 1, 0) else (lineOf pre, symbolOf pre + 1))
  = (lineOf (pre ++ [c]), symbolOf (pre ++ [c])).
Proof.
  fold newline. rewrite lineOf_snoc, symbolOf_snoc.
  by destruct (N.eqb c newline).
Qed.

Lemma searchLoop_cons c rest i positions ln sy m :
  searchLoop (c :: rest) i positions ln sy m
  = (let '(ln', sy') :=
       if N.eqb c (ch "010") then (ln + 1, 0) else (ln, sy + 1) in
     match positions with
     | [] => None
     | pj :: later =>
         if i =? pj then
           match skipEqual i later with
           | [] => Some (<[pj := TextPosition ln' sy']> m)
           | remaining =>
               searchLoop rest (S i) remaining ln' sy'
                 (<[pj := TextPosition ln' sy']> m)
           end
         else searchLoop rest (S i) positions ln' sy' m
     end).
Proof. reflexivity. Qed.

Lemma search_one rest : forall pre e m,
  length pre <= e -> e < length pre + length rest ->
  searchLoop rest (length pre) [e] (lineOf pre) (symbolOf pre) m
  = Some (<[e := positionOf (pre ++ rest) e]> m).
Proof.
  induction rest as [|c rest IH]; intros pre e m Hle Hlt;
    [simpl in Hlt; lia|].
  rewrite searchLoop_cons, scan_step; cbv beta iota zeta.
  assert (Hlen : S (length pre) = length (pre ++ [c]))
    by (rewrite length_app; simpl; lia).
  simpl in Hlt.
  destruct (Nat.eqb_spec (length pre) e) as [<-|Hne].
  - cbn [skipEqual]. by rewrite positionOf_here.
  - rewrite Hlen, IH by (rewrite length_app; simpl; lia).
    by rewrite <- app_assoc.
Qed.

Lemma search_two rest pre b e m :
  length pre <= b -> b <= e -> e < length pre + length rest ->
  exists m',
    searchLoop rest (length pre) [b; e] (lineOf pre) (symbolOf pre) m = Some m'
    /\ m' !! b = Some (positionOf (pre ++ rest) b)
    /\ m' !! e = Some (positionOf (pre ++ rest) e).
Proof.
  revert pre m; induction rest as [|c rest IH]; intros pre m Hle Hbe Hlt;
    [simpl in Hlt; lia|].
  rewrite searchLoop_cons, scan_step; cbv beta iota zeta.
  assert (Hlen : S (length pre) = length (pre ++ [c]))
    by (rewrite length_app; simpl; lia).
  simpl in Hlt.
  destruct (Nat.eqb_spec (length pre) b) as [<-|Hne].
  - cbn [skipEqual].
    destruct (Nat.eqb_spec (length pre) e) as [<-|Hne'].
    + eexists; split; [reflexivity|].
      rewrite positionOf_here, lookup_insert_eq. done.
    + rewrite Hlen, search_one by (rewrite length_app; simpl; lia).
      eexists; split; [reflexivity|].
      rewrite <- app_assoc; simpl.
      rewrite lookup_insert_ne by done.
      rewrite !lookup_insert_eq. by rewrite positionOf_here.
  - rewrite Hlen.
    destruct (IH (pre ++ [c]) m) as (m' & H1 & H2 & H3);
      [rewrite length_app; simpl; lia | done
      | rewrite length_app; simpl; lia |].
    rewrite <- app_assoc in H2, H3. eauto.
Qed.

Lemma sort_two b e : b <= e -> merge_sort Nat.le [b; e] = [b; e].
Proof.
  intros H; unfold merge_sort; simpl; unfold merge_stack; simpl.
  by rewrite decide_True.
Qed.

(** [translatePositions] on the two ends of a token inside the buffer. *)
Lemma translatePositions_token buffer b e :
  b <= e -> e < length buffer ->
  exists m,
    translatePositions buffer [b; e] = Some m
    /\ lookupPosition m b = positionOf buffer b
    /\ lookupPosition m e = positionOf buffer e.
Proof.
  intros Hbe Hlt. unfold translatePositions; rewrite sort_two by done.
  destruct (search_two buffer [] b e ∅) as (m & H1 & H2 & H3);
    simpl; [lia | done | done |].
  exists m; split; [exact H1|].
  unfold lookupPosition; by rewrite H2, H3.
Qed.

End Positions.

(** * Theorems *)

Import Peg PegFacts GrammarFacts Positions.

(** A rune that [[]rune(string)] can produce: at most [unicode.MaxRune]. *)
Definition validRune (c : rune) : Prop := (c <= 1114111)%N.

Lemma mkBuffer_valid input :
  Forall validRune input -> mkBuffer input = input ++ [endSymbol].
Proof.
  intros H; unfold mkBuffer. destruct (last input) as [c|] eqn:E; [|done].
  apply last_Some in E as [l ->].
  apply Forall_app in H as [_ H]. apply Forall_cons in H as [H _].
  destruct (N.eqb_spec c endSymbol) as [->|]; [|done].
  unfold validRune, endSymbol in H; lia.
Qed.

Lemma runes_valid s : Forall validRune (runes s).
Proof.
  unfold runes; apply Forall_forall; intros c Hc.
  apply list_elem_of_In, in_map_iff in Hc as (a & <- & _).
  pose proof (ch_lt a); unfold ch in *; unfold validRune; lia.
Qed.

Lemma end_index input : nth (length input) (input ++ [endSymbol]) endSymbol = endSymbol.
Proof. by rewrite nth_middle. Qed.

Lemma Inv_initState n : Inv n initState.
Proof. unfold Inv; simpl; split; [lia|]. split; [lia | by left]. Qed.

(** At a position inside a valid input the buffer holds no end symbol. *)
Lemma peek_end_position input s :
  Forall validRune input -> position s <= length input ->
  peek (input ++ [endSymbol]) s = endSymbol -> position s = length input.
Proof.
  intros Hv Hle Hp. destruct (decide (position s = length input)); [done|].
  exfalso. unfold peek in Hp. rewrite app_nth1 in Hp by lia.
  assert (Hin : In (nth (position s) input endSymbol) input)
    by (apply nth_In; lia).
  rewrite Forall_forall in Hv. apply list_elem_of_In, Hv in Hin.
  rewrite Hp in Hin. unfold validRune, endSymbol in Hin; lia.
Qed.

Lemma EndOfFile_true buffer s s' :
EndOfFile buffer s = (true, s') ->
peek buffer s = endSymbol /\
tokens s' = tokens s ++ [Token32 ruleEndOfFile (position s) (position s)] /\
position s' = position s.
Proof.
  unfold EndOfFile; intros H. apply tok_true in H as (s1 & H & ->).
  apply notp_true in H as (s2 & H & ->). simpl. split; [|done].
  unfold matchDot in H. by destruct (N.eqb_spec (peek buffer s) endSymbol).
Qed.

(** ** The loops run until their body fails *)

(** The loop equation for every loop of the grammar: the iteration bound
    of the model plays no part. *)
Lemma loops_exact buffer p s :
  In p (loopBodies buffer) ->
  Inv (length buffer) s ->
  star buffer p s =
    (let '(b, s1) := p s in
     if b then star buffer p s1 else (true, restore s s1)).
Proof.
  intros Hin Hs.
  assert (Hn : nth (length buffer) buffer endSymbol = endSymbol)
    by (by apply nth_overflow).
  apply (star_unfold buffer (length buffer) Hn (le_n _)); [| |done].
  - pose proof (loopBodies_progressive buffer (length buffer) Hn) as H.
    rewrite Forall_forall in H. by apply H, list_elem_of_In.
  - pose proof (loopBodies_good buffer (length buffer) Hn) as H.
    rewrite Forall_forall in H. by apply good_sound, H, list_elem_of_In.
Qed.

(** ** The shape of an expression *)

Definition isWhitespace (c : rune) : Prop := c = ch " " \/ c = ch "009".

Lemma Whitespace_true buffer s s' :
  Whitespace buffer s = (true, s') ->
  exists c, isWhitespace c /\
            drop (position s) buffer = c :: drop (position s') buffer.
Proof.
  unfold Whitespace; intros H.
  apply rule_true, tok_true in H as (s1 & H & ->); simpl.
  apply alt_true in H as [H | (s2 & _ & H)];
    apply matchChar_true in H as [-> H]; simpl in *;
    eexists; (split; [|by apply drop_S]); [by left | by right].
Qed.

Lemma star_Whitespace buffer fuel : forall s s',
  star_loop fuel (Whitespace buffer) s = (true, s') ->
  exists ws, Forall isWhitespace ws /\
             drop (position s) buffer = ws ++ drop (position s') buffer.
Proof.
  induction fuel as [|fuel IH]; intros s s'; simpl.
  - intros H; inv H. by exists [].
  - destruct (Whitespace buffer s) as [[] s1] eqn:E; intros H.
    + apply Whitespace_true in E as (c & Hc & E).
      apply IH in H as (ws & Hws & H).
      exists (c :: ws); split; [by constructor|]. by rewrite E, H.
    + inv H. by exists [].
Qed.

Lemma MustWhiteSpacing_true buffer s s' :
  MustWhiteSpacing buffer s = (true, s') ->
  exists ws, ws <> [] /\ Forall isWhitespace ws /\
             drop (position s) buffer = ws ++ drop (position s') buffer.
Proof.
  unfold MustWhiteSpacing; intros H.
  apply rule_true, tok_true in H as (s1 & H & ->); simpl.
  apply seq_true in H as (s2 & H1 & H2).
  apply Whitespace_true in H1 as (c & Hc & E).
  apply star_Whitespace in H2 as (ws & Hws & H).
  exists (c :: ws); split; [done|]. split; [by constructor|].
  by rewrite E, H.
Qed.

Lemma picks_prefix buffer ws p s s' :
  picks buffer ws p -> mono p -> p s = (true, s') ->
  exists w, In w ws /\
            drop (position s) buffer = runes w ++ drop (position s') buffer.
Proof.
  intros Hp Hm H. pose proof (Hm _ _ H) as Hle.
  apply Hp in H as (_ & w & Hw & Hs). exists w; split; [done|].
  rewrite <- Hs; unfold slice.
  rewrite <- (take_drop (position s' - position s)
                (drop (position s) buffer)) at 1.
  rewrite drop_drop. do 2 f_equal. lia.
Qed.

(** Every expression the parser matches reads: a listed action, at
    least one blank or tab, a listed entity, and then the rest. *)
Lemma Expr_shape buffer s s' :
  Expr buffer s = (true, s') ->
  exists a ws e rest,
    In a actionWords /\ In e entityWords /\
    ws <> [] /\ Forall isWhitespace ws /\
    drop (position s) buffer = runes a ++ ws ++ runes e ++ rest.
Proof.
  assert (Hn : nth (length buffer) buffer endSymbol = endSymbol)
    by (by apply nth_overflow).
  unfold Expr; intros H.
  apply rule_true, tok_true in H as (s5 & H & _).
  apply seq_true in H as (s1 & H1 & H).
  apply seq_true in H as (s2 & H2 & H).
  apply seq_true in H as (s3 & H3 & H).
  apply seq_true in H as (s4 & H4 & _).
  apply tok_true in H1 as (t1 & H1 & ->).
  unfold Action in H1. apply tok_true in H1 as (t2 & H1 & ->).
  inv H2.
  apply tok_true in H4 as (t3 & H4 & ->).
  unfold Entity in H4. apply tok_true in H4 as (t4 & H4 & ->).
  eapply picks_prefix in H1 as (a & Ha & E1);
    [|apply picks_Action | exact (good_mono _ _ (good_actionWord buffer _ Hn))].
  eapply picks_prefix in H4 as (e & He & E4);
    [|apply picks_Entity | exact (good_mono _ _ (good_entityWord buffer _ Hn))].
  apply MustWhiteSpacing_true in H3 as (ws & Hne & Hws & E3).
  simpl in *. exists a, ws, e, (drop (position t4) buffer).
  do 4 (split; [done|]). by rewrite E1, E3, E4.
Qed.



(** C9. Whole-input parsing: [Parse] accepts only when leading spacing,
    one statement and then zero or more further statements consume the
    input up to its very end; the token tree then closes with the
    end-of-file token at the length of the input and the script token
    over all of it.  When the statements stop before the end of the
    input, [Parse] returns an error and no tokens.  The empty input is a
    parse error, and so is a text whose trailing part forms no statement,
    although its leading part alone parses. *)
Theorem Parse_whole_input :
  (forall (input : list rune) (toks : list token32),
     Forall validRune input ->
     Parse input = inl toks ->
     exists s1 s2 s3,
       Spacing (mkBuffer input) initState = (true, s1) /\
       Statement (mkBuffer input) s1 = (true, s2) /\
       star (mkBuffer input) (Statement (mkBuffer input)) s2 = (true, s3) /\
       position s3 = length input /\
       toks = tokens s3 ++
              [Token32 ruleEndOfFile (length input) (length input);
               Token32 ruleScript 0 (length input)] /\
       In (Token32 ruleStatement (position s1) (position s2)) toks)
  /\ (forall (input : list rune) s1 s2 s3,
        Forall validRune input ->
        Spacing (mkBuffer input) initState = (true, s1) ->
        Statement (mkBuffer input) s1 = (true, s2) ->
        star (mkBuffer input) (Statement (mkBuffer input)) s2 = (true, s3) ->
        position s3 <> length input ->
        exists e, Parse input = inr e)
  /\ Parse [] = inr (ParseError [endSymbol] (Token32 ruleUnknown 0 0))
  /\ parseCalls "create vpc" <> None
  /\ parseCalls "create vpc foo" = None
  /\ parseCalls "create vpc
delete" = None.
Proof.
  split; [|split; [|by vm_compute]].
  - intros input toks Hv; unfold Parse; rewrite (mkBuffer_valid _ Hv).
    set (buffer := input ++ [endSymbol]).
    destruct (Script buffer initState) as [[] s] eqn:E; [|done].
    intros H; inv H.
    unfold Script in E. apply rule_true, tok_true in E as (s4 & E & ->).
    apply seq_true in E as (s1 & E1 & E).
    apply seq_true in E as (s2 & E2 & E).
    apply seq_true in E as (s3 & E3 & E4).
    exists s1, s2, s3. do 3 (split; [done|]).
    (* the position stays inside the input *)
    pose proof (end_index input) as Hn.
    assert (I1 : Inv (length input) s1).
    { eapply (good_sound _ _ (good_Spacing buffer _ Hn)); [done|].
      apply Inv_initState. }
    assert (I2 : Inv (length input) s2)
      by (by eapply (good_sound _ _ (good_Statement buffer _ Hn))).
    assert (G3 : good (length input) (star buffer (Statement buffer)))
      by (eapply good_star; eauto using good_Statement).
    assert (I3 : Inv (length input) s3) by (by eapply (good_sound _ _ G3)).
    apply EndOfFile_true in E4 as (Hp & Ht & Hpos).
    apply peek_end_position in Hp; [|done | by destruct I3].
    split; [done|]. simpl. rewrite Ht, Hpos, Hp, <- app_assoc. split; [done|].
    (* the first statement's token is still there *)
    unfold Statement in E2. apply tok_true in E2 as (s2' & _ & ->).
    pose proof (emits_star buffer (clean buffer) _
                  (clean_Statement buffer) _ _ E3) as (l & El & _).
    rewrite El; simpl. rewrite !in_app_iff; simpl. tauto.
  - intros input s1 s2 s3 Hv; unfold Parse; rewrite (mkBuffer_valid _ Hv).
    intros E1 E2 E3 Hpos.
    set (buffer := input ++ [endSymbol]) in *.
    assert (EP : seq (Spacing buffer)
                   (seq (Statement buffer)
                      (seq (star buffer (Statement buffer)) (EndOfFile buffer)))
                   initState
                 = EndOfFile buffer s3).
    { by rewrite (seq_step _ _ _ _ E1), (seq_step _ _ _ _ E2),
                 (seq_step _ _ _ _ E3). }
    unfold Script, rule, tok. unfold seq at 1. rewrite EP.
    unfold EndOfFile, tok, seq, notp, matchDot.
    destruct (N.eqb_spec (peek buffer s3) endSymbol) as [Hp|]; [|eauto].
    pose proof (end_index input) as Hn.
    assert (I3 : Inv (length input) s3).
    { assert (G3 : good (length input) (star buffer (Statement buffer)))
        by (eapply good_star; eauto using good_Statement).
      eapply (good_sound _ _ G3); [done|].
      eapply (good_sound _ _ (good_Statement _ _ Hn)); [done|].
      eapply (good_sound _ _ (good_Spacing _ _ Hn)); [done|].
      apply Inv_initState. }
    apply peek_end_position in Hp; [done | done | by destruct I3].
Qed.

Lemma Parse_whole_input_witness :
  exists s3 : pstate, position s3 = length (runes "create vpc").
Proof.
  edestruct (proj1 Parse_whole_input (runes "create vpc"))
    as (s1 & s2 & s3 & _ & _ & _ & H & _).
  - apply runes_valid.
  - by vm_compute.
  - exists s3; exact H.
Defined.

(** The rules of the grammar proper (rules 0 to 27 of the generated
    table); [ruleUnknown], [rulePegText] and the action rules are
    bookkeeping of the generator. *)
Definition grammarRules : list pegRule :=
  [ruleScript; ruleStatement; ruleAction; ruleEntity; ruleDeclaration;
   ruleExpr; ruleParams; ruleParam; ruleIdentifier; ruleValue;
   ruleStringValue; ruleCSVValue; ruleCidrValue; ruleIpValue; ruleIntValue;
   ruleIntRangeValue; ruleRefValue; ruleAliasValue; ruleHoleValue;
   ruleComment; ruleSpacing; ruleWhiteSpacing; ruleMustWhiteSpacing;
   ruleEqual; ruleSpace; ruleWhitespace; ruleEndOfLine; ruleEndOfFile].




(** ** Value precedence *)

(** The alternatives of [Value] in the order of the generated code. *)
Definition valueAlternatives (buffer : list rune) : list parser :=
  [valueCidr buffer; valueIp buffer; valueCSV buffer; valueIntRange buffer;
   valueInt buffer; valueSigil buffer].

(** A nest of ordered choices, [p1 / (p2 / (... / last))]. *)
Fixpoint orderedChoice (ps : list parser) (last : parser) : parser :=
  match ps with
  | [] => last
  | p :: ps' => alt p (orderedChoice ps' last)
  end.

Lemma Value_orderedChoice buffer :
  Value buffer =
  tok ruleValue
    (orderedChoice
       [valueCidr buffer; valueIp buffer; valueCSV buffer;
        valueIntRange buffer; valueInt buffer]
       (valueSigil buffer)).
Proof. reflexivity. Qed.

Lemma agree_trans s t u : agree s t -> agree t u -> agree s u.
Proof. intros [? ?] [? ?]; split; congruence. Qed.

Lemma agree_restore_same s s1 : agree (restore s s1) s.
Proof. by split. Qed.

Lemma orderedChoice_first ps : forall last s k p,
  Forall respects (ps ++ [last]) ->
  (ps ++ [last]) !! k = Some p ->
  (forall j q, j < k -> (ps ++ [last]) !! j = Some q -> fst (q s) = false) ->
  fst (p s) = true ->
  fst (orderedChoice ps last s) = true /\
  agree (snd (orderedChoice ps last s)) (snd (p s)).
Proof.
  induction ps as [|a ps IH]; intros last s k p Hr Hk Hbefore Hp.
  - destruct k as [|k]; simpl in Hk; [|done]. inv Hk.
    split; [done | apply agree_refl].
  - simpl in Hr; apply Forall_cons in Hr as [Ha Hr].
    destruct k as [|k]; simpl in Hk.
    + inv Hk. simpl; unfold alt.
      destruct (p s) as [b s1]; simpl in Hp; subst b.
      split; [done | apply agree_refl].
    + assert (Hfail : fst (a s) = false) by (apply (Hbefore 0); [lia | done]).
      simpl orderedChoice; unfold alt.
      destruct (a s) as [b s1]; simpl in Hfail; subst b.
      pose proof (agree_restore_same s s1) as Hag.
      assert (Hpr : respects p).
      { rewrite Forall_forall in Hr. apply Hr.
        by apply list_elem_of_lookup_2 in Hk. }
      destruct (Hpr _ _ Hag) as [Hb Hs].
      destruct (IH last (restore s s1) k p) as [H1 H2]; [done | done | | |].
      * intros j q Hj Hq.
        assert (Hqr : respects q).
        { rewrite Forall_forall in Hr. apply Hr.
          by apply list_elem_of_lookup_2 in Hq. }
        destruct (Hqr _ _ Hag) as [-> _].
        apply (Hbefore (S j)); [lia | done].
      * congruence.
      * split; [done | exact (agree_trans _ _ _ H2 Hs)].
Qed.

Lemma orderedChoice_none ps : forall last s,
  Forall respects (ps ++ [last]) ->
  (forall q, In q (ps ++ [last]) -> fst (q s) = false) ->
  fst (orderedChoice ps last s) = false.
Proof.
  induction ps as [|a ps IH]; intros last s Hr Hall.
  - apply Hall; simpl; auto.
  - simpl in Hr; apply Forall_cons in Hr as [Ha Hr].
    assert (Hfail : fst (a s) = false) by (apply Hall; simpl; auto).
    simpl orderedChoice; unfold alt at 1.
    destruct (a s) as [b s1]; simpl in Hfail; subst b.
    apply IH; [done|]. intros q Hq.
    assert (Hqr : respects q).
    { rewrite Forall_forall in Hr. apply Hr. by apply list_elem_of_In. }
    destruct (Hqr _ _ (agree_restore_same s s1)) as [-> _].
    apply Hall; simpl; auto.
Qed.

Lemma respects_valueAlternatives buffer :
  Forall respects (valueAlternatives buffer).
Proof.
  assert (Hn : nth (length buffer) buffer endSymbol = endSymbol)
    by (by apply nth_overflow).
  unfold valueAlternatives.
  repeat (apply Forall_cons_2 || apply Forall_nil_2);
    eapply good_respects;
    eauto using good_valueCidr, good_valueIp, good_valueCSV,
      good_valueIntRange, good_valueInt, good_valueSigil.
Qed.

(** The [Value] rule run on a token alone: the rules of the tokens that
    span the whole of it (other than the bookkeeping [PegText] and the
    enclosing [Value]) and the builder calls [Execute] makes. *)
Definition valueKind (v : string) : option (list pegRule * list call) :=
  let buffer := mkBuffer (runes v) in
  let '(ok, s) := Value buffer initState in
  if ok && Nat.eqb (position s) (length (runes v)) then
    Some (map tok_rule
            (filter (fun t => tok_begin t = 0 /\ tok_end t = length (runes v)
                              /\ tok_rule t <> rulePegText
                              /\ tok_rule t <> ruleValue)
                    (tokens s)),
          Execute buffer (tokens s))
  else None.

(** The texts of the [StringValue] tokens of a value, in order. *)
Definition stringItems (v : string) : list (list rune) :=
  let buffer := mkBuffer (runes v) in
  map (fun t => slice buffer (tok_begin t) (tok_end t))
      (filter (fun t => tok_rule t = ruleStringValue)
              (tokens (snd (Value buffer initState)))).

(** The builder calls for the statement [create vpc k=<v>]. *)
Definition paramCalls (v : string) : option (list call) :=
  parseCalls ("create vpc k=" +:+ v).

Definition inStatement (c : call) : option (list call) :=
  Some [addAction (runes "create"); addEntity (runes "vpc");
        addParamKey (runes "k"); c; LineDone].

(** C1. Value precedence: the alternatives of a value are tried in the
    order CIDR, IP, CSV, IntRange, Int, then the switch on the first rune
    ($ Reference, @ Alias, { Hole, anything else String); the first
    alternative that matches decides the result: its position, its tokens
    and the closing Value token; when none matches the value fails.  The
    eight tokens of the spec parse as stated, alone and inside a
    statement. *)
Theorem Value_precedence :
  (forall buffer s k p,
     valueAlternatives buffer !! k = Some p ->
     (forall j q, j < k -> valueAlternatives buffer !! j = Some q ->
                  fst (q s) = false) ->
     fst (p s) = true ->
     fst (Value buffer s) = true /\
     position (snd (Value buffer s)) = position (snd (p s)) /\
     tokens (snd (Value buffer s)) =
       tokens (snd (p s)) ++
       [Token32 ruleValue (position s) (position (snd (p s)))])
  /\ (forall buffer s,
        (forall q, In q (valueAlternatives buffer) -> fst (q s) = false) ->
        fst (Value buffer s) = false)
  /\ (forall buffer s,
        valueSigil buffer s =
        if N.eqb (peek buffer s) (ch "$")
        then seq (RefValue buffer) (addHere ruleAction7) s
        else if N.eqb (peek buffer s) (ch "@")
        then seq (AliasValue buffer) (addHere ruleAction6) s
        else if N.eqb (peek buffer s) (ch "{")
        then seq (HoleValue buffer) (addHere ruleAction5) s
        else seq (tok rulePegText (StringValue buffer))
                 (addHere ruleAction13) s)
  /\ valueKind "10.0.0.0/24"
     = Some ([ruleCidrValue], [addParamCidrValue (runes "10.0.0.0/24")])
  /\ valueKind "10.0.0.0"
     = Some ([ruleIpValue], [addParamIpValue (runes "10.0.0.0")])
  /\ valueKind "a,b,c" = Some ([ruleCSVValue], [addCsvValue (runes "a,b,c")])
  /\ stringItems "a,b,c" = [runes "a"; runes "b"; runes "c"]
  /\ valueKind "{name}" = Some ([ruleHoleValue], [addParamHoleValue (runes "name")])
  /\ valueKind "$name" = Some ([ruleRefValue], [addParamRefValue (runes "name")])
  /\ valueKind "@name" = Some ([ruleAliasValue], [addParamValue (runes "@name")])
  /\ valueKind "42-100" = Some ([ruleIntRangeValue], [addParamValue (runes "42-100")])
  /\ valueKind "42" = Some ([ruleIntValue], [addParamIntValue (runes "42")])
  /\ paramCalls "10.0.0.0/24" = inStatement (addParamCidrValue (runes "10.0.0.0/24"))
  /\ paramCalls "10.0.0.0" = inStatement (addParamIpValue (runes "10.0.0.0"))
  /\ paramCalls "a,b,c" = inStatement (addCsvValue (runes "a,b,c"))
  /\ paramCalls "{name}" = inStatement (addParamHoleValue (runes "name"))
  /\ paramCalls "$name" = inStatement (addParamRefValue (runes "name"))
  /\ paramCalls "@name" = inStatement (addParamValue (runes "@name"))
  /\ paramCalls "42-100" = inStatement (addParamValue (runes "42-100"))
  /\ paramCalls "42" = inStatement (addParamIntValue (runes "42")).
Proof.
  split; [|split; [|split; [|by vm_compute]]].
  - intros buffer s k p Hk Hbefore Hp.
    destruct (orderedChoice_first
                [valueCidr buffer; valueIp buffer; valueCSV buffer;
                 valueIntRange buffer; valueInt buffer]
                (valueSigil buffer) s k p) as [H1 [H2 H3]];
      [apply respects_valueAlternatives | done | done | done |].
    rewrite Value_orderedChoice. unfold tok, seq, add.
    destruct (orderedChoice _ _ s) as [b s1]; simpl in H1, H2, H3; subst b.
    simpl. by rewrite H2, H3.
  - intros buffer s Hall.
    pose proof (orderedChoice_none
                  [valueCidr buffer; valueIp buffer; valueCSV buffer;
                   valueIntRange buffer; valueInt buffer]
                  (valueSigil buffer) s
                  (respects_valueAlternatives buffer) Hall) as H.
    rewrite Value_orderedChoice. unfold tok, seq.
    by destruct (orderedChoice _ _ s) as [[] s1].
  - intros buffer s. unfold valueSigil, switch; cbn [find existsb fst snd].
    rewrite !orb_false_r.
    by destruct (N.eqb (peek buffer s) (ch "$")),
                (N.eqb (peek buffer s) (ch "@")),
                (N.eqb (peek buffer s) (ch "{")).
Qed.

Lemma Value_precedence_witness :
  let buffer := mkBuffer (runes "42-100") in
  fst (Value buffer initState) = true /\
  position (snd (Value buffer initState)) = 6.
Proof.
  destruct (proj1 Value_precedence (mkBuffer (runes "42-100")) initState 3
              (valueIntRange (mkBuffer (runes "42-100"))))
    as (H1 & H2 & _).
  - reflexivity.
  - intros j q Hj Hq.
    destruct j as [|[|[|j]]]; [| | | lia]; inv Hq; by vm_compute.
  - by vm_compute.
  - split; [exact H1|]. rewrite H2. by vm_compute.
Defined.

(** ** Comments *)

#[local] Instance AppClosed_none : AppClosed (fun l => l = []).
Proof. split; [done|]. by intros l1 l2 -> ->. Qed.

Lemma restOfLine_tokens buffer s s' :
  restOfLine buffer s = (true, s') -> tokens s' = tokens s.
Proof.
  intros H.
  assert (E : emits (fun l => l = []) (restOfLine buffer)).
  { unfold restOfLine. apply emits_star; [apply _|].
    apply emits_seq; [apply _ | apply emits_notp, _ | apply emits_matchDot, _]. }
  apply E in H as (l & -> & ->). by rewrite app_nil_r.
Qed.

(** C2 (what the code does). Comment handling: a comment that starts
    with # adds the Comment token and nothing else, so [Execute] makes no
    LineDone call for it; a comment that starts with // adds the token of
    Action14 first, which is the LineDone call.  On the one-line scripts
    "# note" and "// note" the builder is told nothing and LineDone. *)
Theorem Comment_hash_without_LineDone :
  (forall buffer s s',
     Comment buffer s = (true, s') ->
     peek buffer s = ch "#" ->
     tokens s' = tokens s ++ [Token32 ruleComment (position s) (position s')])
  /\ (forall buffer s s',
        Comment buffer s = (true, s') ->
        peek buffer s <> ch "#" ->
        tokens s' = tokens s ++
                    [Token32 ruleAction14 (position s') (position s');
                     Token32 ruleComment (position s) (position s')])
  /\ parseCalls "# note" = Some []
  /\ parseCalls "// note" = Some [LineDone].
Proof.
  split; [|split; [|by vm_compute]].
  - intros buffer s s' H Hp. unfold Comment in H.
    apply tok_true in H as (s1 & H & ->); simpl.
    apply alt_true in H as [H | (s2 & H & _)].
    + apply seq_true in H as (s2 & H1 & H2).
      apply matchChar_true in H1 as [-> _].
      apply restOfLine_tokens in H2. by rewrite H2.
    + apply seq_false_first in H as [H | (s3 & _ & H)].
      * unfold matchChar in H. by rewrite Hp, N.eqb_refl in H.
      * unfold restOfLine, star in H.
        pose proof (star_loop_true (S (length buffer - position s3))
                      (seq (notp (EndOfLine buffer)) (matchDot buffer)) s3) as T.
        by rewrite H in T.
  - intros buffer s s' H Hp. unfold Comment in H.
    apply tok_true in H as (s1 & H & ->); simpl.
    apply alt_true in H as [H | (s2 & _ & H)].
    + apply seq_true in H as (s2 & H1 & _).
      apply matchChar_true in H1 as [_ H1].
      unfold peek in Hp. rewrite nth_lookup, H1 in Hp. done.
    + apply seq_true in H as (s3 & H1 & H).
      apply seq_true in H as (s4 & H2 & H).
      apply seq_true in H as (s5 & H3 & H4).
      apply matchChar_true in H1 as [-> _].
      apply matchChar_true in H2 as [-> _].
      apply restOfLine_tokens in H3. inv H4; simpl.
      by rewrite H3, <- app_assoc.
Qed.

Lemma Comment_hash_without_LineDone_witness :
  let buffer := mkBuffer (runes "# note") in
  tokens (snd (Comment buffer initState)) = [Token32 ruleComment 0 6].
Proof.
  intros buffer.
  rewrite (proj1 Comment_hash_without_LineDone buffer initState
             (snd (Comment buffer initState))); by vm_compute.
Defined.

(** ** CIDR and IP literals *)

(** C3 (what the code does). CIDR and IP literal shape: the separator
    between two digit groups is matched by [matchDot], which takes any
    rune, so tokens whose groups are separated by letters or commas are
    taken as CIDR and IP values; a list of four numbers is taken as an IP
    and not as a CSV. *)
Theorem Cidr_Ip_any_separator :
  valueKind "1a2b3c4/5" = Some ([ruleCidrValue], [addParamCidrValue (runes "1a2b3c4/5")])
  /\ valueKind "1a2b3c4" = Some ([ruleIpValue], [addParamIpValue (runes "1a2b3c4")])
  /\ valueKind "1,2,3,4" = Some ([ruleIpValue], [addParamIpValue (runes "1,2,3,4")])
  /\ paramCalls "1a2b3c4/5" = inStatement (addParamCidrValue (runes "1a2b3c4/5"))
  /\ paramCalls "10-0-0-0" = inStatement (addParamIpValue (runes "10-0-0-0"))
  /\ paramCalls "1,2,3,4" = inStatement (addParamIpValue (runes "1,2,3,4")).
Proof. by vm_compute. Qed.

(** ** Dry-run drivers *)

Module DriverFacts.
Import Driver.

Lemma list_ascii_app (a b : string) :
  list_ascii_of_string (a +:+ b)
  = list_ascii_of_string a ++ list_ascii_of_string b.
Proof. induction a as [|c a IH]; simpl; [done | by rewrite IH]. Qed.

Lemma list_ascii_inj (a b : string) :
  list_ascii_of_string a = list_ascii_of_string b -> a = b.
Proof.
  intros H. apply (f_equal string_of_list_ascii) in H.
  by rewrite !string_of_list_ascii_of_string in H.
Qed.

(** [strings.HasSuffix] holds exactly of the strings that end with the
    suffix. *)
Lemma HasSuffix_spec s suffix :
  HasSuffix s suffix = true <-> exists pre, s = pre +:+ suffix.
Proof.
  unfold HasSuffix; rewrite andb_true_iff, Nat.leb_le, bool_decide_eq_true.
  split.
  - intros [Hlen Hdrop].
    remember (list_ascii_of_string s) as ls eqn:Els.
    remember (list_ascii_of_string suffix) as lsuf eqn:Elsuf.
    exists (string_of_list_ascii (take (length ls - length lsuf) ls)).
    apply list_ascii_inj.
    rewrite list_ascii_app, list_ascii_of_string_of_list_ascii, <- Els, <- Elsuf.
    transitivity (take (length ls - length lsuf) ls
                  ++ drop (length ls - length lsuf) ls);
      [by rewrite take_drop | by rewrite Hdrop].
  - intros [pre ->]. rewrite list_ascii_app, length_app. split; [lia|].
    replace (length (list_ascii_of_string pre)
             + length (list_ascii_of_string suffix)
             - length (list_ascii_of_string suffix))
      with (length (list_ascii_of_string pre)) by lia.
    by rewrite drop_app_length.
Qed.

Section Ec2Driver.
Variable paramValue : Type.
Variable setFieldWithType :
  forall I : Type, option paramValue -> I -> string -> fieldType ->
                   I * option goError.
Variable CreateVpc : CreateVpcInput -> option goError.
Variable DeleteVpc : DeleteVpcInput -> option goError.
Variable fakeDryRunId : string -> string.

Abbreviation Create_Vpc_DryRun :=
  (Create_Vpc_DryRun paramValue setFieldWithType CreateVpc fakeDryRunId).
Abbreviation Delete_Vpc_DryRun :=
  (Delete_Vpc_DryRun paramValue setFieldWithType DeleteVpc fakeDryRunId).

(** What [setFieldWithType] makes of the [cidr] parameter. *)
Definition prepared (params : gmap string paramValue)
  : CreateVpcInput * option goError :=
  setFieldWithType _ (params !! "cidr"%string)
    {| DryRun := Some true; CidrBlock := None |} "CidrBlock" awsstr.

(** The error codes on which the dry run counts as a success. *)
Definition wouldSucceed (e : goError) : Prop :=
  match e with
  | AwsErr code _ =>
      code = "DryRunOperation"%string
      \/ exists pre, code = (pre +:+ "NotFound")%string
  | PlainErr _ => False
  end.

Lemma wouldSucceed_code code msg :
  String.eqb code dryRunOperation || HasSuffix code notFound = true
  <-> wouldSucceed (AwsErr code msg).
Proof.
  rewrite orb_true_iff, String.eqb_eq, HasSuffix_spec. done.
Qed.

(** The shared tail of the generated dry-run functions: an identifier
    and a nil error exactly on an error that would succeed; otherwise no
    identifier and the error of the platform call, nil included. *)
Lemma dryRunOutcome_spec entity okLine errFormat err :
  ((exists id, fst (dryRunOutcome fakeDryRunId entity okLine errFormat err)
               = (Some id, None))
   <-> exists e, err = Some e /\ wouldSucceed e)
  /\ (forall id, fst (dryRunOutcome fakeDryRunId entity okLine errFormat err)
                 = (Some id, None) -> id = fakeDryRunId entity)
  /\ ((forall e, err = Some e -> ~ wouldSucceed e) ->
      dryRunOutcome fakeDryRunId entity okLine errFormat err
      = ((None, err), [Errorf errFormat err])).
Proof.
  unfold dryRunOutcome.
  destruct err as [[code msg|msg]|]; simpl.
  - destruct (String.eqb code dryRunOperation || HasSuffix code notFound)
      eqn:Ec; simpl.
    + apply (wouldSucceed_code code msg) in Ec.
      split; [split|split].
      * intros _. eauto.
      * intros _. eauto.
      * intros id H. by inv H.
      * intros Hn. by destruct (Hn _ eq_refl).
    + assert (Hn : ~ wouldSucceed (AwsErr code msg)).
      { intros H. apply wouldSucceed_code in H. congruence. }
      split; [split|split].
      * by intros [id H].
      * intros (e & H & Hw). by inv H.
      * by intros id H.
      * done.
  - split; [split|split].
    + by intros [id H].
    + intros (e & H & Hw). by inv H.
    + by intros id H.
    + done.
  - split; [split|split].
    + by intros [id H].
    + by intros (e & H & Hw).
    + by intros id H.
    + done.
Qed.

(** C6. Dry-run success synthesis: [Create_Vpc_DryRun] returns an
    identifier with a nil error exactly when the platform call was made
    and returned an error that carries a code equal to DryRunOperation or
    ending with NotFound, and the identifier is then [fakeDryRunId] of
    the entity; on every other error of the platform call that error is
    returned and no identifier.  [Delete_Vpc_DryRun], of the same shape,
    classifies the error of its platform call in the same way. *)
Theorem Create_Vpc_DryRun_synthesis (params : gmap string paramValue) :
  ((exists id, fst (Create_Vpc_DryRun params) = (Some id, None))
   <-> (snd (prepared params) = None
        /\ exists e, CreateVpc (fst (prepared params)) = Some e
                     /\ wouldSucceed e))
  /\ (forall id, fst (Create_Vpc_DryRun params) = (Some id, None) ->
                 id = fakeDryRunId "vpc")
  /\ (forall e, snd (prepared params) = None ->
                CreateVpc (fst (prepared params)) = Some e ->
                ~ wouldSucceed e ->
                fst (Create_Vpc_DryRun params) = (None, Some e))
  /\ (forall input,
        setFieldWithType _ (params !! "id"%string)
          {| DeleteDryRun := Some true; VpcId := None |} "VpcId" awsstr
        = (input, None) ->
        ((exists id, fst (Delete_Vpc_DryRun params) = (Some id, None))
         <-> exists e, DeleteVpc input = Some e /\ wouldSucceed e)).
Proof.
  split; [|split; [|split]].
  - unfold Driver.Create_Vpc_DryRun, prepared; simpl.
    destruct (setFieldWithType _ _ _ _ _) as [input [e0|]]; simpl.
    + split; [by intros [id H] | by intros [H _]].
    + rewrite (proj1 (dryRunOutcome_spec _ _ _ _)). split; [by split|].
      by intros [_ H].
  - unfold Driver.Create_Vpc_DryRun; simpl.
    destruct (setFieldWithType _ _ _ _ _) as [input [e0|]]; simpl; [done|].
    apply dryRunOutcome_spec.
  - unfold Driver.Create_Vpc_DryRun, prepared; simpl.
    destruct (setFieldWithType _ _ _ _ _) as [input err]; simpl.
    intros e -> He Hn.
    rewrite (proj2 (proj2 (dryRunOutcome_spec _ _ _ _))); [by rewrite He|].
    intros e' He'. rewrite He in He'. by inv He'.
  - intros input Hin. unfold Driver.Delete_Vpc_DryRun; simpl.
    rewrite Hin. apply dryRunOutcome_spec.
Qed.

(** C10. Dry-run nil-error edge: when the platform call returns no
    error at all, [Create_Vpc_DryRun] returns (nil, nil): no identifier
    and no error; only the error line is logged. *)
Theorem Create_Vpc_DryRun_nil_error (params : gmap string paramValue) :
  snd (prepared params) = None ->
  CreateVpc (fst (prepared params)) = None ->
  Create_Vpc_DryRun params
  = ((None, None), [Errorf "dry run: create vpc error: %s" None]).
Proof.
  unfold Driver.Create_Vpc_DryRun, prepared; simpl.
  destruct (setFieldWithType _ _ _ _ _) as [input err]; simpl.
  by intros -> ->.
Qed.

End Ec2Driver.

(** A driver whose parameters are strings, whose [setFieldWithType]
    never fails and whose platform answers as the test at hand says. *)
Definition noFill (I : Type) (v : option string) (i : I) (_ : string)
    (_ : fieldType) : I * option goError := (i, None).

Definition sampleParams : gmap string string :=
  {[ "cidr"%string := "10.0.0.0/24"%string ]}.

End DriverFacts.

Lemma Create_Vpc_DryRun_synthesis_witness :
  fst (Driver.Create_Vpc_DryRun string DriverFacts.noFill
         (fun _ => Some (Driver.AwsErr "InvalidVpcID.NotFound" "no such vpc"))
         (fun e => ("dryrun-" +:+ e)%string) DriverFacts.sampleParams)
  = (Some "dryrun-vpc"%string, None)
  /\ fst (Driver.Create_Vpc_DryRun string DriverFacts.noFill
            (fun _ => Some (Driver.AwsErr "UnauthorizedOperation" "denied"))
            (fun e => ("dryrun-" +:+ e)%string) DriverFacts.sampleParams)
     = (None, Some (Driver.AwsErr "UnauthorizedOperation" "denied")).
Proof.
  split.
  - destruct (proj1 (proj1 (DriverFacts.Create_Vpc_DryRun_synthesis string
                DriverFacts.noFill
                (fun _ => Some (Driver.AwsErr "InvalidVpcID.NotFound" "no such vpc"))
                (fun _ => None)
                (fun e => ("dryrun-" +:+ e)%string) DriverFacts.sampleParams)))
      as [H _]; [|by vm_compute].
    eexists; by vm_compute.
  - apply (proj1 (proj2 (proj2 (DriverFacts.Create_Vpc_DryRun_synthesis string
                DriverFacts.noFill
                (fun _ => Some (Driver.AwsErr "UnauthorizedOperation" "denied"))
                (fun _ => None)
                (fun e => ("dryrun-" +:+ e)%string) DriverFacts.sampleParams)))).
    + by vm_compute.
    + by vm_compute.
    + simpl. intros [H | [pre H]]; [done|].
      apply (f_equal (fun s => Driver.HasSuffix s "NotFound")) in H.
      rewrite (proj2 (DriverFacts.HasSuffix_spec (pre +:+ "NotFound") "NotFound"))
        in H by eauto.
      by vm_compute in H.
Defined.

Lemma Create_Vpc_DryRun_nil_error_witness :
  Driver.Create_Vpc_DryRun string DriverFacts.noFill (fun _ => None)
    (fun e => ("dryrun-" +:+ e)%string) DriverFacts.sampleParams
  = ((None, None), [Driver.Errorf "dry run: create vpc error: %s" None]).
Proof.
  apply DriverFacts.Create_Vpc_DryRun_nil_error; by vm_compute.
Defined.

(** ** The revert command *)

Module RevertCmdFacts.
Import RevertCmd.

Section Command.
Variables exec tpl : Type.
Variable databaseCurrent : option string.
Variable GetTemplateExecution : string -> exec * option string.
Variable Revert : exec -> tpl * option string.
Variable render : tpl -> string.
Variable runTemplate : tpl -> option string.

Abbreviation run :=
  (run exec tpl databaseCurrent GetTemplateExecution Revert render
     runTemplate).

(** Everything the command does when nothing fails, in order. *)
Definition fullTrace (revertId : string) : list (event exec tpl) :=
  let tplExec := fst (GetTemplateExecution revertId) in
  let reverted := fst (Revert tplExec) in
  [EvDatabaseCurrent; EvGetTemplateExecution revertId; EvDbClose;
   EvRevert tplExec; EvPrintf (render reverted +:+ String "010" "");
   EvRunTemplate reverted].

(** C7. Revert command flow: without an argument the command returns
    the "REVERTID required" error and has done nothing; with one, what
    it does is always a prefix of: open the database, load the record
    with [GetTemplateExecution], close, build the reverted template,
    print its rendering, run it.  So the template is run only after it
    was printed, and when no step fails the whole sequence happens and
    the command returns nil. *)
Theorem revert_flow :
  run [] =
    (Returned (Some "REVERTID required (see `awless log` to list revert ids)"%string),
     [])
  /\ (forall revertId rest,
        snd (run (revertId :: rest)) `prefix_of` fullTrace revertId)
  /\ (forall revertId rest t,
        In (EvRunTemplate t) (snd (run (revertId :: rest))) ->
        exists before after,
          snd (run (revertId :: rest)) =
          before ++ [EvPrintf (render t +:+ String "010" "");
                     EvRunTemplate t] ++ after)
  /\ (forall revertId rest,
        databaseCurrent = None ->
        snd (GetTemplateExecution revertId) = None ->
        snd (Revert (fst (GetTemplateExecution revertId))) = None ->
        runTemplate (fst (Revert (fst (GetTemplateExecution revertId)))) = None ->
        run (revertId :: rest) = (Returned None, fullTrace revertId)).
Proof.
  split; [done|].
  assert (Hshape : forall revertId rest,
    let tr := snd (run (revertId :: rest)) in
    (exists k, k < 5 /\ tr = take k (fullTrace revertId))
    \/ tr = fullTrace revertId).
  { intros revertId rest; unfold RevertCmd.run, RunE, fullTrace; simpl.
    unfold bind, emit, exitOn; simpl.
    destruct databaseCurrent as [e|]; simpl; [left; exists 1; by split; [lia|]|].
    destruct (GetTemplateExecution revertId) as [tplExec [e|]]; simpl;
      [left; exists 3; by split; [lia|]|].
    destruct (Revert tplExec) as [reverted [e|]]; simpl;
      [left; exists 4; by split; [lia|]|].
    right. by destruct (runTemplate reverted). }
  split; [|split].
  - intros revertId rest.
    destruct (Hshape revertId rest) as [(k & _ & ->) | ->];
      [apply prefix_take | done].
  - intros revertId rest t Hin.
    destruct (Hshape revertId rest) as [(k & Hk & E) | E];
      rewrite E in *; clear E.
    + exfalso. unfold fullTrace in Hin.
      destruct k as [|[|[|[|[|k]]]]]; simpl in Hin; [..|lia];
        intuition discriminate.
    + unfold fullTrace in *; simpl in Hin.
      destruct Hin as [H|[H|[H|[H|[H|[H|[]]]]]]]; try discriminate.
      inv H.
      by exists [EvDatabaseCurrent; EvGetTemplateExecution revertId;
                 EvDbClose; EvRevert (fst (GetTemplateExecution revertId))], [].
  - intros revertId rest H1 H2 H3 H4.
    unfold RevertCmd.run, RunE, fullTrace; simpl.
    unfold bind, emit, exitOn; simpl.
    rewrite H1; simpl.
    destruct (GetTemplateExecution revertId) as [tplExec e1]; simpl in *.
    subst e1; simpl.
    destruct (Revert tplExec) as [reverted e2]; simpl in *.
    subst e2; simpl. by rewrite H4.
Qed.

End Command.
End RevertCmdFacts.

Lemma revert_flow_witness :
  RevertCmd.run nat string None (fun _ => (7, None))
    (fun _ => ("delete vpc id=vpc-123"%string, None)) (fun t => t)
    (fun _ => None) ["01BA7RV6ES86PZYCM3H28WM6KZ"%string]
  = (RevertCmd.Returned None,
     [RevertCmd.EvDatabaseCurrent;
      RevertCmd.EvGetTemplateExecution "01BA7RV6ES86PZYCM3H28WM6KZ";
      RevertCmd.EvDbClose; RevertCmd.EvRevert 7;
      RevertCmd.EvPrintf "delete vpc id=vpc-123
";
      RevertCmd.EvRunTemplate "delete vpc id=vpc-123"%string]).
Proof.
  rewrite (proj2 (proj2 (proj2 (RevertCmdFacts.revert_flow nat string None
             (fun _ => (7, None))
             (fun _ => ("delete vpc id=vpc-123"%string, None)) (fun t => t)
             (fun _ => None)))) "01BA7RV6ES86PZYCM3H28WM6KZ"%string []);
    reflexivity.
Defined.

(** ** The revert generator *)

Module RevertGenFacts.
Import RevertGen.

Lemma omap_reverse {A B} (f : A -> option B) (l : list A) :
  omap f (reverse l) = reverse (omap f l).
Proof.
  induction l as [|x l IH]; [done|].
  rewrite reverse_cons, omap_app, IH.
  change (omap f (x :: l))
    with (match f x with Some y => y :: omap f l | None => omap f l end).
  change (omap f [x]) with (match f x with Some y => [y] | None => [] end).
  destruct (f x); [by rewrite reverse_cons | by rewrite app_nil_r].
Qed.

(** The inverses of the successful, invertible entries, in execution
    order: S1' .. SN'. *)
Definition invertible (record : list entry) : list statement :=
  omap inverseStatement (filter (fun e => en_ok e = true) record).

(** C4. Revert ordering: the reverted template is the list of inverses
    of the successfully executed, invertible entries, in the reverse of
    their execution order; an entry that failed or has no inverse
    contributes nothing, and the inverse of a later entry comes before
    the inverse of an earlier one. *)
Theorem Revert_reverses (record : list entry) :
  Revert record = reverse (invertible record)
  /\ (forall s, In s (Revert record) <->
                exists e, In e record /\ en_ok e = true
                          /\ inverseStatement e = Some s)
  /\ (forall before e1 between e2 after s1 s2,
        record = before ++ [e1] ++ between ++ [e2] ++ after ->
        en_ok e1 = true -> en_ok e2 = true ->
        inverseStatement e1 = Some s1 -> inverseStatement e2 = Some s2 ->
        exists l1 l2 l3, Revert record = l1 ++ [s2] ++ l2 ++ [s1] ++ l3).
Proof.
  assert (E : Revert record = reverse (invertible record))
    by apply omap_reverse.
  split; [done|]. split.
  - intros s. rewrite E, <- list_elem_of_In, elem_of_reverse.
    unfold invertible. rewrite list_elem_of_omap. split.
    + intros (e & He & Hs). apply list_elem_of_filter in He as [Hok He].
      exists e. by rewrite <- list_elem_of_In.
    + intros (e & He & Hok & Hs). exists e; split; [|done].
      apply list_elem_of_filter. by rewrite list_elem_of_In.
  - intros before e1 between e2 after s1 s2 -> Hk1 Hk2 H1 H2.
    rewrite E; unfold invertible.
    rewrite !filter_app, !omap_app, !reverse_app.
    rewrite (filter_cons_True _ e1), (filter_cons_True _ e2) by done.
    rewrite !filter_nil; simpl. rewrite H1, H2; simpl.
    rewrite !reverse_singleton.
    exists (reverse (omap inverseStatement
                       (filter (fun e => en_ok e = true) after))),
           (reverse (omap inverseStatement
                       (filter (fun e => en_ok e = true) between))),
           (reverse (omap inverseStatement
                       (filter (fun e => en_ok e = true) before))).
    by rewrite <- !app_assoc.
Qed.

End RevertGenFacts.

Lemma Revert_reverses_witness :
  let vpc := RevertGen.Entry
               (RevertGen.Statement RevertGen.create "vpc" [("cidr", "10.0.0.0/24")])
               [("cidr", "10.0.0.0/24")] (Some "vpc-123") true in
  let subnet := RevertGen.Entry
                  (RevertGen.Statement RevertGen.create "subnet" [("vpc", "$v")])
                  [("vpc", "vpc-123")] (Some "subnet-9") true in
  exists l1 l2 l3,
    RevertGen.Revert [vpc; subnet] =
    l1 ++ [RevertGen.Statement RevertGen.delete "subnet" [("id", "subnet-9")]]
       ++ l2
       ++ [RevertGen.Statement RevertGen.delete "vpc" [("id", "vpc-123")]]
       ++ l3.
Proof.
  intros vpc subnet.
  apply (proj2 (proj2 (RevertGenFacts.Revert_reverses [vpc; subnet]))
           [] vpc [] subnet []); reflexivity.
Defined.

(** * Further properties of the sources *)

(** ** The token tree stays inside the text that was matched *)

Module TreeFacts.
Import Peg PegFacts GrammarFacts.

(** A token between two positions. *)
Definition within (lo hi : nat) (t : token32) : Prop :=
  lo <= tok_begin t /\ tok_begin t <= tok_end t /\ tok_end t <= hi.

(** A success moves forward and appends only tokens that lie between the
    position it started from and the one it reached. *)
Definition spans (p : parser) : Prop :=
  forall s s', p s = (true, s') ->
    position s <= position s' /\
    exists l, tokens s' = tokens s ++ l /\
              Forall (within (position s) (position s')) l.

Lemma within_widen lo hi lo' hi' t :
  lo' <= lo -> hi <= hi' -> within lo hi t -> within lo' hi' t.
Proof. unfold within; lia. Qed.

Lemma spans_none (p : parser) :
  (forall s s', p s = (true, s') ->
                position s <= position s' /\ tokens s' = tokens s) ->
  spans p.
Proof.
  intros H s s' E; apply H in E as [Hle Ht]. split; [done|].
  exists []; by rewrite app_nil_r.
Qed.

Section Spans.
Variable buffer : list rune.

Lemma spans_addHere r : spans (addHere r).
Proof.
  intros s s' H; inv H; simpl. split; [done|].
  eexists; split; [done|]. apply Forall_singleton; unfold within; simpl; lia.
Qed.

Lemma spans_matchDot : spans (matchDot buffer).
Proof.
  apply spans_none; intros s s'; unfold matchDot.
  destruct (N.eqb _ _); intros H; inv H; simpl; split; [lia | done].
Qed.

Lemma spans_matchChar c : spans (matchChar buffer c).
Proof.
  apply spans_none; intros s s'; unfold matchChar.
  destruct (N.eqb _ _); intros H; inv H; simpl; split; [lia | done].
Qed.

Lemma spans_matchRange lo hi : spans (matchRange buffer lo hi).
Proof.
  apply spans_none; intros s s'; unfold matchRange; cbv zeta.
  destruct (_ || _); intros H; inv H; simpl; split; [lia | done].
Qed.

Lemma spans_seq p q : spans p -> spans q -> spans (seq p q).
Proof.
  intros Hp Hq s s' H; apply seq_true in H as (s1 & H1 & H2).
  apply Hp in H1 as (L1 & l1 & E1 & F1); apply Hq in H2 as (L2 & l2 & E2 & F2).
  split; [lia|]. exists (l1 ++ l2); split; [by rewrite E2, E1, app_assoc|].
  apply Forall_app; split.
  - eapply Forall_impl; [exact F1|]. intros t; apply within_widen; lia.
  - eapply Forall_impl; [exact F2|]. intros t; apply within_widen; lia.
Qed.

Lemma spans_alt p q : spans p -> spans q -> spans (alt p q).
Proof.
  intros Hp Hq s s' H; apply alt_true in H as [H | (s1 & _ & H)].
  - by apply Hp.
  - by apply Hq in H.
Qed.

Lemma spans_rule p : spans p -> spans (rule p).
Proof. intros Hp s s' H; apply rule_true in H; by apply Hp. Qed.

Lemma spans_tok r p : spans p -> spans (tok r p).
Proof.
  intros Hp s s' H; apply tok_true in H as (s1 & H & ->); simpl.
  apply Hp in H as (L & l & E & F). split; [done|].
  exists (l ++ [Token32 r (position s) (position s1)]).
  split; [by rewrite E, app_assoc|].
  apply Forall_app; split; [done|].
  apply Forall_singleton; unfold within; simpl; lia.
Qed.

Lemma spans_opt p : spans p -> spans (opt p).
Proof.
  intros Hp s s' H; apply opt_true in H as [H | (s1 & _ & ->)].
  - by apply Hp.
  - simpl; split; [done|]. exists []; by rewrite app_nil_r.
Qed.

Lemma spans_notp p : spans (notp p).
Proof.
  intros s s' H; apply notp_true in H as (s1 & _ & ->).
  simpl; split; [done|]. exists []; by rewrite app_nil_r.
Qed.

Lemma spans_star_loop p fuel : spans p -> spans (star_loop fuel p).
Proof.
  intros Hp; induction fuel as [|fuel IH]; intros s s'; simpl.
  - intros H; inv H. split; [done|]. exists []; by rewrite app_nil_r.
  - destruct (p s) as [[] s1] eqn:E; intros H.
    + apply Hp in E as (L1 & l1 & E1 & F1).
      apply IH in H as (L2 & l2 & E2 & F2).
      split; [lia|]. exists (l1 ++ l2); split; [by rewrite E2, E1, app_assoc|].
      apply Forall_app; split.
      * eapply Forall_impl; [exact F1|]. intros t; apply within_widen; lia.
      * eapply Forall_impl; [exact F2|]. intros t; apply within_widen; lia.
    + inv H. simpl; split; [done|]. exists []; by rewrite app_nil_r.
Qed.

Lemma spans_star p : spans p -> spans (star buffer p).
Proof. intros Hp s s' H; by apply spans_star_loop in H. Qed.

Lemma spans_switch cases default :
  Forall (fun c => spans (snd c)) cases -> spans default ->
  spans (switch buffer cases default).
Proof.
  intros Hc Hd s s' H.
  destruct (switch_cases buffer cases default s) as [E | (c & Hin & E)];
    rewrite E in H; [by apply Hd|].
  rewrite Forall_forall in Hc; by apply (Hc c Hin).
Qed.

Lemma spans_lit l : spans (lit buffer l).
Proof.
  induction l as [|c l IH].
  - apply spans_none; intros s s' H; by inv H.
  - destruct l as [|d l]; [apply spans_matchChar|].
    change (lit buffer (c :: d :: l))
      with (seq (matchChar buffer c) (lit buffer (d :: l))).
    apply spans_seq; [apply spans_matchChar | apply IH].
Qed.

Create HintDb spans discriminated.
Local Hint Resolve spans_addHere spans_matchDot spans_matchChar
  spans_matchRange spans_seq spans_alt spans_rule spans_tok spans_opt
  spans_notp spans_star spans_switch spans_lit : spans.
Local Hint Extern 1 (spans (snd _)) => progress simpl : spans.
Local Hint Extern 1 (spans (word _ _)) => unfold word : spans.
Local Hint Constructors Forall : spans.

Ltac spanning := auto 80 with spans.

Lemma spans_Whitespace : spans (Whitespace buffer).
Proof. unfold Whitespace; spanning. Qed.
Lemma spans_EndOfLine : spans (EndOfLine buffer).
Proof. unfold EndOfLine; spanning. Qed.
Local Hint Resolve spans_Whitespace spans_EndOfLine : spans.
Lemma spans_Spacing : spans (Spacing buffer).
Proof. unfold Spacing; spanning. Qed.
Lemma spans_WhiteSpacing : spans (WhiteSpacing buffer).
Proof. unfold WhiteSpacing; spanning. Qed.
Lemma spans_MustWhiteSpacing : spans (MustWhiteSpacing buffer).
Proof. unfold MustWhiteSpacing; spanning. Qed.
Local Hint Resolve spans_Spacing spans_WhiteSpacing spans_MustWhiteSpacing
  : spans.
Lemma spans_Equal : spans (Equal buffer).
Proof. unfold Equal; spanning. Qed.
Lemma spans_Identifier : spans (Identifier buffer).
Proof. unfold Identifier, identifierChar; spanning. Qed.
Lemma spans_StringValue : spans (StringValue buffer).
Proof. unfold StringValue, stringValueChar; spanning. Qed.
Lemma spans_digits : spans (digits buffer).
Proof. unfold digits; spanning. Qed.
Local Hint Resolve spans_Equal spans_Identifier spans_StringValue
  spans_digits : spans.
Lemma spans_Value : spans (Value buffer).
Proof.
  unfold Value, valueCidr, valueIp, valueCSV, valueIntRange, valueInt,
    valueSigil, CidrValue, IpValue, CSVValue, csvItem, IntRangeValue,
    IntValue, RefValue, AliasValue, HoleValue.
  spanning.
Qed.
Local Hint Resolve spans_Value : spans.
Lemma spans_Params : spans (Params buffer).
Proof. unfold Params, Param; spanning. Qed.
Local Hint Resolve spans_Params : spans.
Lemma spans_Expr : spans (Expr buffer).
Proof. unfold Expr, Action, actionWord, Entity, entityWord; spanning. Qed.
Local Hint Resolve spans_Expr : spans.
Lemma spans_Statement : spans (Statement buffer).
Proof. unfold Statement, Declaration, Comment, restOfLine; spanning. Qed.
Local Hint Resolve spans_Statement : spans.
Lemma spans_Script : spans (Script buffer).
Proof. unfold Script, EndOfFile; spanning. Qed.

End Spans.

(** X1. Every token of an accepted text lies inside the text, so each slice
    [buffer[begin:end]] that [Execute] takes is in range and has
    [end - begin] runes. *)
Theorem Parse_tokens_inside (input : list rune) (toks : list token32) :
  Forall validRune input ->
  Parse input = inl toks ->
  Forall (fun t =>
            tok_begin t <= tok_end t /\ tok_end t <= length input /\
            length (slice (mkBuffer input) (tok_begin t) (tok_end t))
            = tok_end t - tok_begin t) toks.
Proof.
  intros Hv; unfold Parse; rewrite (mkBuffer_valid _ Hv).
  destruct (Script (input ++ [endSymbol]) initState) as [[] s] eqn:E; [|done].
  intros H; inv H.
  assert (I : Inv (length input) s).
  { eapply (good_sound _ _ (good_Script _ _ (end_index input))); [done|].
    apply Inv_initState. }
  destruct I as (Hpos & _).
  apply spans_Script in E as (_ & l & El & F); simpl in El; subst l.
  eapply Forall_impl; [exact F|]. intros t (H1 & H2 & H3).
  split; [done|]. split; [lia|].
  unfold slice. rewrite length_take, length_drop, length_app; simpl. lia.
Qed.

Lemma Parse_tokens_inside_witness :
  Forall (fun t => tok_begin t <= tok_end t /\ tok_end t <= 10 /\
                   length (slice (mkBuffer (runes "create vpc"))
                             (tok_begin t) (tok_end t))
                   = tok_end t - tok_begin t)
         (match Parse (runes "create vpc") with inl t => t | inr _ => [] end).
Proof.
  apply (Parse_tokens_inside (runes "create vpc")).
  - apply runes_valid.
  - by vm_compute.
Defined.

End TreeFacts.

(** ** What [Execute] tells the builder *)

Module ProtocolFacts.
Import Peg PegFacts GrammarFacts.

(** Rules whose tokens [Execute] passes over: all but [rulePegText] and
    the fifteen action rules. *)
Definition quietRule (r : pegRule) : bool :=
  match r with
  | rulePegText
  | ruleAction0 | ruleAction1 | ruleAction2 | ruleAction3 | ruleAction4
  | ruleAction5 | ruleAction6 | ruleAction7 | ruleAction8 | ruleAction9
  | ruleAction10 | ruleAction11 | ruleAction12 | ruleAction13
  | ruleAction14 => false
  | _ => true
  end.

Definition quiet (l : list token32) : Prop :=
  Forall (fun t => quietRule (tok_rule t) = true) l.

(** Rune classes of the grammar's character sets. *)
Definition isDigit (c : rune) : Prop := (ch "0" <= c <= ch "9")%N.
Definition isIdentifierRune (c : rune) : Prop :=
  c = ch "." \/ c = ch "_" \/ c = ch "-" \/ isDigit c \/
  (ch "A" <= c <= ch "Z")%N \/ (ch "a" <= c <= ch "z")%N.
Definition isStringRune (c : rune) : Prop :=
  c = ch "/" \/ c = ch ":" \/ isIdentifierRune c.
Definition isCsvRune (c : rune) : Prop :=
  isStringRune c \/ c = ch "," \/ c = ch " " \/ c = ch "009".
Definition notEnd (c : rune) : Prop := c <> endSymbol.

(** A non-empty text over a class of runes. *)
Definition isText (C : rune -> Prop) (t : list rune) : Prop :=
  t <> [] /\ Forall C t.

(** Every rune between [lo] and [hi] is in the class. *)
Definition covers (C : rune -> Prop) (lo hi : ascii) : Prop :=
  forall c, (ch lo <= c <= ch hi)%N -> C c.

Ltac evalch :=
  repeat match goal with
         | |- context [ch ?a] =>
             let v := eval vm_compute in (ch a) in change (ch a) with v
         | H : context [ch ?a] |- _ =>
             let v := eval vm_compute in (ch a) in change (ch a) with v in H
         end.

Ltac classes :=
  unfold covers, isCsvRune, isStringRune, isIdentifierRune, isDigit, notEnd,
    endSymbol;
  intros; evalch; lia.

(** Languages of call sequences. *)
Definition lang := list call -> Prop.
Definition empty : lang := fun new => new = [].
Definition one (P : call -> Prop) : lang := fun new => exists c, new = [c] /\ P c.
Definition cat (L1 L2 : lang) : lang :=
  fun new => exists a b, new = a ++ b /\ L1 a /\ L2 b.
Definition many (L : lang) : lang :=
  fun new => exists blocks, new = concat blocks /\ Forall L blocks.

Section Protocol.
Variable buffer : list rune.

(** A success reads a run of runes of class [C] and nothing else. *)
Definition consumes (C : rune -> Prop) (p : parser) : Prop :=
  forall s s', p s = (true, s') ->
    exists l, Forall C l /\ position s' = position s + length l /\
              drop (position s) buffer = l ++ drop (position s') buffer.

(** Running [Execute] over [l] makes no call and leaves a text of [T] in
    the text register. *)
Definition keeps (T : list rune -> Prop) (l : list token32) : Prop :=
  forall text calls, exists t,
    fold_left (executeStep buffer) l (text, calls) = (t, calls) /\ T t.

(** Running [Execute] over [l], from any text register, adds a call
    sequence of [L]. *)
Definition says (L : lang) (l : list token32) : Prop :=
  forall text calls, exists new,
    snd (fold_left (executeStep buffer) l (text, calls)) = calls ++ new /\
    L new.

Definition captures (T : list rune -> Prop) : parser -> Prop :=
  emits (keeps T).
Definition speaks (L : lang) : parser -> Prop := emits (says L).

(** *** Quiet tokens *)

Lemma AppClosed_quiet : AppClosed quiet.
Proof.
  split; [apply Forall_nil_2|]. intros l1 l2 H1 H2; by apply Forall_app.
Qed.

Lemma single_quiet r : quietRule r = true -> single quiet r.
Proof. intros H b e; by apply Forall_singleton. Qed.

Lemma quiet_fold l st :
  quiet l -> fold_left (executeStep buffer) l st = st.
Proof.
  intros H; revert st; induction H as [|t l Ht _ IH]; intros [text calls];
    [done|].
  simpl. destruct (tok_rule t); try discriminate Ht; apply IH.
Qed.

(** *** Runs of runes *)

Lemma consumes_weaken (C D : rune -> Prop) p :
  (forall c, C c -> D c) -> consumes C p -> consumes D p.
Proof.
  intros HCD Hp s s' H; apply Hp in H as (l & F & E1 & E2).
  exists l; split; [|done]. eapply Forall_impl; eauto.
Qed.

Lemma consumes_here C p :
  (forall s s', p s = (true, s') -> position s' = position s) ->
  consumes C p.
Proof.
  intros Hp s s' H; apply Hp in H. exists []; simpl.
  rewrite H; split; [done|]. split; [lia | done].
Qed.

Lemma consumes_step C s c :
  C c -> buffer !! position s = Some c ->
  exists l, Forall C l /\ position (advance s) = position s + length l /\
            drop (position s) buffer = l ++ drop (position (advance s)) buffer.
Proof.
  intros Hc Hl; exists [c]; simpl.
  split; [by apply Forall_singleton|]. split; [lia | by apply drop_S].
Qed.

Lemma consumes_addHere C r : consumes C (addHere r).
Proof. apply consumes_here; intros s s' H; by inv H. Qed.

Lemma consumes_add C r b : consumes C (add r b).
Proof. apply consumes_here; intros s s' H; by inv H. Qed.

Lemma consumes_matchChar (C : rune -> Prop) c :
  C (ch c) -> consumes C (matchChar buffer c).
Proof.
  intros Hc s s' H; apply matchChar_true in H as [-> H].
  by apply (consumes_step C s (ch c)).
Qed.

Lemma consumes_matchRange C lo hi :
  covers C lo hi -> consumes C (matchRange buffer lo hi).
Proof.
  intros Hc s s'; unfold matchRange; cbv zeta.
  destruct (N.ltb_spec (peek buffer s) (ch lo)) as [|Hlo]; simpl; [done|].
  destruct (N.ltb_spec (ch hi) (peek buffer s)) as [|Hhi]; intros E; inv E.
  apply (consumes_step C s (peek buffer s)); [apply Hc; lia|].
  apply peek_lookup; [done|].
  pose proof (ch_lt hi); unfold endSymbol; lia.
Qed.

Lemma consumes_matchDot C :
  (forall c, c <> endSymbol -> C c) -> consumes C (matchDot buffer).
Proof.
  intros Hc s s'; unfold matchDot.
  destruct (N.eqb_spec (peek buffer s) endSymbol) as [|Hne]; intros E; inv E.
  apply (consumes_step C s (peek buffer s)); [by apply Hc | by apply peek_lookup].
Qed.

Lemma consumes_seq C p q : consumes C p -> consumes C q -> consumes C (seq p q).
Proof.
  intros Hp Hq s s' H; apply seq_true in H as (s1 & H1 & H2).
  apply Hp in H1 as (l1 & F1 & P1 & D1); apply Hq in H2 as (l2 & F2 & P2 & D2).
  exists (l1 ++ l2); split; [by apply Forall_app|].
  split; [rewrite length_app; lia|]. by rewrite D1, D2, app_assoc.
Qed.

Lemma consumes_alt C p q : consumes C p -> consumes C q -> consumes C (alt p q).
Proof.
  intros Hp Hq s s' H; apply alt_true in H as [H | (s1 & _ & H)].
  - by apply Hp.
  - by apply Hq in H.
Qed.

Lemma consumes_rule C p : consumes C p -> consumes C (rule p).
Proof. intros Hp s s' H; apply rule_true in H; by apply Hp. Qed.

Lemma consumes_tok C r p : consumes C p -> consumes C (tok r p).
Proof.
  intros Hp s s' H; apply tok_true in H as (s1 & H & ->); simpl.
  by apply Hp.
Qed.

Lemma consumes_opt C p : consumes C p -> consumes C (opt p).
Proof.
  intros Hp s s' H; apply opt_true in H as [H | (s1 & _ & ->)];
    [by apply Hp|].
  exists []; simpl; split; [done|]. split; [lia | done].
Qed.

Lemma consumes_notp C p : consumes C (notp p).
Proof.
  apply consumes_here; intros s s' H.
  by apply notp_true in H as (s1 & _ & ->).
Qed.

Lemma consumes_star_loop C p fuel :
  consumes C p -> consumes C (star_loop fuel p).
Proof.
  intros Hp; induction fuel as [|fuel IH]; intros s s'; simpl.
  - intros H; inv H. exists []; simpl; split; [done|]. split; [lia | done].
  - destruct (p s) as [[] s1] eqn:E; intros H.
    + apply Hp in E as (l1 & F1 & P1 & D1).
      apply IH in H as (l2 & F2 & P2 & D2).
      exists (l1 ++ l2); split; [by apply Forall_app|].
      split; [rewrite length_app; lia|]. by rewrite D1, D2, app_assoc.
    + inv H. exists []; simpl; split; [done|]. split; [lia | done].
Qed.

Lemma consumes_star C p : consumes C p -> consumes C (star buffer p).
Proof. intros Hp s s' H; by apply (consumes_star_loop C p _ Hp) in H. Qed.

Lemma consumes_switch C cases default :
  Forall (fun c => consumes C (snd c)) cases -> consumes C default ->
  consumes C (switch buffer cases default).
Proof.
  intros Hc Hd s s' H.
  destruct (switch_cases buffer cases default s) as [E | (c & Hin & E)];
    rewrite E in H; [by apply Hd|].
  rewrite Forall_forall in Hc; by apply (Hc c Hin).
Qed.

(** The text between the two positions is the run that was read. *)
Lemma consumes_slice C p s s' :
  consumes C p -> p s = (true, s') ->
  Forall C (slice buffer (position s) (position s')) /\
  length (slice buffer (position s) (position s'))
  = position s' - position s.
Proof.
  intros Hp H; apply Hp in H as (l & F & P & D).
  unfold slice; rewrite D, P.
  replace (position s + length l - position s) with (length l) by lia.
  by rewrite take_app_length.
Qed.

#[local] Existing Instance AppClosed_quiet.
Create HintDb lex discriminated.
Local Hint Resolve AppClosed_quiet : peg.
Local Hint Extern 1 (single quiet _) =>
  (apply single_quiet; reflexivity) : peg.
Local Hint Extern 1 (emits _ (snd _)) => progress simpl : peg.
Local Hint Extern 1 (emits _ (word _ _)) => unfold word : peg.
Local Hint Resolve consumes_addHere consumes_add consumes_matchChar
  consumes_matchRange consumes_seq consumes_alt
  consumes_rule consumes_tok consumes_opt consumes_notp consumes_star
  consumes_switch : lex.
Local Hint Constructors Forall : lex.
Local Hint Extern 1 (consumes _ (snd _)) => progress simpl : lex.
Local Hint Extern 1 (covers _ _ _) => solve [classes] : lex.
Local Hint Extern 1 (isIdentifierRune _) => solve [classes] : lex.
Local Hint Extern 1 (isStringRune _) => solve [classes] : lex.
Local Hint Extern 1 (isCsvRune _) => solve [classes] : lex.
Local Hint Extern 1 (isDigit _) => solve [classes] : lex.
Local Hint Extern 1 (notEnd _) => solve [classes] : lex.

Ltac lexing := auto 80 with lex.
Ltac quieting := auto 80 with peg.

Lemma quiet_Whitespace : emits quiet (Whitespace buffer).
Proof. unfold Whitespace; quieting. Qed.
Lemma quiet_EndOfLine : emits quiet (EndOfLine buffer).
Proof. unfold EndOfLine; quieting. Qed.
Local Hint Resolve quiet_Whitespace quiet_EndOfLine : peg.
Lemma quiet_Spacing : emits quiet (Spacing buffer).
Proof. unfold Spacing; quieting. Qed.
Lemma quiet_WhiteSpacing : emits quiet (WhiteSpacing buffer).
Proof. unfold WhiteSpacing; quieting. Qed.
Lemma quiet_MustWhiteSpacing : emits quiet (MustWhiteSpacing buffer).
Proof. unfold MustWhiteSpacing; quieting. Qed.
Local Hint Resolve quiet_Spacing quiet_WhiteSpacing quiet_MustWhiteSpacing
  : peg.
Lemma quiet_Equal : emits quiet (Equal buffer).
Proof. unfold Equal; quieting. Qed.
Lemma quiet_Identifier : emits quiet (Identifier buffer).
Proof. unfold Identifier, identifierChar; quieting. Qed.
Lemma quiet_StringValue : emits quiet (StringValue buffer).
Proof. unfold StringValue, stringValueChar; quieting. Qed.
Lemma quiet_digits : emits quiet (digits buffer).
Proof. unfold digits; quieting. Qed.
Local Hint Resolve quiet_Equal quiet_Identifier quiet_StringValue
  quiet_digits : peg.
Lemma quiet_CidrValue : emits quiet (CidrValue buffer).
Proof. unfold CidrValue; quieting. Qed.
Lemma quiet_IpValue : emits quiet (IpValue buffer).
Proof. unfold IpValue; quieting. Qed.
Lemma quiet_CSVValue : emits quiet (CSVValue buffer).
Proof. unfold CSVValue, csvItem; quieting. Qed.
Lemma quiet_IntRangeValue : emits quiet (IntRangeValue buffer).
Proof. unfold IntRangeValue; quieting. Qed.
Lemma quiet_IntValue : emits quiet (IntValue buffer).
Proof. unfold IntValue; quieting. Qed.
Lemma quiet_restOfLine : emits quiet (restOfLine buffer).
Proof. unfold restOfLine; quieting. Qed.
Lemma quiet_EndOfFile : emits quiet (EndOfFile buffer).
Proof. unfold EndOfFile; quieting. Qed.
Local Hint Resolve quiet_CidrValue quiet_IpValue quiet_CSVValue
  quiet_IntRangeValue quiet_IntValue quiet_restOfLine quiet_EndOfFile : peg.

Lemma consumes_Identifier : consumes isIdentifierRune (Identifier buffer).
Proof. unfold Identifier, identifierChar; lexing. Qed.
Lemma consumes_StringValue : consumes isStringRune (StringValue buffer).
Proof. unfold StringValue, stringValueChar; lexing. Qed.
Lemma consumes_StringValue_csv : consumes isCsvRune (StringValue buffer).
Proof.
  apply (consumes_weaken isStringRune); [by left | apply consumes_StringValue].
Qed.
Lemma consumes_digits C : covers C "0" "9" -> consumes C (digits buffer).
Proof. intros H; unfold digits; lexing. Qed.
Local Hint Resolve consumes_Identifier consumes_StringValue
  consumes_StringValue_csv consumes_digits : lex.
Lemma consumes_matchDot_notEnd : consumes notEnd (matchDot buffer).
Proof. by apply consumes_matchDot. Qed.
Local Hint Resolve consumes_matchDot_notEnd : lex.
Lemma consumes_CidrValue : consumes notEnd (CidrValue buffer).
Proof. unfold CidrValue; lexing. Qed.
Lemma consumes_IpValue : consumes notEnd (IpValue buffer).
Proof. unfold IpValue; lexing. Qed.
Lemma consumes_CSVValue : consumes isCsvRune (CSVValue buffer).
Proof. unfold CSVValue, csvItem, WhiteSpacing, Whitespace; lexing. Qed.
Lemma consumes_IntRangeValue : consumes isStringRune (IntRangeValue buffer).
Proof. unfold IntRangeValue; lexing. Qed.
Lemma consumes_IntValue : consumes isDigit (IntValue buffer).
Proof. unfold IntValue; lexing. Qed.

Lemma progressive_digits : progressive (digits buffer).
Proof.
  unfold digits; apply progressive_seq_l; [apply progressive_matchRange|].
  apply mono_star, progressive_mono, progressive_matchRange.
Qed.
Local Hint Resolve progressive_digits : peg.
Lemma progressive_CidrValue : progressive (CidrValue buffer).
Proof.
  unfold CidrValue; apply progressive_tok, progressive_seq_l;
    auto 40 with peg.
Qed.
Lemma progressive_IpValue : progressive (IpValue buffer).
Proof.
  unfold IpValue; apply progressive_tok, progressive_seq_l; auto 40 with peg.
Qed.
Lemma progressive_IntRangeValue : progressive (IntRangeValue buffer).
Proof.
  unfold IntRangeValue; apply progressive_tok, progressive_seq_l;
    auto 40 with peg.
Qed.
Lemma progressive_IntValue : progressive (IntValue buffer).
Proof. unfold IntValue; auto 40 with peg. Qed.

Lemma at_end : nth (length buffer) buffer endSymbol = endSymbol.
Proof. by apply nth_overflow. Qed.

Lemma progressive_CSVValue : progressive (CSVValue buffer).
Proof.
  pose proof (progressive_csvItem buffer _ at_end).
  pose proof (progressive_StringValue buffer _ at_end).
  unfold CSVValue; apply progressive_tok, progressive_seq_l;
    auto 40 with peg.
Qed.

(** *** The text register *)

Lemma captures_pegtext C p :
  consumes C p -> progressive p -> emits quiet p ->
  captures (isText C) (tok rulePegText p).
Proof.
  intros Hc Hp Hq s s' H; apply tok_true in H as (s1 & H & ->); simpl.
  destruct (Hq _ _ H) as (l & El & Ql).
  pose proof (Hp _ _ H) as Hlt.
  destruct (consumes_slice C p s s1 Hc H) as (F & Len).
  exists (l ++ [Token32 rulePegText (position s) (position s1)]).
  split; [by rewrite El, app_assoc|].
  intros text calls. rewrite fold_left_app, (quiet_fold _ _ Ql). simpl.
  eexists; split; [done|]. split; [|done].
  intros E; rewrite E in Len; simpl in Len; lia.
Qed.

Lemma captures_tok T r p :
  quietRule r = true -> captures T p -> captures T (tok r p).
Proof.
  intros Hr Hp s s' H; apply tok_true in H as (s1 & H & ->); simpl.
  apply Hp in H as (l & El & Kl).
  exists (l ++ [Token32 r (position s) (position s1)]).
  split; [by rewrite El, app_assoc|].
  intros text calls. destruct (Kl text calls) as (t & E & HT).
  exists t; split; [|done].
  rewrite fold_left_app, E. by destruct r.
Qed.

Lemma captures_seq_l T p q :
  emits quiet p -> captures T q -> captures T (seq p q).
Proof.
  intros Hp Hq s s' H; apply seq_true in H as (s1 & H1 & H2).
  apply Hp in H1 as (l1 & E1 & Q1); apply Hq in H2 as (l2 & E2 & K2).
  exists (l1 ++ l2); split; [by rewrite E2, E1, app_assoc|].
  intros text calls. rewrite fold_left_app, (quiet_fold _ _ Q1). apply K2.
Qed.

Lemma captures_seq_r T p q :
  captures T p -> emits quiet q -> captures T (seq p q).
Proof.
  intros Hp Hq s s' H; apply seq_true in H as (s1 & H1 & H2).
  apply Hp in H1 as (l1 & E1 & K1); apply Hq in H2 as (l2 & E2 & Q2).
  exists (l1 ++ l2); split; [by rewrite E2, E1, app_assoc|].
  intros text calls. rewrite fold_left_app, (quiet_fold _ _ Q2). apply K1.
Qed.

(** *** Call sequences *)

Lemma says_weaken (L L' : lang) l :
  (forall new, L new -> L' new) -> says L l -> says L' l.
Proof.
  intros HL H text calls. destruct (H text calls) as (new & E & Hn).
  exists new; auto.
Qed.

Lemma says_quiet l : quiet l -> says empty l.
Proof.
  intros H text calls. exists []; rewrite (quiet_fold _ _ H), app_nil_r.
  by split.
Qed.

Lemma says_app L1 L2 l1 l2 :
  says L1 l1 -> says L2 l2 -> says (cat L1 L2) (l1 ++ l2).
Proof.
  intros H1 H2 text calls. rewrite fold_left_app.
  destruct (H1 text calls) as (n1 & E1 & Hn1).
  destruct (fold_left (executeStep buffer) l1 (text, calls)) as [t1 c1].
  simpl in E1; subst c1.
  destruct (H2 t1 (calls ++ n1)) as (n2 & E2 & Hn2).
  exists (n1 ++ n2); split; [by rewrite E2, app_assoc|].
  by exists n1, n2.
Qed.

Lemma says_quiet_l L l1 l2 : quiet l1 -> says L l2 -> says L (l1 ++ l2).
Proof.
  intros H1 H2 text calls. rewrite fold_left_app, (quiet_fold _ _ H1).
  apply H2.
Qed.

Lemma says_quiet_r L l1 l2 : says L l1 -> quiet l2 -> says L (l1 ++ l2).
Proof.
  intros H1 H2 text calls. rewrite fold_left_app, (quiet_fold _ _ H2).
  apply H1.
Qed.

Lemma speaks_weaken (L L' : lang) p :
  (forall new, L new -> L' new) -> speaks L p -> speaks L' p.
Proof.
  intros HL Hp s s' H; apply Hp in H as (l & E & S).
  exists l; split; [done|]. by apply (says_weaken L).
Qed.

Lemma speaks_quiet p : emits quiet p -> speaks empty p.
Proof.
  intros Hp s s' H; apply Hp in H as (l & E & Q).
  exists l; split; [done|]. by apply says_quiet.
Qed.

Lemma speaks_seq L1 L2 p q :
  speaks L1 p -> speaks L2 q -> speaks (cat L1 L2) (seq p q).
Proof.
  intros Hp Hq s s' H; apply seq_true in H as (s1 & H1 & H2).
  apply Hp in H1 as (l1 & E1 & S1); apply Hq in H2 as (l2 & E2 & S2).
  exists (l1 ++ l2); split; [by rewrite E2, E1, app_assoc|].
  by apply says_app.
Qed.

Lemma speaks_seq_l L p q : emits quiet p -> speaks L q -> speaks L (seq p q).
Proof.
  intros Hp Hq s s' H; apply seq_true in H as (s1 & H1 & H2).
  apply Hp in H1 as (l1 & E1 & Q1); apply Hq in H2 as (l2 & E2 & S2).
  exists (l1 ++ l2); split; [by rewrite E2, E1, app_assoc|].
  by apply says_quiet_l.
Qed.

Lemma speaks_seq_r L p q : speaks L p -> emits quiet q -> speaks L (seq p q).
Proof.
  intros Hp Hq s s' H; apply seq_true in H as (s1 & H1 & H2).
  apply Hp in H1 as (l1 & E1 & S1); apply Hq in H2 as (l2 & E2 & Q2).
  exists (l1 ++ l2); split; [by rewrite E2, E1, app_assoc|].
  by apply says_quiet_r.
Qed.

Lemma speaks_seq_assoc L p q r :
  speaks L (seq (seq p q) r) -> speaks L (seq p (seq q r)).
Proof.
  intros H s s' E; apply H; revert E; unfold seq.
  run p s; [|done]. by destruct (q s0) as [[] ?].
Qed.

Lemma speaks_alt L p q : speaks L p -> speaks L q -> speaks L (alt p q).
Proof.
  intros Hp Hq s s' H; apply alt_true in H as [H | (s1 & _ & H)].
  - by apply Hp.
  - by apply Hq in H.
Qed.

Lemma speaks_rule L p : speaks L p -> speaks L (rule p).
Proof. intros Hp s s' H; apply rule_true in H; by apply Hp. Qed.

Lemma speaks_tok L r p :
  quietRule r = true -> speaks L p -> speaks L (tok r p).
Proof.
  intros Hr Hp s s' H; apply tok_true in H as (s1 & H & ->); simpl.
  apply Hp in H as (l & E & S).
  exists (l ++ [Token32 r (position s) (position s1)]).
  split; [by rewrite E, app_assoc|].
  apply says_quiet_r; [done|]. by apply Forall_singleton.
Qed.

Lemma speaks_opt (L : lang) p : L [] -> speaks L p -> speaks L (opt p).
Proof.
  intros HL Hp s s' H; apply opt_true in H as [H | (s1 & _ & ->)];
    [by apply Hp|].
  exists []; simpl; rewrite app_nil_r; split; [done|].
  intros text calls; exists []; by rewrite app_nil_r.
Qed.

Lemma many_cons (L : lang) a b : L a -> many L b -> many L (a ++ b).
Proof.
  intros Ha (blocks & -> & Hb). exists (a :: blocks); split; [done|].
  by apply Forall_cons_2.
Qed.

Lemma many_nil (L : lang) : many L [].
Proof. exists []; split; [done | apply Forall_nil_2]. Qed.

Lemma speaks_star_loop L p fuel :
  speaks L p -> speaks (many L) (star_loop fuel p).
Proof.
  intros Hp; induction fuel as [|fuel IH]; intros s s'; simpl.
  - intros H; inv H. exists []; rewrite app_nil_r; split; [done|].
    intros text calls; exists []; rewrite app_nil_r.
    split; [done | apply many_nil].
  - destruct (p s) as [[] s1] eqn:E; intros H.
    + apply Hp in E as (l1 & E1 & S1). apply IH in H as (l2 & E2 & S2).
      exists (l1 ++ l2); split; [by rewrite E2, E1, app_assoc|].
      apply (says_weaken (cat L (many L))); [|by apply says_app].
      intros new (a & b & -> & Ha & Hb). by apply many_cons.
    + inv H. exists []; simpl; rewrite app_nil_r; split; [done|].
      intros text calls; exists []; rewrite app_nil_r.
      split; [done | apply many_nil].
Qed.

Lemma speaks_star L p : speaks L p -> speaks (many L) (star buffer p).
Proof. intros Hp s s' H; by apply (speaks_star_loop L p _ Hp) in H. Qed.

Lemma speaks_switch L cases default :
  Forall (fun c => speaks L (snd c)) cases -> speaks L default ->
  speaks L (switch buffer cases default).
Proof.
  intros Hc Hd s s' H.
  destruct (switch_cases buffer cases default s) as [E | (c & Hin & E)];
    rewrite E in H; [by apply Hd|].
  rewrite Forall_forall in Hc; by apply (Hc c Hin).
Qed.

(** [<...> ActionN]: the text just captured goes to the builder. *)
Lemma speaks_unit (T : list rune -> Prop) (mk : list rune -> call) r p :
  (forall text calls b e,
     executeStep buffer (text, calls) (Token32 r b e)
     = (text, calls ++ [mk text])) ->
  captures T p ->
  speaks (one (fun c => exists t, c = mk t /\ T t)) (seq p (addHere r)).
Proof.
  intros Hr Hp s s' H; apply seq_true in H as (s1 & H & Ha); inv Ha.
  apply Hp in H as (l & E & K). simpl.
  exists (l ++ [Token32 r (position s1) (position s1)]).
  split; [by rewrite E, app_assoc|].
  intros text calls. destruct (K text calls) as (t & Et & HT).
  rewrite fold_left_app, Et. cbn [fold_left]. rewrite Hr; simpl.
  exists [mk t]; split; [done|]. exists (mk t); eauto.
Qed.

(** [Action3] and [Action14] call [LineDone]. *)
Lemma speaks_LineDone r :
  r = ruleAction3 \/ r = ruleAction14 ->
  speaks (one (eq LineDone)) (addHere r).
Proof.
  intros Hr s s' H; inv H; simpl.
  eexists; split; [done|]. intros text calls.
  exists [LineDone]; split; [by destruct Hr as [-> | ->]|].
  by exists LineDone.
Qed.

(** *** The calls of each rule *)

(** The call that a parameter value makes. *)
Inductive valueCall : call -> Prop :=
  | value_cidr t : isText notEnd t -> valueCall (addParamCidrValue t)
  | value_ip t : isText notEnd t -> valueCall (addParamIpValue t)
  | value_csv t : isText isCsvRune t -> valueCall (addCsvValue t)
  | value_string t : isText isStringRune t -> valueCall (addParamValue t)
  | value_alias w :
      isText isStringRune w -> valueCall (addParamValue (ch "@" :: w))
  | value_int t : isText isDigit t -> valueCall (addParamIntValue t)
  | value_ref t : isText isIdentifierRune t -> valueCall (addParamRefValue t)
  | value_hole t :
      isText isIdentifierRune t -> valueCall (addParamHoleValue t).

(** [addParamKey k] and the call of the value. *)
Definition paramBlock : lang :=
  fun new => exists k v,
    new = [addParamKey k; v] /\ isText isIdentifierRune k /\ valueCall v.

(** [addAction], [addEntity], the parameters, [LineDone]. *)
Definition exprBlock : lang :=
  fun new => exists a e ps,
    new = addAction a :: addEntity e :: concat ps ++ [LineDone] /\
    In a (map runes actionWords) /\ In e (map runes entityWords) /\
    Forall paramBlock ps.

Definition declarationBlock : lang :=
  fun new => exists id rest,
    new = addDeclarationIdentifier id :: rest /\
    isText isIdentifierRune id /\ exprBlock rest.

(** A [#] comment makes no call, a [//] comment calls [LineDone]. *)
Definition commentBlock : lang := fun new => new = [] \/ new = [LineDone].

Definition statementBlock : lang :=
  fun new => exprBlock new \/ declarationBlock new \/ commentBlock new.

Ltac unit T mk :=
  eapply speaks_weaken;
  [| apply (speaks_unit T mk); [by intros|]];
  [intros new (c & -> & t & -> & Ht); eexists; split;
   [done | by constructor] |].

Lemma speaks_valueCidr : speaks (one valueCall) (valueCidr buffer).
Proof.
  unfold valueCidr. unit (isText notEnd) addParamCidrValue.
  apply captures_pegtext;
    [apply consumes_CidrValue | apply progressive_CidrValue
     | apply quiet_CidrValue].
Qed.

Lemma speaks_valueIp : speaks (one valueCall) (valueIp buffer).
Proof.
  unfold valueIp. unit (isText notEnd) addParamIpValue.
  apply captures_pegtext;
    [apply consumes_IpValue | apply progressive_IpValue
     | apply quiet_IpValue].
Qed.

Lemma speaks_valueCSV : speaks (one valueCall) (valueCSV buffer).
Proof.
  unfold valueCSV. unit (isText isCsvRune) addCsvValue.
  apply captures_pegtext;
    [apply consumes_CSVValue | apply progressive_CSVValue
     | apply quiet_CSVValue].
Qed.

Lemma speaks_valueIntRange : speaks (one valueCall) (valueIntRange buffer).
Proof.
  unfold valueIntRange. unit (isText isStringRune) addParamValue.
  apply captures_pegtext;
    [apply consumes_IntRangeValue | apply progressive_IntRangeValue
     | apply quiet_IntRangeValue].
Qed.

Lemma speaks_valueInt : speaks (one valueCall) (valueInt buffer).
Proof.
  unfold valueInt. unit (isText isDigit) addParamIntValue.
  apply captures_pegtext;
    [apply consumes_IntValue | apply progressive_IntValue
     | apply quiet_IntValue].
Qed.

Lemma captures_Identifier :
  captures (isText isIdentifierRune) (tok rulePegText (Identifier buffer)).
Proof.
  apply captures_pegtext;
    [apply consumes_Identifier | apply (progressive_Identifier _ _ at_end)
     | apply quiet_Identifier].
Qed.

(** [AliasValue]: the captured text starts with the [@]. *)
Lemma captures_AliasValue :
  captures (fun t => exists w, t = ch "@" :: w /\ isText isStringRune w)
           (AliasValue buffer).
Proof.
  intros s s' H. unfold AliasValue in H.
  apply tok_true in H as (s2 & H & ->). apply tok_true in H as (s1 & H & ->).
  apply seq_true in H as (s0 & H0 & H). apply matchChar_true in H0 as [-> H0].
  pose proof (progressive_StringValue _ _ at_end _ _ H) as Hlt.
  destruct (consumes_slice _ _ _ _ consumes_StringValue H) as (F & Len).
  apply quiet_StringValue in H as (l & El & Ql). simpl in *.
  exists (l ++ [Token32 rulePegText (position s) (position s1);
                Token32 ruleAliasValue (position s) (position s1)]).
  split; [by rewrite El, <- !app_assoc|].
  intros text calls. rewrite fold_left_app, (quiet_fold _ _ Ql). simpl.
  eexists; split; [done|].
  exists (slice buffer (S (position s)) (position s1)).
  split; [|split; [|done]].
  - unfold slice. rewrite (drop_S _ _ _ H0).
    by replace (position s1 - position s)
      with (S (position s1 - S (position s))) by lia.
  - intros E; rewrite E in Len; simpl in Len; lia.
Qed.

Lemma speaks_valueSigil : speaks (one valueCall) (valueSigil buffer).
Proof.
  unfold valueSigil. apply speaks_switch; [repeat apply Forall_cons_2|];
    [simpl .. | apply Forall_nil_2 |].
  - unit (isText isIdentifierRune) addParamRefValue.
    unfold RefValue. apply captures_tok; [done|].
    apply captures_seq_l; [quieting | apply captures_Identifier].
  - eapply speaks_weaken;
      [|apply (speaks_unit _ addParamValue ruleAction6 _ ltac:(by intros)
                 captures_AliasValue)].
    intros new (c & -> & t & -> & w & -> & Hw).
    eexists; split; [done | by constructor].
  - unit (isText isIdentifierRune) addParamHoleValue.
    unfold HoleValue. apply captures_tok; [done|].
    apply captures_seq_l; [quieting|]. apply captures_seq_l; [quieting|].
    apply captures_seq_r; [apply captures_Identifier | quieting].
  - unit (isText isStringRune) addParamValue.
    apply captures_pegtext;
      [apply consumes_StringValue | apply (progressive_StringValue _ _ at_end)
       | apply quiet_StringValue].
Qed.

Lemma speaks_Value : speaks (one valueCall) (Value buffer).
Proof.
  unfold Value. apply speaks_tok; [done|].
  repeat apply speaks_alt;
    auto using speaks_valueCidr, speaks_valueIp, speaks_valueCSV,
      speaks_valueIntRange, speaks_valueInt, speaks_valueSigil.
Qed.

Lemma speaks_Param : speaks paramBlock (Param buffer).
Proof.
  unfold Param. apply speaks_tok; [done|]. apply speaks_seq_assoc.
  eapply speaks_weaken;
    [|apply speaks_seq;
      [apply (speaks_unit (isText isIdentifierRune) addParamKey);
       [by intros | apply captures_Identifier]
      |apply speaks_seq_l; [quieting|];
       apply speaks_seq_r; [apply speaks_Value | quieting]]].
  intros new (a & b & -> & (c & -> & k & -> & Hk) & (v & -> & Hv)).
  by exists k, v.
Qed.

Lemma speaks_Params : speaks (many paramBlock) (Params buffer).
Proof.
  unfold Params. apply speaks_tok; [done|].
  eapply speaks_weaken;
    [|apply speaks_seq; [apply speaks_Param | apply speaks_star, speaks_Param]].
  intros new (a & b & -> & Ha & Hb). by apply many_cons.
Qed.

Lemma captures_Action :
  captures (fun t => In t (map runes actionWords))
           (tok rulePegText (Action buffer)).
Proof.
  intros s s' H. apply tok_true in H as (s1 & H & ->).
  unfold Action in H. apply tok_true in H as (s0 & H & ->).
  apply picks_Action in H as (Ht & w & Hw & Hs).
  eexists; split; [simpl; rewrite Ht, <- !app_assoc; reflexivity|].
  intros text calls. exists (runes w).
  split; [simpl; by rewrite Hs | by apply in_map].
Qed.

Lemma captures_Entity :
  captures (fun t => In t (map runes entityWords))
           (tok rulePegText (Entity buffer)).
Proof.
  intros s s' H. apply tok_true in H as (s1 & H & ->).
  unfold Entity in H. apply tok_true in H as (s0 & H & ->).
  apply picks_Entity in H as (Ht & w & Hw & Hs).
  eexists; split; [simpl; rewrite Ht, <- !app_assoc; reflexivity|].
  intros text calls. exists (runes w).
  split; [simpl; by rewrite Hs | by apply in_map].
Qed.

Lemma speaks_Expr : speaks exprBlock (Expr buffer).
Proof.
  unfold Expr. apply speaks_rule, speaks_tok; [done|].
  apply speaks_seq_assoc.
  eapply speaks_weaken;
    [|apply speaks_seq;
      [apply (speaks_unit _ addAction ruleAction1 _ ltac:(by intros)
                captures_Action)|];
      apply speaks_seq_l; [quieting|]; apply speaks_seq_assoc;
      apply speaks_seq;
      [apply (speaks_unit _ addEntity ruleAction2 _ ltac:(by intros)
                captures_Entity)|];
      apply speaks_seq;
      [apply (speaks_opt (many paramBlock)); [apply many_nil|];
       apply speaks_seq_l; [quieting | apply speaks_Params]
      |apply speaks_LineDone; by left]].
  intros new (x & r1 & -> & (c1 & -> & a & -> & Ha)
              & y & r2 & -> & (c2 & -> & e & -> & He)
              & z & r3 & -> & (ps & -> & Hps) & (c3 & -> & <-)).
  by exists a, e, ps.
Qed.

Lemma speaks_Declaration : speaks declarationBlock (Declaration buffer).
Proof.
  unfold Declaration. apply speaks_tok; [done|]. apply speaks_seq_assoc.
  eapply speaks_weaken;
    [|apply speaks_seq;
      [apply (speaks_unit (isText isIdentifierRune) addDeclarationIdentifier);
       [by intros | apply captures_Identifier]
      |apply speaks_seq_l; [quieting | apply speaks_Expr]]].
  intros new (a & b & -> & (c & -> & k & -> & Hk) & Hb).
  by exists k, b.
Qed.

Lemma speaks_Comment : speaks commentBlock (Comment buffer).
Proof.
  unfold Comment. apply speaks_tok; [done|]. apply speaks_alt.
  - eapply speaks_weaken; [|apply speaks_quiet; quieting].
    intros new ->; by left.
  - eapply speaks_weaken;
      [|apply speaks_seq_l; [quieting|]; apply speaks_seq_l; [quieting|];
        apply speaks_seq_l; [quieting|]; apply speaks_LineDone; by right].
    intros new (c & -> & <-); by right.
Qed.

Lemma speaks_Statement : speaks statementBlock (Statement buffer).
Proof.
  unfold Statement. apply speaks_tok; [done|].
  apply speaks_seq_l; [quieting|]. apply speaks_seq_r; [|quieting].
  apply speaks_alt; [|apply speaks_alt].
  - eapply speaks_weaken; [|apply speaks_Expr]. by left.
  - eapply speaks_weaken; [|apply speaks_Declaration]. by right; left.
  - eapply speaks_weaken; [|apply speaks_Comment]. by right; right.
Qed.

Lemma speaks_Script : speaks (many statementBlock) (Script buffer).
Proof.
  unfold Script. apply speaks_rule, speaks_tok; [done|].
  apply speaks_seq_l; [quieting|].
  eapply speaks_weaken;
    [|apply speaks_seq;
      [apply speaks_Statement|];
      apply speaks_seq_r; [apply speaks_star, speaks_Statement | quieting]].
  intros new (a & b & -> & Ha & Hb). by apply many_cons.
Qed.

End Protocol.

(** *** The builder protocol *)

(** Where the builder stands between two calls: at the start of a line,
    after the name of a declaration, after the action, inside the
    parameter list, after a parameter key. *)
Inductive builderState : Set := Idle | Declared | Acted | Open | Keyed.

Definition builderStep (st : builderState) (c : call)
    : option builderState :=
  match st, c with
  | Idle, addDeclarationIdentifier _ => Some Declared
  | Idle, addAction _ => Some Acted
  | Idle, LineDone => Some Idle
  | Declared, addAction _ => Some Acted
  | Acted, addEntity _ => Some Open
  | Open, addParamKey _ => Some Keyed
  | Open, LineDone => Some Idle
  | Keyed, addParamHoleValue _ => Some Open
  | Keyed, addParamValue _ => Some Open
  | Keyed, addParamRefValue _ => Some Open
  | Keyed, addParamCidrValue _ => Some Open
  | Keyed, addParamIpValue _ => Some Open
  | Keyed, addCsvValue _ => Some Open
  | Keyed, addParamIntValue _ => Some Open
  | _, _ => None
  end.

Fixpoint builderRun (st : builderState) (calls : list call)
    : option builderState :=
  match calls with
  | [] => Some st
  | c :: rest =>
      match builderStep st c with
      | Some st' => builderRun st' rest
      | None => None
      end
  end.

(** The texts the grammar can hand to each callback. *)
Definition wellFormed (c : call) : Prop :=
  match c with
  | addDeclarationIdentifier t | addParamKey t
  | addParamRefValue t | addParamHoleValue t => isText isIdentifierRune t
  | addParamIntValue t => isText isDigit t
  | addParamValue t =>
      isText isStringRune t \/
      exists w, t = ch "@" :: w /\ isText isStringRune w
  | addCsvValue t => isText isCsvRune t
  | addParamCidrValue t | addParamIpValue t => isText notEnd t
  | addAction t => In t (map runes actionWords)
  | addEntity t => In t (map runes entityWords)
  | LineDone => True
  end.

Lemma Parse_blocks input toks :
  Parse input = inl toks ->
  many statementBlock (Execute (mkBuffer input) toks).
Proof.
  unfold Parse.
  destruct (Script (mkBuffer input) initState) as [[] s] eqn:E; [|done].
  intros H; inv H.
  apply speaks_Script in E as (l & El & S); simpl in El; subst l.
  destruct (S [] []) as (new & En & Hn). unfold Execute. by rewrite En.
Qed.

Lemma run_params ps rest :
  Forall paramBlock ps ->
  builderRun Open (concat ps ++ rest) = builderRun Open rest.
Proof.
  induction 1 as [|p ps (k & v & -> & _ & Hv) _ IH]; [done|].
  simpl. by destruct Hv.
Qed.

Lemma run_expr st new rest :
  exprBlock new -> st = Idle \/ st = Declared ->
  builderRun st (new ++ rest) = builderRun Idle rest.
Proof.
  intros (a & e & ps & -> & _ & _ & Hps) Hst.
  assert (E : builderRun st ((addAction a :: addEntity e
                               :: concat ps ++ [LineDone]) ++ rest)
              = builderRun Open (concat ps ++ LineDone :: rest)).
  { destruct Hst as [-> | ->]; simpl; by rewrite <- app_assoc. }
  rewrite E. by rewrite run_params.
Qed.

Lemma run_statement new rest :
  statementBlock new ->
  builderRun Idle (new ++ rest) = builderRun Idle rest.
Proof.
  intros [H | [(id & body & -> & _ & H) | [-> | ->]]]; [| |done..].
  - apply run_expr; auto.
  - simpl. apply run_expr; auto.
Qed.

Lemma wellFormed_value v : valueCall v -> wellFormed v.
Proof. destruct 1; simpl; eauto. Qed.

Lemma wellFormed_expr new : exprBlock new -> Forall wellFormed new.
Proof.
  intros (a & e & ps & -> & Ha & He & Hps).
  apply Forall_cons_2; [done|]. apply Forall_cons_2; [done|].
  apply Forall_app; split; [|by apply Forall_singleton].
  apply Forall_concat. eapply Forall_impl; [exact Hps|].
  intros p (k & v & -> & Hk & Hv).
  apply Forall_cons_2; [done|]. apply Forall_singleton.
  by apply wellFormed_value.
Qed.

Lemma wellFormed_statement new :
  statementBlock new -> Forall wellFormed new.
Proof.
  intros [H | [(id & body & -> & Hid & H) | [-> | ->]]].
  - by apply wellFormed_expr.
  - apply Forall_cons_2; [done | by apply wellFormed_expr].
  - apply Forall_nil_2.
  - by apply Forall_singleton.
Qed.

(** X2. The callbacks arrive in the order of the builder protocol: a line is
    an optional declared name, the action, the entity, then key and value
    in turn, and [LineDone]; a comment is at most a [LineDone]; the last
    line is complete. *)
Theorem Execute_call_order (input : list rune) (toks : list token32) :
  Parse input = inl toks ->
  builderRun Idle (Execute (mkBuffer input) toks) = Some Idle.
Proof.
  intros H; apply Parse_blocks in H as (blocks & -> & Hb).
  induction Hb as [|b blocks Hb _ IH]; [done|].
  simpl. by rewrite run_statement.
Qed.

Lemma Execute_call_order_witness :
  builderRun Idle
    (Execute (mkBuffer (runes "net = create subnet cidr=10.0.0.0/24 vpc=$v"))
       (match Parse (runes "net = create subnet cidr=10.0.0.0/24 vpc=$v")
        with inl t => t | inr _ => [] end))
  = Some Idle.
Proof.
  apply (Execute_call_order
           (runes "net = create subnet cidr=10.0.0.0/24 vpc=$v")).
  by vm_compute.
Defined.

(** X3. Every text handed to the builder is lexically well formed: names,
    keys, references and holes are non-empty runs of [a-zA-Z0-9-_.],
    integers are non-empty runs of digits, and so on for each callback. *)
Theorem Execute_texts (input : list rune) (toks : list token32) :
  Parse input = inl toks ->
  Forall wellFormed (Execute (mkBuffer input) toks).
Proof.
  intros H; apply Parse_blocks in H as (blocks & -> & Hb).
  apply Forall_concat. eapply Forall_impl; [exact Hb|].
  apply wellFormed_statement.
Qed.

Lemma Execute_texts_witness :
  Forall wellFormed
    (Execute (mkBuffer (runes "create instance count=3 name=@web id={ x }"))
       (match Parse (runes "create instance count=3 name=@web id={ x }")
        with inl t => t | inr _ => [] end)).
Proof.
  apply (Execute_texts (runes "create instance count=3 name=@web id={ x }")).
  by vm_compute.
Defined.

End ProtocolFacts.

(** ** [translatePositions] on any list of positions *)

Module PositionFacts.
Import Positions.

(** The positions passed over by the inner loop are the copies of [i];
    what remains lies strictly behind [i]. *)
Lemma skipEqual_sorted i later :
  Forall (le i) later -> StronglySorted le later ->
  (forall k, k ∈ later <-> k = i /\ k ∈ later \/ k ∈ skipEqual i later) /\
  Forall (lt i) (skipEqual i later) /\
  StronglySorted le (skipEqual i later).
Proof.
  induction later as [|q later IH]; intros Hle Hs.
  - simpl. split; [|split; [apply Forall_nil_2 | constructor]].
    intros k; split; [by intros ?%elem_of_nil|].
    by intros [[_ ?%elem_of_nil] | ?%elem_of_nil].
  - apply Forall_cons in Hle as [Hq Hle].
    pose proof Hs as Hs'. apply StronglySorted_inv in Hs' as [Hsl Hql].
    simpl. destruct (Nat.eqb_spec i q) as [<-|Hne].
    + destruct (IH Hle Hsl) as (Hin & Hlt & Hss).
      split; [|done]. intros k; specialize (Hin k).
      rewrite elem_of_cons. tauto.
    + split; [intros k; tauto|]. split; [|done].
      apply Forall_cons_2; [lia|].
      eapply Forall_impl; [exact Hql|]. simpl; intros; lia.
Qed.

Lemma search_sorted rest : forall pre ps m,
  ps <> [] -> StronglySorted le ps -> Forall (le (length pre)) ps ->
  exists m',
    searchLoop rest (length pre) ps (lineOf pre) (symbolOf pre) m = Some m' /\
    forall k,
      m' !! k = if decide (k ∈ ps /\ k < length pre + length rest)
                then Some (positionOf (pre ++ rest) k) else m !! k.
Proof.
  induction rest as [|c rest IH]; intros pre ps m Hne Hs Hle.
  - exists m; split; [done|]. intros k. case_decide as Hk; [|done].
    destruct Hk as [Hin Hlt]. rewrite Forall_forall in Hle.
    apply Hle in Hin. simpl in Hlt; lia.
  - destruct ps as [|p later]; [done|].
    rewrite searchLoop_cons, scan_step; cbv beta iota zeta.
    assert (Hlen : S (length pre) = length (pre ++ [c]))
      by (rewrite length_app; simpl; lia).
    assert (Happ : pre ++ c :: rest = (pre ++ [c]) ++ rest)
      by (by rewrite <- app_assoc).
    apply Forall_cons in Hle as [Hp Hle].
    pose proof Hs as Hs'. apply StronglySorted_inv in Hs' as [Hsl Hpl].
    destruct (Nat.eqb_spec (length pre) p) as [<-|Hnp].
    + destruct (skipEqual_sorted (length pre) later Hle Hsl)
        as (Hin & Hlt & Hss).
      rewrite <- positionOf_here with (rest := rest).
      destruct (skipEqual (length pre) later) as [|r rs] eqn:Er.
      * eexists; split; [reflexivity|]. intros k.
        destruct (decide (k = length pre)) as [->|Hk].
        -- rewrite lookup_insert_eq, decide_True; [done|].
           split; [by left | simpl; lia].
        -- rewrite lookup_insert_ne by done. rewrite decide_False; [done|].
           intros [Hkin _]. apply elem_of_cons in Hkin as [->|Hkin]; [done|].
           apply Hin in Hkin as [[-> _]|Hkin]; [done | by inv Hkin].
      * destruct (IH (pre ++ [c]) (r :: rs)
                    (<[length pre := positionOf (pre ++ c :: rest)
                                       (length pre)]> m))
          as (m' & Em & Hm'); [done | done | |].
        { rewrite <- Hlen. eapply Forall_impl; [exact Hlt|].
          simpl; intros; lia. }
        rewrite <- Hlen in Em. exists m'; split; [exact Em|].
        intros k. rewrite Hm', <- Hlen, <- Happ. simpl length.
        rewrite Forall_forall in Hlt.
        destruct (decide (k = length pre)) as [->|Hk].
        -- rewrite decide_False, lookup_insert_eq, decide_True; [done| |].
           ++ split; [by left | lia].
           ++ intros [Hkin _]. apply Hlt in Hkin. lia.
        -- rewrite lookup_insert_ne by done.
           apply decide_ext. specialize (Hin k). split.
           ++ intros [Hk1 Hk2]. split; [|lia]. right. apply Hin. by right.
           ++ intros [Hk1 Hk2]. split; [|lia].
              apply elem_of_cons in Hk1 as [->|Hk1]; [done|].
              by apply Hin in Hk1 as [[-> _]|Hk1].
    + destruct (IH (pre ++ [c]) (p :: later) m) as (m' & Em & Hm');
        [done | done | |].
      { rewrite <- Hlen. apply Forall_cons_2; [lia|].
        eapply Forall_impl; [exact Hpl|]. simpl; intros; lia. }
      rewrite <- Hlen in Em. exists m'; split; [exact Em|].
      intros k. rewrite Hm', <- Hlen, <- Happ. simpl length.
      apply decide_ext. intuition lia.
Qed.

(** X4. [translatePositions] returns, for every listed position inside the
    buffer, its line and symbol, and has no other entry: a position at
    or behind the end of the buffer stays untranslated and reads as the
    zero [textPosition]. *)
Theorem translatePositions_all (buffer : list rune) (positions : list nat) :
  positions <> [] ->
  exists m,
    translatePositions buffer positions = Some m /\
    forall k,
      m !! k = if decide (k ∈ positions /\ k < length buffer)
               then Some (positionOf buffer k) else None.
Proof.
  intros Hne. unfold translatePositions.
  pose proof (merge_sort_Permutation Nat.le positions) as Hperm.
  destruct (search_sorted buffer [] (merge_sort Nat.le positions) ∅)
    as (m & Em & Hm).
  - intros E; rewrite E in Hperm. symmetry in Hperm.
    by apply Permutation_nil_r in Hperm.
  - apply (StronglySorted_merge_sort Nat.le).
  - apply Forall_forall; simpl; intros; lia.
  - exists m; split; [exact Em|]. intros k; rewrite Hm; simpl.
    rewrite lookup_empty. apply decide_ext. by rewrite Hperm.
Qed.

Lemma translatePositions_all_witness :
  exists m,
    translatePositions (runes "ab") [7; 1; 1; 0] = Some m /\
    forall k,
      m !! k = if decide (k ∈ [7; 1; 1; 0] /\ k < length (runes "ab"))
               then Some (positionOf (runes "ab") k) else None.
Proof. by apply (translatePositions_all (runes "ab") [7; 1; 1; 0]). Defined.

End PositionFacts.

(** ** More generated drivers (package aws) *)

Module DriverMore.
Import Driver.

(** The fields of [ec2.CreateSubnetInput] that the dry run sets. *)
Record CreateSubnetInput : Set := {
  SubnetDryRun : option bool;
  SubnetCidrBlock : option string;
  SubnetVpcId : option string;
  AvailabilityZone : option string
}.

Section Drivers.

Variable paramValue : Type.
Variable setFieldWithType :
  forall I : Type, option paramValue -> I -> string -> fieldType ->
                   I * option goError.
Variable CreateSubnet : CreateSubnetInput -> option goError.
Variable fakeDryRunId : string -> string.

(** [(d *Ec2Driver) Create_Subnet_DryRun(params)]: two required
    parameters, then [zone], set only when the key is there. *)
Definition Create_Subnet_DryRun (params : gmap string paramValue)
  : (option string * option goError) * list logLine :=
  let input := {| SubnetDryRun := Some true; SubnetCidrBlock := None;
                  SubnetVpcId := None; AvailabilityZone := None |} in
  let '(input, err) :=
    setFieldWithType _ (params !! "cidr") input "CidrBlock" awsstr in
  match err with
  | Some _ => ((None, err), [])
  | None =>
      let '(input, err) :=
        setFieldWithType _ (params !! "vpc") input "VpcId" awsstr in
      match err with
      | Some _ => ((None, err), [])
      | None =>
          let '(input, err) :=
            match params !! "zone" with
            | Some _ =>
                setFieldWithType _ (params !! "zone") input
                  "AvailabilityZone" awsstr
            | None => (input, err)
            end in
          match err with
          | Some _ => ((None, err), [])
          | None =>
              dryRunOutcome fakeDryRunId "subnet"
                "full dry run: create subnet ok"
                "dry run: create subnet error: %s" (CreateSubnet input)
          end
      end
  end.

(** [errors.New("<what>: missing required params '<key>'")] *)
Definition missingParam (what key : string) : goError :=
  PlainErr (what +:+ ": missing required params '" +:+ key +:+ "'").

(** [(d *IamDriver) Attach_User_DryRun(params)] *)
Definition Attach_User_DryRun (params : gmap string paramValue)
  : (option string * option goError) * list logLine :=
  match params !! "group" with
  | None => ((None, Some (PlainErr
               "attach user: missing required params 'group'")), [])
  | Some _ =>
      match params !! "name" with
      | None => ((None, Some (PlainErr
                   "attach user: missing required params 'name'")), [])
      | Some _ => ((None, None), [Verbose "params dry run: attach user ok"])
      end
  end.

(** [(d *Elbv2Driver) Create_Listener_DryRun(params)] *)
Definition Create_Listener_DryRun (params : gmap string paramValue)
  : (option string * option goError) * list logLine :=
  match params !! "actiontype" with
  | None => ((None, Some (PlainErr
      "create listener: missing required params 'actiontype'")), [])
  | Some _ =>
  match params !! "target" with
  | None => ((None, Some (PlainErr
      "create listener: missing required params 'target'")), [])
  | Some _ =>
  match params !! "certificate" with
  | None => ((None, Some (PlainErr
      "create listener: missing required params 'certificate'")), [])
  | Some _ =>
  match params !! "loadbalancer" with
  | None => ((None, Some (PlainErr
      "create listener: missing required params 'loadbalancer'")), [])
  | Some _ =>
  match params !! "port" with
  | None => ((None, Some (PlainErr
      "create listener: missing required params 'port'")), [])
  | Some _ =>
  match params !! "protocol" with
  | None => ((None, Some (PlainErr
      "create listener: missing required params 'protocol'")), [])
  | Some _ =>
      ((None, None), [Verbose "params dry run: create listener ok"])
  end end end end end end.

End Drivers.

(** The first of the keys that the parameters lack. *)
Definition firstMissing {V : Type} (params : gmap string V)
    (required : list string) : option string :=
  find (fun k => bool_decide (params !! k = None)) required.

Definition listenerParams : list string :=
  ["actiontype"; "target"; "certificate"; "loadbalancer"; "port";
   "protocol"]%string.

Section DriverFacts.

Variable paramValue : Type.
Variable setFieldWithType :
  forall I : Type, option paramValue -> I -> string -> fieldType ->
                   I * option goError.
Variable fakeDryRunId : string -> string.

(** The three field assignments of [Create_Subnet_DryRun], in order. *)
Definition withCidr (params : gmap string paramValue) :=
  setFieldWithType _ (params !! "cidr"%string)
    {| SubnetDryRun := Some true; SubnetCidrBlock := None;
       SubnetVpcId := None; AvailabilityZone := None |} "CidrBlock" awsstr.
Definition withVpc (params : gmap string paramValue) :=
  setFieldWithType _ (params !! "vpc"%string) (fst (withCidr params))
    "VpcId" awsstr.
Definition withZone (params : gmap string paramValue) :=
  setFieldWithType _ (params !! "zone"%string) (fst (withVpc params))
    "AvailabilityZone" awsstr.

(** The parameters were all taken: the required ones, and [zone] when it
    is given. *)
Definition filled (params : gmap string paramValue) : Prop :=
  snd (withCidr params) = None /\ snd (withVpc params) = None /\
  (is_Some (params !! "zone"%string) -> snd (withZone params) = None).

(** The input that goes to the platform. *)
Definition subnetInput (params : gmap string paramValue) : CreateSubnetInput :=
  match params !! "zone"%string with
  | Some _ => fst (withZone params)
  | None => fst (withVpc params)
  end.

(** The first parameter that [setFieldWithType] refused. *)
Definition firstRefusal (params : gmap string paramValue) : option goError :=
  match snd (withCidr params) with
  | Some e => Some e
  | None =>
      match snd (withVpc params) with
      | Some e => Some e
      | None =>
          match params !! "zone"%string with
          | Some _ => snd (withZone params)
          | None => None
          end
      end
  end.

Lemma filled_refusal params : filled params <-> firstRefusal params = None.
Proof.
  unfold filled, firstRefusal.
  destruct (snd (withCidr params)); [split; [by intros [? _] | done]|].
  destruct (snd (withVpc params)); [split; [by intros (_ & ? & _) | done]|].
  destruct (params !! "zone"%string) as [v|].
  - split; [intros (_ & _ & H); by apply H | by intros ->].
  - split; [done|]. intros _. split; [done|]. split; [done|].
    by intros [? ?].
Qed.

Lemma Create_Subnet_DryRun_unfold CreateSubnet params :
  Create_Subnet_DryRun paramValue setFieldWithType CreateSubnet fakeDryRunId
    params
  = match firstRefusal params with
    | Some e => ((None, Some e), [])
    | None =>
        dryRunOutcome fakeDryRunId "subnet" "full dry run: create subnet ok"
          "dry run: create subnet error: %s"
          (CreateSubnet (subnetInput params))
    end.
Proof.
  unfold Create_Subnet_DryRun, firstRefusal, subnetInput, withZone, withVpc,
    withCidr.
  destruct (setFieldWithType _ (params !! "cidr"%string) _ _ _)
    as [i1 [e1|]]; simpl; [done|].
  destruct (setFieldWithType _ (params !! "vpc"%string) _ _ _)
    as [i2 [e2|]]; simpl; [done|].
  destruct (params !! "zone"%string) as [v|]; simpl; [|done].
  by destruct (setFieldWithType _ (Some v) _ _ _) as [i3 [e3|]].
Qed.

(** X11. [Create_Subnet_DryRun] with its optional parameter: it returns an
    identifier, [fakeDryRunId "subnet"], exactly when cidr and vpc were
    taken, zone was taken if given, and the platform answered the input
    so built with an error that counts as success.  Without the key
    [zone] the field AvailabilityZone is never set: what
    [setFieldWithType] would do with it plays no part. *)
Theorem Create_Subnet_DryRun_synthesis CreateSubnet
    (params : gmap string paramValue) :
  ((exists id,
      fst (Create_Subnet_DryRun paramValue setFieldWithType CreateSubnet
             fakeDryRunId params) = (Some id, None))
   <-> filled params /\
       exists e, CreateSubnet (subnetInput params) = Some e /\
                 DriverFacts.wouldSucceed e)
  /\ (forall id,
        fst (Create_Subnet_DryRun paramValue setFieldWithType CreateSubnet
               fakeDryRunId params) = (Some id, None) ->
        id = fakeDryRunId "subnet")
  /\ (params !! "zone"%string = None ->
      subnetInput params = fst (withVpc params)).
Proof.
  rewrite Create_Subnet_DryRun_unfold, filled_refusal.
  split; [|split].
  - destruct (firstRefusal params) as [e|]; simpl.
    + split; [by intros [id H] | by intros [H _]].
    + rewrite (proj1 (DriverFacts.dryRunOutcome_spec _ _ _ _ _)).
      split; [by split | by intros [_ H]].
  - destruct (firstRefusal params) as [e|]; simpl; [done|].
    apply DriverFacts.dryRunOutcome_spec.
  - unfold subnetInput. by intros ->.
Qed.

(** X12. A parameter that [setFieldWithType] refuses ends the dry run before
    the platform is asked: the first refusal, in the order cidr, vpc,
    zone, is the error returned, nothing is logged, and the outcome is
    the same whatever the platform would have answered. *)
Theorem Create_Subnet_DryRun_refusal CreateSubnet CreateSubnet'
    (params : gmap string paramValue) (e : goError) :
  firstRefusal params = Some e ->
  Create_Subnet_DryRun paramValue setFieldWithType CreateSubnet fakeDryRunId
    params = ((None, Some e), [])
  /\ Create_Subnet_DryRun paramValue setFieldWithType CreateSubnet'
       fakeDryRunId params
     = Create_Subnet_DryRun paramValue setFieldWithType CreateSubnet
         fakeDryRunId params.
Proof. intros H. rewrite !Create_Subnet_DryRun_unfold, H. done. Qed.

(** X13. A params-only dry run looks at the keys alone: it reports the first
    missing key in the order of the source and logs nothing, or, with
    all six keys there (whatever their values), logs the ok line and
    returns neither an identifier nor an error. *)
Theorem Create_Listener_DryRun_first_missing
    (params : gmap string paramValue) :
  Create_Listener_DryRun paramValue params
  = match firstMissing params listenerParams with
    | Some key => ((None, Some (missingParam "create listener" key)), [])
    | None => ((None, None), [Verbose "params dry run: create listener ok"])
    end.
Proof.
  unfold Create_Listener_DryRun, firstMissing, listenerParams; simpl.
  repeat (match goal with
          | |- context [params !! ?k] => destruct (params !! k)
          end; simpl; [|done]).
  done.
Qed.

(** X14. [Attach_User_DryRun] succeeds exactly when both keys are there, and
    then returns no identifier; it names [group] before [name]. *)
Theorem Attach_User_DryRun_keys (params : gmap string paramValue) :
  (Attach_User_DryRun paramValue params
   = ((None, None), [Verbose "params dry run: attach user ok"])
   <-> is_Some (params !! "group"%string) /\
       is_Some (params !! "name"%string))
  /\ (params !! "group"%string = None ->
      Attach_User_DryRun paramValue params
      = ((None, Some (missingParam "attach user" "group")), []))
  /\ (is_Some (params !! "group"%string) ->
      params !! "name"%string = None ->
      Attach_User_DryRun paramValue params
      = ((None, Some (missingParam "attach user" "name")), [])).
Proof.
  unfold Attach_User_DryRun.
  destruct (params !! "group"%string) as [g|];
    destruct (params !! "name"%string) as [n|]; simpl.
  - split; [split; [eauto | done]|]. split; [done|]. done.
  - split; [split; [done | by intros [_ [? ?]]]|]. split; [done|]. done.
  - split; [split; [done | by intros [[? ?] _]]|]. split; [done|].
    by intros [? ?].
  - split; [split; [done | by intros [[? ?] _]]|]. split; [done|].
    by intros [? ?].
Qed.

End DriverFacts.

(** Parameters for the examples. *)
Definition refuseCidr (I : Type) (v : option string) (i : I) (field : string)
    (_ : fieldType) : I * option goError :=
  (i, if String.eqb field "CidrBlock" then Some (PlainErr "bad cidr")
      else None).

Definition subnetParams : gmap string string :=
  {[ "cidr"%string := "10.0.0.0/24"%string; "vpc"%string := "vpc-1"%string ]}.

End DriverMore.

Lemma Create_Subnet_DryRun_synthesis_witness :
  DriverMore.subnetInput string DriverFacts.noFill DriverMore.subnetParams
  = fst (DriverMore.withVpc string DriverFacts.noFill DriverMore.subnetParams).
Proof.
  apply (proj2 (proj2 (DriverMore.Create_Subnet_DryRun_synthesis string
           DriverFacts.noFill (fun e => ("dryrun-" +:+ e)%string)
           (fun _ => None) DriverMore.subnetParams))).
  by vm_compute.
Defined.

Lemma Create_Subnet_DryRun_refusal_witness :
  DriverMore.Create_Subnet_DryRun string DriverMore.refuseCidr
    (fun _ => None) (fun e => ("dryrun-" +:+ e)%string)
    DriverMore.subnetParams
  = ((None, Some (Driver.PlainErr "bad cidr")), []).
Proof.
  apply (DriverMore.Create_Subnet_DryRun_refusal string DriverMore.refuseCidr
           (fun e => ("dryrun-" +:+ e)%string) (fun _ => None)
           (fun _ => None) DriverMore.subnetParams).
  by vm_compute.
Defined.

Lemma Attach_User_DryRun_keys_witness :
  DriverMore.Attach_User_DryRun string DriverMore.subnetParams
  = ((None, Some (DriverMore.missingParam "attach user" "group")), []).
Proof.
  apply (proj1 (proj2 (DriverMore.Attach_User_DryRun_keys string
                         DriverMore.subnetParams))).
  by vm_compute.
Defined.

(** ** The revert command and its database handle *)

Module RevertCmdMore.
Import RevertCmd.

Section Command.
Variables exec tpl : Type.
Variable databaseCurrent : option string.
Variable GetTemplateExecution : string -> exec * option string.
Variable Revert : exec -> tpl * option string.
Variable render : tpl -> string.
Variable runTemplate : tpl -> option string.

(** An event that uses the database. *)
Definition usesDatabase (ev : event exec tpl) : Prop :=
  match ev with
  | EvGetTemplateExecution _ | EvDbClose => True
  | _ => False
  end.

(** X15. The database is closed right after the one lookup, before the error of
    the lookup is examined, so also when the lookup failed; nothing
    touches it afterwards.  When it could not be opened it is neither
    read nor closed. *)
Theorem revert_closes_database (revertId : string) (rest : list string) :
  let tr := snd (run exec tpl databaseCurrent GetTemplateExecution Revert
                   render runTemplate (revertId :: rest)) in
  (databaseCurrent <> None -> tr = [EvDatabaseCurrent])
  /\ (databaseCurrent = None ->
      exists after,
        tr = [EvDatabaseCurrent; EvGetTemplateExecution revertId; EvDbClose]
             ++ after
        /\ Forall (fun ev => ~ usesDatabase ev) after).
Proof.
  unfold run, RunE; simpl. unfold bind, emit, exitOn; simpl.
  split.
  - by destruct databaseCurrent.
  - intros ->; simpl.
    destruct (GetTemplateExecution revertId) as [tplExec [e|]]; simpl;
      [exists []; split; [done | constructor]|].
    destruct (Revert tplExec) as [reverted [e|]]; simpl.
    + eexists [_]; split; [done|]. repeat constructor; by intros [].
    + exists [EvRevert tplExec; EvPrintf (render reverted +:+ String "010" "");
              EvRunTemplate reverted].
      split; [by destruct (runTemplate reverted)|].
      repeat constructor; by intros [].
Qed.

End Command.
End RevertCmdMore.

Lemma revert_closes_database_witness :
  exists after,
    snd (RevertCmd.run nat string None (fun _ => (0, Some "no such id"%string))
           (fun _ => (""%string, None)) (fun t => t) (fun _ => None)
           ["01BA7RV6ES86PZYCM3H28WM6KZ"%string])
    = [RevertCmd.EvDatabaseCurrent;
       RevertCmd.EvGetTemplateExecution "01BA7RV6ES86PZYCM3H28WM6KZ";
       RevertCmd.EvDbClose] ++ after
    /\ Forall (fun ev => ~ RevertCmdMore.usesDatabase nat string ev) after.
Proof.
  apply (RevertCmdMore.revert_closes_database nat string None
           (fun _ => (0, Some "no such id"%string))
           (fun _ => (""%string, None)) (fun t => t) (fun _ => None)
           "01BA7RV6ES86PZYCM3H28WM6KZ"%string []).
  reflexivity.
Defined.

(** ** Statements and comments *)

Module ScriptFacts.
Import Peg PegFacts GrammarFacts ProtocolFacts.

(** Blanks and line breaks, what [Spacing] passes over. *)
Definition isBlank (c : rune) : Prop :=
  c = ch " " \/ c = ch "009" \/ c = ch "013" \/ c = ch "010".

(** The runes a statement can begin with. *)
Definition startsStatement (c : rune) : Prop :=
  isIdentifierRune c \/ c = ch "#" \/ c = ch "/".

(** A rune inside a line: no line break and not the end of the buffer. *)
Definition inLine (c : rune) : Prop :=
  c <> ch "010" /\ c <> ch "013" /\ c <> endSymbol.

Section Statements.
Variable buffer : list rune.

Lemma drop_head k (c : rune) r : drop k buffer = c :: r -> buffer !! k = Some c.
Proof.
  intros H. rewrite <- (Nat.add_0_r k), <- lookup_drop. by rewrite H.
Qed.

Lemma actionWords_start w :
  In w actionWords -> exists c r, runes w = c :: r /\ isIdentifierRune c.
Proof.
  unfold actionWords; simpl.
  intros H;
    repeat (destruct H as [<-|H];
            [eexists _, _; split;
             [reflexivity | right; right; right; right; right; by vm_compute]
            |]).
  done.
Qed.

Lemma Statement_start s s' :
  Statement buffer s = (true, s') ->
  exists k c, buffer !! k = Some c /\ startsStatement c.
Proof.
  unfold Statement; intros H. apply tok_true in H as (s4 & H & _).
  apply seq_true in H as (s1 & _ & H). apply seq_true in H as (s2 & H & _).
  apply alt_true in H as [H | (s0 & _ & H)].
  - unfold Expr in H. apply rule_true, tok_true in H as (s5 & H & _).
    apply seq_true in H as (s6 & H & _). apply tok_true in H as (s7 & H & _).
    unfold Action in H. apply tok_true in H as (s8 & H & _).
    eapply picks_prefix in H as (w & Hw & Hd); [|apply picks_Action|].
    + apply actionWords_start in Hw as (c & r & Er & Hc). rewrite Er in Hd.
      exists (position s1), c. split; [by eapply drop_head | by left].
    + exact (good_mono _ _ (good_actionWord buffer _ (at_end buffer))).
  - apply alt_true in H as [H | (s5 & _ & H)].
    + unfold Declaration in H. apply tok_true in H as (s6 & H & _).
      apply seq_true in H as (s7 & H & _). apply tok_true in H as (s8 & H & _).
      pose proof (progressive_Identifier _ _ (at_end buffer) _ _ H) as Hlt.
      apply consumes_Identifier in H as (l & F & Hp & Hd).
      destruct l as [|c l]; [simpl in *; lia|].
      apply Forall_cons in F as [Hc _]. simpl in Hd.
      eexists _, c. split; [by eapply drop_head | by left].
    + unfold Comment in H. apply tok_true in H as (s6 & H & _).
      apply alt_true in H as [H | (s7 & _ & H)];
        apply seq_true in H as (s8 & H & _);
        apply matchChar_true in H as [_ H];
        eexists _, _; (split; [exact H|]); right; [by left | by right].
Qed.

(** *** The rest of a line *)

Lemma peek_restore s s1 : peek buffer (restore s s1) = peek buffer s.
Proof. done. Qed.

Lemma lookup_peek s c : buffer !! position s = Some c -> peek buffer s = c.
Proof. unfold peek; rewrite nth_lookup; by intros ->. Qed.

Lemma EndOfLine_peek s :
  fst (EndOfLine buffer s) = true <->
  peek buffer s = ch "013" \/ peek buffer s = ch "010".
Proof.
  split.
  - destruct (EndOfLine buffer s) as [[] s'] eqn:E; [intros _ | done].
    unfold EndOfLine in E. apply rule_true, tok_true in E as (s1 & E & _).
    apply alt_true in E as [E | (s2 & _ & E)].
    + apply seq_true in E as (s3 & E & _).
      apply matchChar_true in E as [_ E]. left; by apply lookup_peek.
    + apply alt_true in E as [E | (s3 & _ & E)];
        apply matchChar_true in E as [_ E]; simpl in E;
        [right | left]; by apply lookup_peek.
  - unfold EndOfLine, rule, tok, seq, alt, matchChar, add, peek; simpl.
    intros [E | E]; rewrite !E; simpl; [|done].
    by destruct (N.eqb _ _).
Qed.

Lemma restOfLine_body_true s s' :
  seq (notp (EndOfLine buffer)) (matchDot buffer) s = (true, s') ->
  inLine (peek buffer s) /\ position s' = S (position s) /\
  buffer !! position s = Some (peek buffer s).
Proof.
  intros H; apply seq_true in H as (s1 & H1 & H2).
  apply notp_true in H1 as (s2 & H1 & ->).
  unfold matchDot in H2; rewrite peek_restore in H2.
  destruct (N.eqb_spec (peek buffer s) endSymbol) as [|Hne]; inv H2.
  assert (Hf : fst (EndOfLine buffer s) = false) by (by rewrite H1).
  assert (Hn : ~ (peek buffer s = ch "013" \/ peek buffer s = ch "010"))
    by (rewrite <- EndOfLine_peek, Hf; done).
  split; [|split; [done | by apply peek_lookup]].
  unfold inLine; tauto.
Qed.

Lemma restOfLine_body_false s s' :
  seq (notp (EndOfLine buffer)) (matchDot buffer) s = (false, s') ->
  ~ inLine (peek buffer s).
Proof.
  intros H (H1 & H2 & H3).
  apply seq_false_first in H as [H | (s1 & Hn & H)].
  - unfold notp in H. destruct (EndOfLine buffer s) as [[] s2] eqn:E; inv H.
    assert (Hf : fst (EndOfLine buffer s) = true) by (by rewrite E).
    apply EndOfLine_peek in Hf as [Hf | Hf]; congruence.
  - apply notp_true in Hn as (s2 & _ & ->).
    unfold matchDot in H; rewrite peek_restore in H.
    by destruct (N.eqb_spec (peek buffer s) endSymbol).
Qed.

Lemma restOfLine_loop fuel : forall s s',
  length buffer - position s < fuel ->
  star_loop fuel (seq (notp (EndOfLine buffer)) (matchDot buffer)) s
  = (true, s') ->
  exists l, drop (position s) buffer = l ++ drop (position s') buffer /\
            Forall inLine l /\ ~ inLine (peek buffer s').
Proof.
  induction fuel as [|fuel IH]; intros s s' Hf; [lia|]. simpl.
  destruct (seq (notp (EndOfLine buffer)) (matchDot buffer) s)
    as [[] s1] eqn:E; intros H.
  - apply restOfLine_body_true in E as (Hin & Hp & Hl).
    apply lookup_lt_Some in Hl as Hlt.
    apply IH in H as (l & Hd & F & Hend); [|lia].
    exists (peek buffer s :: l). split; [|split; [by constructor | done]].
    rewrite (drop_S _ _ _ Hl). rewrite Hp in Hd. by rewrite Hd.
  - inv H. apply restOfLine_body_false in E.
    exists []; split; [done|]. split; [constructor | done].
Qed.

Lemma restOfLine_true s s' :
  restOfLine buffer s = (true, s') ->
  exists l, drop (position s) buffer = l ++ drop (position s') buffer /\
            Forall inLine l /\ ~ inLine (peek buffer s').
Proof. unfold restOfLine, star. apply restOfLine_loop. lia. Qed.

(** X5. A comment is its mark, [#] or [//], and the rest of the line: it
    runs up to the first line break or the end of the text, which it
    leaves unread. *)
Theorem Comment_runs_to_line_end (s s' : pstate) :
  Comment buffer s = (true, s') ->
  exists mark body,
    (mark = [ch "#"] \/ mark = [ch "/"; ch "/"]) /\
    drop (position s) buffer = mark ++ body ++ drop (position s') buffer /\
    Forall inLine body /\ ~ inLine (peek buffer s').
Proof.
  unfold Comment; intros H. apply tok_true in H as (s1 & H & ->).
  apply alt_true in H as [H | (s0 & _ & H)].
  - apply seq_true in H as (s2 & H1 & H2).
    apply matchChar_true in H1 as [-> H1].
    apply restOfLine_true in H2 as (l & Hd & F & Hend).
    exists [ch "#"], l. split; [by left|]. split; [|done].
    rewrite (drop_S _ _ _ H1). simpl in *. by rewrite Hd.
  - apply seq_true in H as (s2 & H1 & H). apply seq_true in H as (s3 & H2 & H).
    apply seq_true in H as (s4 & H3 & H4). inv H4.
    apply matchChar_true in H1 as [-> H1]. apply matchChar_true in H2 as [-> H2].
    apply restOfLine_true in H3 as (l & Hd & F & Hend).
    exists [ch "/"; ch "/"], l. split; [by right|]. split; [|done].
    simpl in *. rewrite (drop_S _ _ _ H1), (drop_S _ _ _ H2).
    by rewrite Hd.
Qed.

End Statements.

(** X6. A text of blanks and line breaks only, the empty text included, is
    no script: there must be a statement. *)
Theorem Parse_blank_rejected (input : list rune) :
  Forall isBlank input -> exists e, Parse input = inr e.
Proof.
  intros Hb. unfold Parse.
  destruct (Script (mkBuffer input) initState) as [[] s] eqn:E; [|eauto].
  exfalso. unfold Script in E.
  apply rule_true, tok_true in E as (s1 & E & _).
  apply seq_true in E as (s2 & _ & E). apply seq_true in E as (s3 & E & _).
  apply Statement_start in E as (k & c & Hk & Hc).
  assert (Hin : c ∈ input).
  { apply list_elem_of_lookup_2 in Hk. unfold mkBuffer in Hk.
    assert (Hne : c <> endSymbol) by (revert Hc; unfold startsStatement; classes).
    destruct (last input) as [d|]; [destruct (N.eqb d endSymbol); [done|]|];
      apply elem_of_app in Hk as [Hk | Hk]; try done;
      apply list_elem_of_singleton in Hk; done. }
  rewrite Forall_forall in Hb. apply Hb in Hin.
  revert Hc Hin; unfold startsStatement, isBlank; classes.
Qed.

Lemma Parse_blank_rejected_witness :
  exists e, Parse [ch " "; ch "009"; ch "010"] = inr e.
Proof.
  apply Parse_blank_rejected.
  repeat (apply Forall_cons_2; [unfold isBlank; vm_compute; lia|]).
  apply Forall_nil_2.
Defined.

Lemma Comment_runs_to_line_end_witness :
  exists mark body,
    (mark = [ch "#"] \/ mark = [ch "/"; ch "/"]) /\
    drop 0 (mkBuffer (runes "// x")) =
      mark ++ body ++
      drop (position (snd (Comment (mkBuffer (runes "// x")) initState)))
        (mkBuffer (runes "// x")) /\
    Forall inLine body /\
    ~ inLine (peek (mkBuffer (runes "// x"))
                (snd (Comment (mkBuffer (runes "// x")) initState))).
Proof.
  apply (Comment_runs_to_line_end (mkBuffer (runes "// x")) initState).
  by vm_compute.
Defined.

End ScriptFacts.

(** ** [tokens32.AST]: the syntax tree built from the token list *)

Module Ast.

(** [node32]: a token with its children, the chain that starts at [up]
    and is linked by [next]. *)
#[local] Unset Elimination Schemes.
Inductive node32 : Set :=
  | Node32 (node_token : token32) (up : list node32).
#[local] Set Elimination Schemes.

Definition nodeToken (n : node32) : token32 :=
  match n with Node32 t _ => t end.

(** [for stack != nil && stack.node.begin >= token.begin &&
         stack.node.end <= token.end]:
    the top of the stack becomes the first child of the new node. *)
Fixpoint adopt (token : token32) (stack up : list node32)
    : list node32 * list node32 :=
  match stack with
  | n :: down =>
      if (tok_begin token <=? tok_begin (nodeToken n))
         && (tok_end (nodeToken n) <=? tok_end token)
      then adopt token down (n :: up)
      else (up, stack)
  | [] => (up, [])
  end.

(** One round of the loop over the tokens; empty tokens are skipped. *)
Definition astStep (stack : list node32) (token : token32) : list node32 :=
  if tok_begin token =? tok_end token then stack
  else let '(up, down) := adopt token stack [] in Node32 token up :: down.

(** [t.AST()]: the node on top of the stack, nil for an empty stack. *)
Definition AST (tokens : list token32) : option node32 :=
  head (fold_left astStep tokens []).

(** The tokens of a tree, children before their parent. *)
Fixpoint flatten (n : node32) : list token32 :=
  match n with
  | Node32 t up => flat_map flatten up ++ [t]
  end.

Definition nonEmpty (t : token32) : bool := negb (tok_begin t =? tok_end t).

End Ast.

Module AstFacts.
Import Peg PegFacts GrammarFacts TreeFacts Ast.

Lemma adopt_spec token : forall stack up,
  exists popped,
    stack = popped ++ snd (adopt token stack up) /\
    fst (adopt token stack up) = reverse popped ++ up.
Proof.
  induction stack as [|n down IH]; intros up; simpl.
  - by exists [].
  - destruct (_ && _).
    + destruct (IH (n :: up)) as (popped & E1 & E2).
      exists (n :: popped); split; [simpl; by rewrite <- E1|].
      rewrite E2, reverse_cons, <- app_assoc. done.
    + by exists [].
Qed.

Lemma adopt_all token : forall stack up,
  Forall (fun n => within (tok_begin token) (tok_end token) (nodeToken n))
         stack ->
  adopt token stack up = (reverse stack ++ up, []).
Proof.
  induction stack as [|n down IH]; intros up H; simpl; [done|].
  apply Forall_cons in H as [(H1 & H2 & H3) H].
  rewrite (proj2 (Nat.leb_le _ _) H1), (proj2 (Nat.leb_le _ _) H3); simpl.
  rewrite IH, reverse_cons, <- app_assoc by done. done.
Qed.

Lemma flat_map_app_nodes (l1 l2 : list node32) :
  flat_map flatten (l1 ++ l2) = flat_map flatten l1 ++ flat_map flatten l2.
Proof. apply flat_map_app. Qed.

(** The stack holds the non-empty tokens read so far, in their order. *)
Lemma astStep_flatten stack token :
  flat_map flatten (reverse (astStep stack token))
  = flat_map flatten (reverse stack)
    ++ (if nonEmpty token then [token] else []).
Proof.
  unfold astStep, nonEmpty.
  destruct (tok_begin token =? tok_end token); simpl;
    [by rewrite app_nil_r|].
  destruct (adopt_spec token stack []) as (popped & E1 & E2).
  destruct (adopt token stack []) as [up down]; simpl in *.
  rewrite app_nil_r in E2; subst up.
  rewrite reverse_cons, flat_map_app_nodes. simpl.
  rewrite app_nil_r, app_assoc. f_equal.
  by rewrite E1, reverse_app, flat_map_app_nodes.
Qed.

Lemma fold_flatten toks : forall stack,
  flat_map flatten (reverse (fold_left astStep toks stack))
  = flat_map flatten (reverse stack) ++ filter (fun t => nonEmpty t) toks.
Proof.
  induction toks as [|t toks IH]; intros stack; simpl;
    [by rewrite app_nil_r|].
  rewrite IH, astStep_flatten, <- app_assoc. f_equal.
  rewrite filter_cons. by destruct (nonEmpty t).
Qed.

Lemma astStep_within lo hi stack token :
  within lo hi token ->
  Forall (fun n => within lo hi (nodeToken n)) stack ->
  Forall (fun n => within lo hi (nodeToken n)) (astStep stack token).
Proof.
  intros Ht Hs. unfold astStep.
  destruct (tok_begin token =? tok_end token); [done|].
  destruct (adopt_spec token stack []) as (popped & E1 & _).
  destruct (adopt token stack []) as [up down]; simpl in *.
  apply Forall_cons_2; [done|].
  rewrite E1 in Hs. by apply Forall_app in Hs as [_ Hs].
Qed.

Lemma fold_within lo hi toks : forall stack,
  Forall (within lo hi) toks ->
  Forall (fun n => within lo hi (nodeToken n)) stack ->
  Forall (fun n => within lo hi (nodeToken n)) (fold_left astStep toks stack).
Proof.
  induction toks as [|t toks IH]; intros stack Ht Hs; simpl; [done|].
  apply Forall_cons in Ht as [Ht Hts].
  apply IH; [done|]. by apply astStep_within.
Qed.

(** A token that spans all the tokens before it roots the whole tree. *)
Lemma AST_spanning l r b e :
  b < e -> Forall (within b e) l ->
  exists up,
    AST (l ++ [Token32 r b e]) = Some (Node32 (Token32 r b e) up) /\
    flatten (Node32 (Token32 r b e) up)
    = filter (fun t => nonEmpty t) (l ++ [Token32 r b e]).
Proof.
  intros Hlt Hl. unfold AST. rewrite fold_left_app; simpl.
  pose proof (fold_within b e l [] Hl (Forall_nil_2 _)) as Hs.
  pose proof (fold_flatten l []) as Hf. simpl in Hf.
  remember (fold_left astStep l []) as stack eqn:Es. clear Es.
  unfold astStep; simpl.
  destruct (Nat.eqb_spec b e) as [|_]; [lia|].
  rewrite adopt_all by done. rewrite app_nil_r; simpl.
  eexists; split; [done|]. simpl.
  rewrite Hf, filter_app. f_equal.
  rewrite filter_cons, filter_nil. unfold nonEmpty; simpl.
  by destruct (Nat.eqb_spec b e) as [|_]; [lia|].
Qed.

Lemma spans_Script_body buffer :
  spans (seq (Spacing buffer)
           (seq (Statement buffer)
              (seq (star buffer (Statement buffer)) (EndOfFile buffer)))).
Proof.
  repeat apply spans_seq.
  - apply spans_Spacing.
  - apply spans_Statement.
  - apply spans_star, spans_Statement.
  - unfold EndOfFile. apply spans_tok, spans_notp.
Qed.

(** X8. The tree of an accepted text: its root is the [Script] token over
    the whole text, and it holds every non-empty token of the parse,
    each once, children before parents in the order of the token list;
    only the empty tokens are left out. *)
Theorem AST_of_script (input : list rune) (toks : list token32) :
  Forall validRune input ->
  Parse input = inl toks ->
  exists up,
    AST toks = Some (Node32 (Token32 ruleScript 0 (length input)) up) /\
    flatten (Node32 (Token32 ruleScript 0 (length input)) up)
    = filter (fun t => nonEmpty t) toks.
Proof.
  intros Hv; unfold Parse; rewrite (mkBuffer_valid _ Hv).
  set (buffer := input ++ [endSymbol]).
  destruct (Script buffer initState) as [[] s] eqn:E; [|done].
  intros H; inv H.
  assert (I : Inv (length input) s).
  { eapply (good_sound _ _ (good_Script _ _ (end_index input))); [done|].
    apply Inv_initState. }
  destruct I as (Hpos & _).
  unfold Script in E. apply rule_true, tok_true in E as (s1 & E & ->).
  simpl in *.
  pose proof (spans_Script_body buffer _ _ E) as (_ & l & El & Fl).
  simpl in El, Fl; subst l.
  apply seq_true in E as (s2 & E1 & E). apply seq_true in E as (s3 & E2 & E).
  apply seq_true in E as (s4 & E3 & E4).
  apply spans_Spacing in E1 as [L1 _].
  apply (progressive_Statement _ _ (end_index input)) in E2.
  apply (spans_star _ _ (spans_Statement buffer)) in E3 as [L3 _].
  apply EndOfFile_true in E4 as (Hend & _ & Hp).
  assert (Hlen : position s1 = length input).
  { rewrite Hp. apply (peek_end_position input); [done | lia | done]. }
  rewrite Hlen in *. simpl in *.
  apply AST_spanning; [lia | done].
Qed.

Lemma AST_of_script_witness :
  exists up,
    AST (match Parse (runes "create vpc") with inl t => t | inr _ => [] end)
    = Some (Node32 (Token32 ruleScript 0 (length (runes "create vpc"))) up) /\
    flatten (Node32 (Token32 ruleScript 0 (length (runes "create vpc"))) up)
    = filter (fun t => nonEmpty t)
        (match Parse (runes "create vpc") with inl t => t | inr _ => [] end).
Proof.
  apply (AST_of_script (runes "create vpc")).
  - apply runes_valid.
  - by vm_compute.
Defined.

(** The span of the node [c] lies inside the token [t]. *)
Definition inside (t : token32) (c : node32) : Prop :=
  tok_begin t <= tok_begin (nodeToken c) /\
  tok_end (nodeToken c) <= tok_end t.

(** A tree in which every child lies inside the span of its parent. *)
#[local] Unset Elimination Schemes.
Inductive nested : node32 -> Prop :=
  | nested_node t up :
      Forall (inside t) up -> Forall nested up -> nested (Node32 t up).
#[local] Set Elimination Schemes.

Lemma adopt_inside token : forall stack up,
  Forall (inside token) up -> Forall nested up -> Forall nested stack ->
  Forall (inside token) (fst (adopt token stack up)) /\
  Forall nested (fst (adopt token stack up)) /\
  Forall nested (snd (adopt token stack up)).
Proof.
  induction stack as [|n down IH]; intros up H1 H2 H3; simpl; [done|].
  apply Forall_cons in H3 as [Hn Hd].
  destruct (tok_begin token <=? tok_begin (nodeToken n)) eqn:Eb; simpl.
  - destruct (tok_end (nodeToken n) <=? tok_end token) eqn:Ee; simpl.
    + apply IH; [|by apply Forall_cons_2 | done].
      apply Forall_cons_2; [|done].
      split; [by apply Nat.leb_le | by apply Nat.leb_le].
    + split; [done|]. split; [done | by apply Forall_cons_2].
  - split; [done|]. split; [done | by apply Forall_cons_2].
Qed.

Lemma astStep_nested stack token :
  Forall nested stack -> Forall nested (astStep stack token).
Proof.
  intros H. unfold astStep.
  destruct (tok_begin token =? tok_end token); [done|].
  destruct (adopt_inside token stack [] (Forall_nil_2 _) (Forall_nil_2 _) H)
    as (H1 & H2 & H3).
  destruct (adopt token stack []) as [up down]; simpl in *.
  apply Forall_cons_2; [|done]. by constructor.
Qed.

Lemma fold_nested tokens : forall stack,
  Forall nested stack -> Forall nested (fold_left astStep tokens stack).
Proof.
  induction tokens as [|t tokens IH]; intros stack Hs; simpl; [done|].
  by apply IH, astStep_nested.
Qed.

(** X9. Whatever the token list, [AST] hangs a node only below a node whose
    span contains it. *)
Theorem AST_nested (tokens : list token32) (root : node32) :
  AST tokens = Some root -> nested root.
Proof.
  unfold AST. intros H.
  pose proof (fold_nested tokens [] (Forall_nil_2 _)) as Hs.
  destruct (fold_left astStep tokens []) as [|n stack]; [done|].
  inv H. by apply Forall_cons in Hs as [Hs _].
Qed.

Lemma AST_nested_witness :
  nested (Node32 (Token32 ruleScript 0 3)
            [Node32 (Token32 ruleSpacing 1 2) []]).
Proof.
  apply (AST_nested [Token32 ruleSpacing 1 2; Token32 ruleSpace 2 2;
                     Token32 ruleScript 0 3]).
  reflexivity.
Defined.

End AstFacts.

(** ** Names and string values are read greedily *)

Module GreedyFacts.
Import Peg PegFacts GrammarFacts ProtocolFacts.

Lemma range_cases (P : N -> Prop) (lo : N) (n : nat) :
  (forall k, k < n -> P (lo + N.of_nat k)%N) ->
  forall c, (lo <= c < lo + N.of_nat n)%N -> P c.
Proof.
  intros H c Hc.
  replace c with (lo + N.of_nat (N.to_nat (c - lo)))%N by lia.
  apply H. lia.
Qed.

Section Greedy.
Variable buffer : list rune.

(** A loop whose body reads runes stops where the body fails. *)
Lemma star_loop_stops p fuel :
  respects p ->
  (forall s s1, p s = (true, s1) ->
                position s < length buffer /\ position s < position s1) ->
  forall s s', length buffer - position s < fuel ->
    star_loop fuel p s = (true, s') -> fst (p s') = false.
Proof.
  intros Hr Hp; induction fuel as [|fuel IH]; intros s s' Hf; [lia|]. simpl.
  destruct (p s) as [[] s1] eqn:E; intros H.
  - apply Hp in E as [H1 H2]. apply IH in H; [done | lia].
  - inv H. destruct (Hr (restore s s1) s) as [Hfst _]; [done|].
    by rewrite Hfst, E.
Qed.

Lemma consumes_reads C p s s1 :
  consumes buffer C p -> progressive p -> p s = (true, s1) ->
  position s < length buffer /\ position s < position s1.
Proof.
  intros Hc Hp H. pose proof (Hp _ _ H) as Hlt. split; [|done].
  apply Hc in H as (l & _ & Hl & Hd).
  destruct (decide (position s < length buffer)) as [|Hge]; [done|].
  rewrite drop_ge in Hd by lia.
  symmetry in Hd. apply app_eq_nil in Hd as [-> _]. simpl in Hl; lia.
Qed.

Ltac matching H :=
  unfold identifierChar, stringValueChar, switch, matchChar, matchRange, peek
    in *;
  simpl; rewrite ?H; simpl; rewrite ?H; reflexivity.

Lemma identifierChar_class s :
  isIdentifierRune (peek buffer s) -> fst (identifierChar buffer s) = true.
Proof.
  remember (peek buffer s) as c eqn:E. symmetry in E. revert s E.
  unfold isIdentifierRune, isDigit. intros s E H.
  destruct H as [-> | [-> | [-> | [H | [H | H]]]]]; try matching E.
  - revert s E. pattern c.
    apply (range_cases _ (ch "0") 10); [|revert H; evalch; simpl; lia].
    intros k Hk s E.
    do 10 (destruct k as [|k]; [simpl in E; matching E|]). lia.
  - revert s E. pattern c.
    apply (range_cases _ (ch "A") 26); [|revert H; evalch; simpl; lia].
    intros k Hk s E.
    do 26 (destruct k as [|k]; [simpl in E; matching E|]). lia.
  - revert s E. pattern c.
    apply (range_cases _ (ch "a") 26); [|revert H; evalch; simpl; lia].
    intros k Hk s E.
    do 26 (destruct k as [|k]; [simpl in E; matching E|]). lia.
Qed.

Lemma stringValueChar_class s :
  isStringRune (peek buffer s) -> fst (stringValueChar buffer s) = true.
Proof.
  remember (peek buffer s) as c eqn:E. symmetry in E. revert s E.
  unfold isStringRune, isIdentifierRune, isDigit. intros s E H.
  destruct H as [-> | [-> | [-> | [-> | [-> | [H | [H | H]]]]]]];
    try matching E.
  - revert s E. pattern c.
    apply (range_cases _ (ch "0") 10); [|revert H; evalch; simpl; lia].
    intros k Hk s E.
    do 10 (destruct k as [|k]; [simpl in E; matching E|]). lia.
  - revert s E. pattern c.
    apply (range_cases _ (ch "A") 26); [|revert H; evalch; simpl; lia].
    intros k Hk s E.
    do 26 (destruct k as [|k]; [simpl in E; matching E|]). lia.
  - revert s E. pattern c.
    apply (range_cases _ (ch "a") 26); [|revert H; evalch; simpl; lia].
    intros k Hk s E.
    do 26 (destruct k as [|k]; [simpl in E; matching E|]). lia.
Qed.

Lemma consumes_identifierChar :
  consumes buffer isIdentifierRune (identifierChar buffer).
Proof.
  unfold identifierChar. apply consumes_switch;
    [repeat apply Forall_cons_2; simpl; try apply Forall_nil_2|];
    (apply consumes_matchChar || apply consumes_matchRange); classes.
Qed.

Lemma consumes_stringValueChar :
  consumes buffer isStringRune (stringValueChar buffer).
Proof.
  unfold stringValueChar. apply consumes_switch;
    [repeat apply Forall_cons_2; simpl; try apply Forall_nil_2|];
    (apply consumes_matchChar || apply consumes_matchRange); classes.
Qed.

(** X7. [Identifier] and [StringValue] take the longest run of their runes:
    the rune that follows a name is no identifier rune, the rune that
    follows a string value no string rune. *)
Theorem Identifier_greedy (s s' : pstate) :
  (Identifier buffer s = (true, s') -> ~ isIdentifierRune (peek buffer s'))
  /\ (StringValue buffer s = (true, s') -> ~ isStringRune (peek buffer s')).
Proof.
  split; intros H Hc.
  - unfold Identifier in H. apply rule_true, tok_true in H as (s2 & H & ->).
    apply seq_true in H as (s1 & _ & H). unfold star in H.
    apply (identifierChar_class s2) in Hc.
    apply (star_loop_stops (identifierChar buffer)) in H;
      [congruence | | | lia].
    + exact (good_respects _ _ (good_identifierChar buffer _ (at_end buffer))).
    + intros x y. apply (consumes_reads isIdentifierRune);
        [apply consumes_identifierChar
        | apply progressive_identifierChar].
  - unfold StringValue in H. apply rule_true, tok_true in H as (s2 & H & ->).
    apply seq_true in H as (s1 & _ & H). unfold star in H.
    apply (stringValueChar_class s2) in Hc.
    apply (star_loop_stops (stringValueChar buffer)) in H;
      [congruence | | | lia].
    + exact (good_respects _ _ (good_stringValueChar buffer _ (at_end buffer))).
    + intros x y. apply (consumes_reads isStringRune);
        [apply consumes_stringValueChar
        | apply progressive_stringValueChar].
Qed.

End Greedy.

Lemma Identifier_greedy_witness :
  ~ isIdentifierRune
      (peek (mkBuffer (runes "a.b=1"))
         (snd (Identifier (mkBuffer (runes "a.b=1")) initState))).
Proof.
  apply (proj1 (Identifier_greedy (mkBuffer (runes "a.b=1")) initState _)).
  by vm_compute.
Defined.

End GreedyFacts.

(** ** [tokens32.Add]: the token array behind the token list *)

Module Tokens32.

(** The zero [token32] that [make] fills a new array with. *)
Definition zeroToken : token32 := Token32 ruleUnknown 0 0.

(** [(t *tokens32) Add(rule, begin, end, index)]: when the index is not
    inside the array, the array is copied into one of twice the length;
    then the token is stored at the index.  [None] is the
    index-out-of-range panic of the store. *)
Definition Add (tree : list token32) (r : pegRule) (b e index : nat)
    : option (list token32) :=
  let tree :=
    if length tree <=? index
    then tree ++ replicate (length tree) zeroToken
    else tree in
  if index <? length tree then Some (<[index := Token32 r b e]> tree)
  else None.



End Tokens32.

(** ** Every listed action and entity can be written *)

Module ReachFacts.
Import GrammarFacts.

(** X16. No word of the two lists is shadowed by an earlier alternative
    of the ordered choice: for every listed action and every listed
    entity the line "action entity" is accepted, and the builder is
    told this action, this entity and the end of the line. *)
Theorem Parse_accepts_every_pair (a e : string) :
  In a actionWords -> In e entityWords ->
  parseCalls (a +:+ " " +:+ e)
  = Some [addAction (runes a); addEntity (runes e); LineDone].
Proof.
  unfold actionWords, entityWords; simpl. intros Ha He.
  repeat (destruct Ha as [<-|Ha];
          [repeat (destruct He as [<-|He]; [by vm_compute|]); done|]).
  done.
Qed.

Lemma Parse_accepts_every_pair_witness :
  parseCalls "detach internetgateway"
  = Some [addAction (runes "detach"); addEntity (runes "internetgateway");
          LineDone].
Proof.
  apply (Parse_accepts_every_pair "detach" "internetgateway");
    simpl; tauto.
Defined.

End ReachFacts.
